(** * A shallow embedding of the pool allocator of [customallocator.h]

    The development follows the header top to bottom: [PoolState] (block
    store, bump cursor, free list), [PoolHandle], and the policy-driven
    front end [CustomAllocator].  Objects held through [std::shared_ptr]
    live in a store and are named by their index, so that two front ends
    holding the same pointer observe one pool. *)

From stdpp Require Import base numbers list strings.

Local Open Scope Z_scope.

(** ** Machine integers and pointers *)

(** [std::size_t] is taken to be 64 bits wide (LP64).  Values of that type
    are integers in [0, SIZE_MAX]; every arithmetic operation of the source
    on [size_type] is followed by [wrap]. *)
Definition size_bits : Z := 64.
Definition SIZE_MAX : Z := 2 ^ size_bits - 1.
Definition wrap (z : Z) : Z := z mod 2 ^ size_bits.

(** A [void*] is an address; [nullptr] is address zero. *)
Definition pointer : Type := Z.
Definition nullptr : pointer := 0.

(** The exceptions the header throws. *)
Inductive exn : Type :=
  | bad_alloc
  | bad_array_new_length
  | invalid_argument.

Global Instance exn_eq_dec : EqDecision exn.
Proof. solve_decision. Defined.

(** The result of running a piece of code in a state of type [S]: it either
    returns a value or throws; in both cases the state reached is kept,
    since whatever was mutated before a [throw] stays mutated. *)
Inductive outcome (S A : Type) : Type :=
  | Ret (a : A) (s : S)
  | Throw (e : exn) (s : S).
Global Arguments Ret {S A} a s.
Global Arguments Throw {S A} e s.

Definition M (S A : Type) : Type := S → outcome S A.

Definition ret {S A} (a : A) : M S A := λ s, Ret a s.
Definition throw {S A} (e : exn) : M S A := λ s, Throw e s.
Definition bind {S A B} (c : M S A) (k : A → M S B) : M S B :=
  λ s, match c s with
       | Ret a s' => k a s'
       | Throw e s' => Throw e s'
       end.

Notation "'do' x <- c ; k" := (bind c (λ x, k))
  (at level 10, x name, c at level 100, k at level 200).
Notation "c ;; k" := (bind c (λ _, k))
  (at level 100, k at level 200, right associativity).

Definition state_of {S A} (o : outcome S A) : S :=
  match o with Ret _ s => s | Throw _ s => s end.

Definition thrown {S A} (o : outcome S A) : option exn :=
  match o with Ret _ _ => None | Throw e _ => Some e end.

(** ** The system allocator

    [::operator new(bytes, std::nothrow)] is an external of the header.  It
    is an arbitrary function of the state of the system heap and of the
    request, answering with an address, [nullptr] when it cannot serve.

    The standard library allocates as well: a [std::vector] that has to
    grow on [push_back], and [std::make_shared], obtain memory through
    [std::allocator] and throw [std::bad_alloc] when there is none.  How
    much they ask for, and whether a given [push_back] has to grow at all,
    is the library's business; [library_new] says whether the next such
    request is served ([None]: it throws) and what the heap is afterwards. *)
Class SystemAllocator (Heap : Type) : Type := {
  operator_new : Heap → Z → pointer * Heap;
  library_new : Heap → option Heap
}.

(** A system heap that never runs out: it hands out consecutive addresses,
    starting from a non-null one, and serves the library from memory of its
    own. *)
Global Instance unbounded_heap : SystemAllocator positive := {|
  operator_new := λ next bytes, (Z.pos next, (next + Z.to_pos bytes)%positive);
  library_new := λ next, Some next
|}.

(** A system heap with a budget of bytes, and a number of requests of the
    library it still serves; a request over budget gets [nullptr], a
    request of the library after the last one served throws. *)
Record limited_heap : Type :=
  LimitedHeap { lh_next : positive; lh_left : Z; lh_library : nat }.

Global Instance limited_heap_alloc : SystemAllocator limited_heap := {|
  operator_new := λ h bytes,
    if bytes <=? lh_left h
    then (Z.pos (lh_next h),
          LimitedHeap (lh_next h + Z.to_pos bytes)%positive (lh_left h - bytes)
                      (lh_library h))
    else (nullptr, h);
  library_new := λ h,
    match lh_library h with
    | O => None
    | S served => Some (LimitedHeap (lh_next h) (lh_left h) served)
    end
|}.

(** ** [PoolState<T>] *)

(** The [std::vector] members are lists, [push_back] appends at the end and
    [back] is the last element. *)
Record PoolState : Type := mkPoolState {
  blocks : list pointer;
  block_elems : list Z;
  chunk_elems : Z;
  element_size : Z;
  current_block_index : Z;
  current_offset : Z;
  free_list : list pointer
}.

Global Instance PoolState_eq_dec : EqDecision PoolState.
Proof. solve_decision. Defined.

(** [v[i]] on a vector of [size_type].  The source does not check the index;
    [pool_indexed] below holds of every pool the header can build and keeps
    the index in range, so the default is never observed there. *)
Definition at_index (v : list Z) (i : Z) : Z := nth (Z.to_nat i) v 0.

Definition size {A} (v : list A) : Z := Z.of_nat (length v).

Section Pool.
Context {Heap : Type} `{!SystemAllocator Heap}.

(** Pool code runs against one pool and the system heap. *)
Definition PoolM (A : Type) : Type := M (PoolState * Heap) A.

Definition get_pool : PoolM PoolState := λ s, Ret (fst s) s.

(** [push_back] on a vector member of the pool: the library may have to
    allocate, and throws [std::bad_alloc] when it cannot; the vector is then
    as it was (the strong guarantee of [push_back]).  [pushed] is the pool
    with the element appended. *)
Definition vector_push_back (pushed : PoolState → PoolState) : PoolM unit :=
  λ '(st, h),
    match library_new h with
    | Some h' => Ret tt (pushed st, h')
    | None => Throw bad_alloc (st, h)
    end.

Definition blocks_pushed (raw : pointer) (st : PoolState) : PoolState :=
  mkPoolState (blocks st ++ [raw]) (block_elems st) (chunk_elems st)
              (element_size st) (current_block_index st) (current_offset st)
              (free_list st).

Definition block_elems_pushed (elems : Z) (st : PoolState) : PoolState :=
  mkPoolState (blocks st) (block_elems st ++ [elems]) (chunk_elems st)
              (element_size st) (current_block_index st) (current_offset st)
              (free_list st).

(** The two [push_back]s come one after the other, each free to throw, and
    the cursor moves only after both. *)
Definition add_block (elems : Z) : PoolM unit := λ '(st, h),
  if elems =? 0 then Ret tt (st, h)
  else
    let bytes := wrap (elems * element_size st) in
    let '(raw, h') := operator_new h bytes in
    if raw =? nullptr then Throw bad_alloc (st, h')
    else
      (vector_push_back (blocks_pushed raw) ;;
       vector_push_back (block_elems_pushed elems) ;;
       λ '(st2, h2),
         Ret tt (mkPoolState (blocks st2) (block_elems st2) (chunk_elems st2)
                             (element_size st2)
                             (wrap (size (blocks st2) - 1))
                             0
                             (free_list st2), h2)) (st, h').

Definition current_block_has (n : Z) (st : PoolState) : bool :=
  match blocks st with
  | [] => false
  | _ => wrap (current_offset st + n)
         <=? at_index (block_elems st) (current_block_index st)
  end.

Definition alloc_from_current (n : Z) : PoolM pointer := λ '(st, h),
  if negb (current_block_has n st) then Throw bad_alloc (st, h)
  else
    let base := at_index (blocks st) (current_block_index st) in
    let ptr := base + wrap (current_offset st * element_size st) in
    Ret ptr (mkPoolState (blocks st) (block_elems st) (chunk_elems st)
                         (element_size st) (current_block_index st)
                         (wrap (current_offset st + n))
                         (free_list st), h).

(** The [for] loop of [reserve_elements], over [i = 0 .. blocks.size()-1]. *)
Definition available_step (st : PoolState) (available : Z) (i : nat) : Z :=
  if Z.of_nat i =? current_block_index st
  then wrap (available
             + wrap (at_index (block_elems st) (Z.of_nat i) - current_offset st))
  else wrap (available + at_index (block_elems st) (Z.of_nat i)).

Definition available (st : PoolState) : Z :=
  fold_left (available_step st) (seq 0 (length (blocks st))) 0.

(** The [while (need > 0)] loop.  Every turn that does not [break]
    decreases [need] by [allocate_elems >= need > 0], so [need] itself
    bounds the number of turns and is used as the recursion measure. *)
Fixpoint reserve_loop (turns : nat) (need : Z) : PoolM unit :=
  match turns with
  | O => ret tt
  | S turns' =>
      if 0 <? need then
        do st <- get_pool;
        let allocate_elems := Z.max (chunk_elems st) need in
        add_block allocate_elems ;;
        if need <=? allocate_elems then ret tt
        else reserve_loop turns' (wrap (need - allocate_elems))
      else ret tt
  end.

Definition reserve_elements (total_elems : Z) : PoolM unit := λ '(st, h),
  if total_elems =? 0 then Ret tt (st, h)
  else
    let avail := available st in
    if total_elems <=? avail then Ret tt (st, h)
    else
      let need := wrap (total_elems - avail) in
      reserve_loop (Z.to_nat need) need (st, h).

(** [push_free] is [noexcept]: were [free_list.push_back] to throw, the
    program would end in [std::terminate] and there would be no pool left
    to speak of.  The model is of the calls that return. *)
Definition push_free (p : pointer) (st : PoolState) : PoolState :=
  mkPoolState (blocks st) (block_elems st) (chunk_elems st) (element_size st)
              (current_block_index st) (current_offset st)
              (free_list st ++ [p]).

Definition pop_free (st : PoolState) : pointer * PoolState :=
  match free_list st with
  | [] => (nullptr, st)
  | _ =>
      (List.last (free_list st) nullptr,
       mkPoolState (blocks st) (block_elems st) (chunk_elems st)
                   (element_size st) (current_block_index st)
                   (current_offset st) (removelast (free_list st)))
  end.

Definition push_free_of_pool (p : pointer) : PoolM unit := λ '(st, h),
  Ret tt (push_free p st, h).

Definition pop_free_of_pool : PoolM pointer := λ '(st, h),
  let '(q, st') := pop_free st in Ret q (st', h).

(** The constructor: the member initialisers, the check, the first block.
    When it throws, no object exists; the partial object is still returned
    so that the outcome says where the throw happened. *)
Definition PoolState_ctor (sizeof_T : Z) (chunk : Z) (h : Heap)
  : outcome (PoolState * Heap) unit :=
  let st := mkPoolState [] [] chunk sizeof_T 0 0 [] in
  if chunk =? 0 then Throw invalid_argument (st, h)
  else add_block chunk (st, h).

End Pool.

Global Arguments PoolM : clear implicits.

(** ** [PoolHandle<T>] and [CustomAllocator<T, ChunkElems, Expandable, PerElementFree>] *)

(** The template parameters of the front end: the element type [T], by
    its name ([value_type]) and its size, and the three others. *)
Record Policy : Type := mkPolicy {
  value_type : string;
  sizeof_T : Z;
  ChunkElems : Z;
  Expandable : bool;
  PerElementFree : bool
}.

(** [state_] is a [shared_ptr<PoolState<T>>]: empty, or the place of a pool
    in the store. *)
Record PoolHandle : Type := mkPoolHandle { state_ : option nat }.

(** [handle_] is a [shared_ptr<PoolHandle<T>>]: empty, or the place of a
    handle in the store. *)
Record CustomAllocator : Type := mkCustomAllocator { handle_ : option nat }.

Global Instance CustomAllocator_eq_dec : EqDecision CustomAllocator.
Proof. solve_decision. Defined.

(** Everything the front ends of a program share: the pools and handles
    created so far, and the system heap.  Objects are never removed (a
    pointer held by a front end keeps its target alive), so a place names
    one object for good. *)
Record World (Heap : Type) : Type := mkWorld {
  pools : list PoolState;
  handles : list PoolHandle;
  heap : Heap
}.
Global Arguments mkWorld {Heap} pools handles heap.
Global Arguments pools {Heap} w.
Global Arguments handles {Heap} w.
Global Arguments heap {Heap} w.

Section FrontEnd.
Context {Heap : Type} `{!SystemAllocator Heap}.

Local Abbreviation World := (World Heap).

(** A function declared [noexcept] that lets an exception escape calls
    [std::terminate]: there is no result. *)
Definition noexcept {A} (o : outcome World A) : option (A * World) :=
  match o with
  | Ret a w => Some (a, w)
  | Throw _ _ => None
  end.

(** [std::make_shared] first obtains the storage of the object and of its
    control block from the library's allocator, and throws
    [std::bad_alloc] when there is none; then it runs the constructor. *)
Definition make_shared_storage : M World unit := λ w,
  match library_new (heap w) with
  | Some h' => Ret tt (mkWorld (pools w) (handles w) h')
  | None => Throw bad_alloc w
  end.

Definition make_shared_PoolState (sizeof chunk : Z) : M World nat :=
  make_shared_storage ;;
  λ w,
    match PoolState_ctor sizeof chunk (heap w) with
    | Ret _ (st, h') => Ret (length (pools w)) (mkWorld (pools w ++ [st]) (handles w) h')
    | Throw e (_, h') => Throw e (mkWorld (pools w) (handles w) h')
    end.

(** [PoolHandle(chunk_elems)], built by [make_shared]: the storage of the
    handle, then its constructor, which makes the pool. *)
Definition make_shared_PoolHandle (sizeof chunk : Z) : M World nat :=
  make_shared_storage ;;
  do sl <- make_shared_PoolState sizeof chunk;
  λ w, Ret (length (handles w))
           (mkWorld (pools w) (handles w ++ [mkPoolHandle (Some sl)]) (heap w)).

Definition PoolHandle_valid (hd : PoolHandle) : bool :=
  match state_ hd with Some _ => true | None => false end.

Definition PoolHandle_get_state (hd : PoolHandle) : option nat := state_ hd.

(** [PoolHandle::reset], on the handle at place [hl]. *)
Definition PoolHandle_reset (hl : nat) (w : World) : World :=
  mkWorld (pools w) (<[hl := mkPoolHandle None]> (handles w)) (heap w).

Definition get_handle (a : CustomAllocator) : option nat := handle_ a.

(** The private [get_state()]: the pool the front end reaches, if any. *)
Definition get_state (w : World) (a : CustomAllocator) : option nat :=
  match handle_ a with
  | Some hl =>
      match handles w !! hl with
      | Some hd => if PoolHandle_valid hd then PoolHandle_get_state hd else None
      | None => None
      end
  | None => None
  end.

(** Running pool code on the pool at place [sl].  A place obtained from
    [get_state] holds a pool in every world built by the constructors
    below ([world_ok]); the last case is only there to make the function
    total. *)
Definition on_pool {A} (sl : nat) (c : PoolM Heap A) : M World A := λ w,
  match pools w !! sl with
  | Some st =>
      match c (st, heap w) with
      | Ret a (st', h') => Ret a (mkWorld (<[sl := st']> (pools w)) (handles w) h')
      | Throw e (st', h') => Throw e (mkWorld (<[sl := st']> (pools w)) (handles w) h')
      end
  | None => Throw bad_alloc w
  end.

(** The default constructor. *)
Definition CustomAllocator_new (p : Policy) (w : World)
  : option (CustomAllocator * World) :=
  noexcept ((do hl <- make_shared_PoolHandle (sizeof_T p) (ChunkElems p);
             ret (mkCustomAllocator (Some hl))) w).

(** The converting constructor, from a front end over another element
    type; [p] is the policy of the front end being built. *)
Definition CustomAllocator_convert (p : Policy) (other : CustomAllocator) (w : World)
  : option (CustomAllocator * World) :=
  noexcept (match get_handle other with
            | Some _ =>
                (do hl <- make_shared_PoolHandle (sizeof_T p) (ChunkElems p);
                 ret (mkCustomAllocator (Some hl))) w
            | None => Ret (mkCustomAllocator None) w
            end).

(** The defaulted copy and move constructors; a moved-from [shared_ptr]
    is empty.  Both return the new front end, [move] also what is left of
    its argument. *)
Definition CustomAllocator_copy (other : CustomAllocator) : CustomAllocator :=
  mkCustomAllocator (handle_ other).

Definition CustomAllocator_move (other : CustomAllocator)
  : CustomAllocator * CustomAllocator :=
  (mkCustomAllocator (handle_ other), mkCustomAllocator None).

Definition max_size (p : Policy) : Z := SIZE_MAX `div` sizeof_T p.

(** The body of [allocate] once the pool has been found. *)
Definition allocate_in (p : Policy) (n : Z) : PoolM Heap pointer :=
  if n =? 0 then ret nullptr
  else if max_size p <? n then throw bad_array_new_length
  else
    do st <- get_pool;
    if negb (Expandable p) && (chunk_elems st <? n) then throw bad_alloc
    else
      do reused <-
        (if PerElementFree p && (n =? 1) then pop_free_of_pool
         else ret nullptr);
      if negb (reused =? nullptr) then ret reused
      else
        do st <- get_pool;
        if current_block_has n st then alloc_from_current n
        else if negb (Expandable p) then throw bad_alloc
        else
          let want := Z.max n (chunk_elems st) in
          add_block want ;;
          alloc_from_current n.

Definition allocate (p : Policy) (a : CustomAllocator) (n : Z) : M World pointer := λ w,
  match get_state w a with
  | None => Throw bad_alloc w
  | Some sl => on_pool sl (allocate_in p n) w
  end.

Definition deallocate_in (p : Policy) (ptr : pointer) (n : Z) : PoolM Heap unit :=
  if PerElementFree p && (n =? 1) then push_free_of_pool ptr
  else ret tt.

(** [deallocate] is [noexcept] and throws nowhere: it maps worlds to
    worlds. *)
Definition deallocate (p : Policy) (a : CustomAllocator) (ptr : pointer) (n : Z)
    (w : World) : World :=
  if ptr =? nullptr then w
  else
    match get_state w a with
    | None => w
    | Some sl => state_of (on_pool sl (deallocate_in p ptr n) w)
    end.

(** The front end's [reserve_elements]. *)
Definition reserve (a : CustomAllocator) (count : Z) : M World unit := λ w,
  match get_state w a with
  | Some sl => on_pool sl (reserve_elements count) w
  | None => Ret tt w
  end.

(** [operator==] and [operator!=] compare the two [get_state()]
    pointers, two empty ones being equal.  [allocator_eq] and
    [allocator_neq] are the operators on two front ends over one element
    type. *)
Definition allocator_eq (w : World) (a b : CustomAllocator) : bool :=
  bool_decide (get_state w a = get_state w b).

Definition allocator_neq (w : World) (a b : CustomAllocator) : bool :=
  negb (allocator_eq w a b).

(** The operators are declared as templates over the parameters of the
    other front end, [U] among them, but their body compares a
    [PoolState<T>*] with a [PoolState<U>*]: for [U] other than [T] these
    point to unrelated types, the comparison is ill-formed, and a program
    that compares two such front ends does not compile.  [operator_eq] is
    the operator between a front end [a] of policy [p] and a front end [b]
    of policy [q]; it has no answer where there is no program. *)
Definition operator_eq (p q : Policy) (w : World) (a b : CustomAllocator)
  : option bool :=
  if decide (value_type p = value_type q) then Some (allocator_eq w a b)
  else None.

Definition operator_neq (p q : Policy) (w : World) (a b : CustomAllocator)
  : option bool :=
  negb <$> operator_eq p q w a b.

End FrontEnd.

(** ** Vocabulary of the specification *)

(** What is left of the current block for bump allocation. *)
Definition headroom (st : PoolState) : Z :=
  at_index (block_elems st) (current_block_index st) - current_offset st.

Definition sum_Z (l : list Z) : Z := foldr Z.add 0 l.

(** The two vectors run in step and the cursor names one of the blocks. *)
Definition pool_indexed (st : PoolState) : Prop :=
  length (blocks st) = length (block_elems st)
  ∧ 0 ≤ current_block_index st < size (blocks st).

(** A pool made by a front end of policy [p]. *)
Definition built_by (p : Policy) (st : PoolState) : Prop :=
  chunk_elems st = ChunkElems p ∧ element_size st = sizeof_T p.

(** The pool [add_block] leaves when the system allocator delivers [raw]. *)
Definition with_block (st : PoolState) (raw : pointer) (elems : Z) : PoolState :=
  mkPoolState (blocks st ++ [raw]) (block_elems st ++ [elems])
              (chunk_elems st) (element_size st)
              (wrap (size (blocks st ++ [raw]) - 1)) 0 (free_list st).

(** The least number of blocks of [g] elements that hold [k] elements. *)
Definition ceil_div (k g : Z) : Z := (k + g - 1) `div` g.

Section Runs.
Context {Heap : Type} `{!SystemAllocator Heap}.

(** [k] calls of [allocate(n)] in a row on one front end; the first call
    that throws ends the run. *)
Fixpoint allocate_many (p : Policy) (a : CustomAllocator) (n : Z) (k : nat)
  : M (World Heap) (list pointer) :=
  match k with
  | O => ret []
  | S k' =>
      do q <- allocate p a n;
      do qs <- allocate_many p a n k';
      ret (q :: qs)
  end.

(** The pool a front end reaches. *)
Definition pool_of (w : World Heap) (a : CustomAllocator) : option PoolState :=
  match get_state w a with
  | Some sl => pools w !! sl
  | None => None
  end.

End Runs.

(** ** Sample configurations *)

(** [CustomAllocator<char, 10>], [CustomAllocator<int, 10>] and
    [CustomAllocator<int, 10, false>], and their per-element-free variants. *)
Definition char_policy : Policy := mkPolicy "char" 1 10 true false.
Definition int_policy : Policy := mkPolicy "int" 4 10 true false.
Definition fixed_int_policy : Policy := mkPolicy "int" 4 10 false false.
Definition recycling_int_policy : Policy := mkPolicy "int" 4 10 true true.

(** A program start: no pool yet, a system heap that never runs out. *)
Definition fresh_world : World positive := mkWorld [] [] 4096%positive.

(** The first front end made at program start, and the world it leaves. *)
Definition first_allocator : CustomAllocator := mkCustomAllocator (Some 0%nat).

Definition world_of_pool {Heap} (st : PoolState) (h : Heap) : World Heap :=
  mkWorld [st] [mkPoolHandle (Some 0%nat)] h.

(** The pool of a [CustomAllocator<char, 10>] after one [allocate(1)], and
    after eleven of them. *)
Definition one_used_pool : PoolState :=
  mkPoolState [4096] [10] 10 1 0 1 [].

Definition two_block_pool : PoolState :=
  mkPoolState [4096; 4106] [10; 10] 10 1 1 1 [].

(** The pool of a [CustomAllocator<int, 10>] right after construction. *)
Definition fresh_int_pool : PoolState :=
  mkPoolState [4096] [10] 10 4 0 0 [].

(** A front end that reaches no pool: its handle is absent, or the handle's
    state has been reset. *)
Definition unusable {Heap} (w : World Heap) (a : CustomAllocator) : Prop :=
  handle_ a = None
  ∨ ∃ hl, handle_ a = Some hl ∧ handles w !! hl = Some (mkPoolHandle None).

(** The pool of a [CustomAllocator<int, 10, true, true>] after one
    [allocate(1)], which returned address 4096. *)
Definition one_used_int_pool : PoolState :=
  mkPoolState [4096] [10] 10 4 0 1 [].

(** A [CustomAllocator<int, 10>] pool whose only block is used up, and a
    system heap with nothing left to give. *)
Definition full_int_pool : PoolState :=
  mkPoolState [4096] [10] 10 4 0 10 [].

Definition exhausted_heap : limited_heap := LimitedHeap 4136%positive 0 0.

(** A system heap that has the bytes of one more block of ten [int]s and
    serves one more request of the library. *)
Definition nearly_exhausted_heap : limited_heap := LimitedHeap 4136%positive 40 1.

(** The calls a container makes on a front end, and the world each leaves
    behind, whether it returns or throws. *)
Inductive call : Type :=
  | Allocate (n : Z)
  | Deallocate (ptr : pointer) (n : Z)
  | Reserve (count : Z).

Definition perform {Heap} `{!SystemAllocator Heap}
    (p : Policy) (a : CustomAllocator) (w : World Heap) (c : call) : World Heap :=
  match c with
  | Allocate n => state_of (allocate p a n w)
  | Deallocate ptr n => deallocate p a ptr n w
  | Reserve count => state_of (reserve a count w)
  end.

(** The pool the constructor of [PoolState] leaves when the system
    allocator delivers [raw] for the first block. *)
Definition initial_pool (p : Policy) (raw : pointer) : PoolState :=
  mkPoolState [raw] [ChunkElems p] (ChunkElems p) (sizeof_T p) 0 0 [].

(** What holds of the pool of an expandable front end after [j] calls of
    [allocate(1)] and no other call: every block has the chunk capacity,
    the free list is empty, and the blocks before the current one account
    for at least [ChunkElems] calls each. *)
Definition singles_inv (p : Policy) (j : Z) (st : PoolState) : Prop :=
  built_by p st
  ∧ length (blocks st) = length (block_elems st)
  ∧ 0 ≤ current_block_index st < size (blocks st)
  ∧ Forall (λ c, c = ChunkElems p) (block_elems st)
  ∧ 0 ≤ current_offset st ≤ ChunkElems p
  ∧ free_list st = []
  ∧ (size (blocks st) - 1) * ChunkElems p + current_offset st ≤ j
  ∧ (j = 0 ∨ (size (blocks st) - 1) * ChunkElems p + 1 ≤ j).

(** Where no counter of the code wraps, the pool after [j] calls of
    [allocate(1)] is known exactly: the blocks before the current one are
    used up and the bump offset counts the calls served by the current
    one. *)
Definition singles_exact (p : Policy) (j : Z) (st : PoolState) : Prop :=
  built_by p st
  ∧ length (blocks st) = length (block_elems st)
  ∧ Forall (λ b, b ≠ nullptr) (blocks st)
  ∧ Forall (λ c, c = ChunkElems p) (block_elems st)
  ∧ free_list st = []
  ∧ 1 ≤ size (blocks st)
  ∧ current_block_index st = size (blocks st) - 1
  ∧ current_offset st = j - (size (blocks st) - 1) * ChunkElems p
  ∧ 0 ≤ current_offset st ≤ ChunkElems p
  ∧ (j = 0 ∨ 1 ≤ current_offset st).

(** The address of element [j mod g] of block [j / g], computed the way
    [alloc_from_current] computes it. *)
Definition single_address (p : Policy) (st : PoolState) (j : Z) : pointer :=
  at_index (blocks st) (j `div` ChunkElems p)
  + wrap ((j `mod` ChunkElems p) * sizeof_T p).

(** The library's requests are always served: no [push_back] and no
    [make_shared] throws. *)
Definition library_never_fails (Heap : Type) `{!SystemAllocator Heap} : Prop :=
  ∀ h : Heap, is_Some (library_new h).

(** The system allocator never answers [nullptr], and the library's
    requests are always served. *)
Definition never_exhausted (Heap : Type) `{!SystemAllocator Heap} : Prop :=
  (∀ (h : Heap) (bytes : Z), fst (operator_new h bytes) ≠ nullptr)
  ∧ library_never_fails Heap.

(** The system allocator serves [bytes] bytes at [raw] and the library
    serves the two [push_back]s that record the block; [h'] is the heap
    after the three requests. *)
Definition block_served {Heap : Type} `{!SystemAllocator Heap}
    (h : Heap) (bytes : Z) (raw : pointer) (h' : Heap) : Prop :=
  raw ≠ nullptr
  ∧ ∃ h1 h2, operator_new h bytes = (raw, h1)
             ∧ library_new h1 = Some h2
             ∧ library_new h2 = Some h'.

(** The requests of the constructor of a front end are all served: the
    two of [make_shared], for the handle and for the pool, then the first
    block. *)
Definition pool_served {Heap : Type} `{!SystemAllocator Heap}
    (h : Heap) (bytes : Z) (raw : pointer) (h' : Heap) : Prop :=
  ∃ h1 h2, library_new h = Some h1
           ∧ library_new h1 = Some h2
           ∧ block_served h2 bytes raw h'.

(** No handle in the store points outside the store of pools: a
    [shared_ptr] never dangles. *)
Definition world_ok {Heap} (w : World Heap) : Prop :=
  ∀ hl sl, handles w !! hl = Some (mkPoolHandle (Some sl)) →
           is_Some (pools w !! sl).

(** The address the bump cursor stands on. *)
Definition bump_top (st : PoolState) : Z :=
  at_index (blocks st) (current_block_index st)
  + current_offset st * element_size st.

(** A pool of elements at least two bytes wide whose current block lies
    below the next address of the never-exhausted system heap, with
    capacities that fit [size_type] when counted in bytes. *)
Definition bump_inv (st : PoolState) (h : positive) : Prop :=
  length (blocks st) = length (block_elems st)
  ∧ 0 ≤ current_block_index st < size (blocks st)
  ∧ 2 ≤ element_size st
  ∧ 0 < at_index (blocks st) (current_block_index st)
  ∧ 0 ≤ current_offset st ≤ at_index (block_elems st) (current_block_index st)
  ∧ at_index (block_elems st) (current_block_index st) * element_size st ≤ SIZE_MAX
  ∧ 0 ≤ chunk_elems st
  ∧ chunk_elems st * element_size st ≤ SIZE_MAX
  ∧ at_index (blocks st) (current_block_index st)
    + at_index (block_elems st) (current_block_index st) * element_size st
    ≤ Z.pos h.

(** The pointers returned by a series of [allocate] calls of sizes [ns] on
    one pool; a call that throws returns none and the series goes on. *)
Fixpoint allocate_trace (p : Policy) (ns : list Z) (s : PoolState * positive)
  : list pointer :=
  match ns with
  | [] => []
  | n :: ns' =>
      match allocate_in p n s with
      | Ret q s' => q :: allocate_trace p ns' s'
      | Throw _ s' => allocate_trace p ns' s'
      end
  end.

(** ** The rest of [PoolState] and the calls of a container *)

(** [release_all_blocks]: the pointers handed to [::operator delete], in
    the order of the calls, and the pool it leaves (the two [const] members
    stay). *)
Definition release_all_blocks (st : PoolState) : list pointer * PoolState :=
  (blocks st, mkPoolState [] [] (chunk_elems st) (element_size st) 0 0 []).

(** Capacities are counts and the bump offset lies within the current
    block. *)
Definition pool_bounded (st : PoolState) : Prop :=
  Forall (λ c, 0 ≤ c) (block_elems st)
  ∧ 0 ≤ current_offset st
      ≤ at_index (block_elems st) (current_block_index st).

(** The arguments of a call are values of [size_type]. *)
Definition call_args_ok (c : call) : Prop :=
  match c with
  | Allocate n => 0 ≤ n
  | Deallocate _ n => 0 ≤ n
  | Reserve count => 0 ≤ count
  end.


(** What a call does to the pool it reaches and to the system heap. *)
Definition pool_after {Heap} `{!SystemAllocator Heap}
    (p : Policy) (c : call) (s : PoolState * Heap) : PoolState * Heap :=
  match c with
  | Allocate n => state_of (allocate_in p n s)
  | Deallocate ptr n =>
      if ptr =? nullptr then s else state_of (deallocate_in p ptr n s)
  | Reserve count => state_of (reserve_elements count s)
  end.


(** The pool with its bump offset moved to [off]. *)
Definition with_offset (st : PoolState) (off : Z) : PoolState :=
  mkPoolState (blocks st) (block_elems st) (chunk_elems st) (element_size st)
              (current_block_index st) off (free_list st).

(** ** [custmath::factorial] of [custommath.h] *)

(** [unsigned int] is 32 bits wide and [unsigned long long] 64, the width
    of [size_type], so that [wrap] serves for the latter. *)
Definition wrap_uint (z : Z) : Z := z mod 2 ^ 32.
Definition ULLONG_MAX : Z := SIZE_MAX.

Inductive factorial_result : Type :=
  | Value (v : Z)
  | overflow_error.

(** The [for] loop, from the state [(i, result)].  It is only entered with
    [n <= 20] and takes at most [n] turns. *)
Fixpoint factorial_loop (turns : nat) (n i result : Z) : Z :=
  match turns with
  | O => result
  | S turns' =>
      if i <=? n
      then factorial_loop turns' n (wrap_uint (i + 1)) (wrap (result * i))
      else result
  end.

Definition factorial (n : Z) : factorial_result :=
  if 20 <? n then overflow_error
  else Value (factorial_loop (Z.to_nat n) n 2 1).

(** The factorial of the integers, with no bound. *)
Fixpoint product_up_to (k : nat) : Z :=
  match k with
  | O => 1
  | S k' => Z.of_nat (S k') * product_up_to k'
  end.

(** ** [SimpleVector<Type, CustomAllocator<Type, ...>>] of [customvector.h] *)

(** The data members. *)
Record SimpleVector : Type := mkSimpleVector {
  items_ : pointer;
  size_ : Z;
  capacity_ : Z;
  allocator_ : CustomAllocator
}.

(** What a vector runs against: the world of the allocators, and the raw
    storage seen as objects -- at each address the object alive there,
    constructed and not yet destroyed, with its value, if any.  The
    caller's objects live in the same store: an argument passed by
    reference is an address. *)
Record Machine (Heap T : Type) : Type := mkMachine {
  world : World Heap;
  objects : pointer → option T
}.
Global Arguments mkMachine {Heap T} world objects.
Global Arguments world {Heap T} m.
Global Arguments objects {Heap T} m.

(** The outcome of [At]: a reference, that is an address, or the
    [std::out_of_range] it throws. *)
Inductive at_result : Type :=
  | Reference (q : pointer)
  | out_of_range.

Section Vector.
Context {Heap : Type} `{!SystemAllocator Heap} {T : Type}.

(** The policy of the allocator type of the vector; [sizeof_T] is
    [sizeof(Type)]. *)
Variable policy : Policy.

Definition VecM (A : Type) : Type := M (SimpleVector * Machine Heap T) A.

(** [base + i] on a [Type*]. *)
Definition slot (base : pointer) (i : Z) : pointer := base + i * sizeof_T policy.

(** Construction and destruction of an object in raw storage;
    [put_object q None] is [alloc_traits::destroy]. *)
Definition put_object (q : pointer) (o : option T) (objs : pointer → option T)
  : pointer → option T :=
  λ r, if r =? q then o else objs r.

Definition vec_allocate (n : Z) : VecM pointer := λ '(v, m),
  match allocate policy (allocator_ v) n (world m) with
  | Ret q w' => Ret q (v, mkMachine w' (objects m))
  | Throw e w' => Throw e (v, mkMachine w' (objects m))
  end.

(** The loop of [resize_storage]: each element is move-constructed in the
    new storage, then destroyed in the old one. *)
Fixpoint relocate (count : nat) (i : Z) (src dst : pointer)
    (objs : pointer → option T) : pointer → option T :=
  match count with
  | O => objs
  | S count' =>
      let moved := put_object (slot dst i) (objs (slot src i)) objs in
      relocate count' (wrap (i + 1)) src dst (put_object (slot src i) None moved)
  end.

Definition resize_storage (new_capacity : Z) : VecM unit :=
  do new_items <- vec_allocate new_capacity;
  λ '(v, m),
    let objs := relocate (Z.to_nat (size_ v)) 0 (items_ v) new_items (objects m) in
    let w := if items_ v =? nullptr then world m
             else deallocate policy (allocator_ v) (items_ v) (capacity_ v) (world m) in
    Ret tt (mkSimpleVector new_items (size_ v) new_capacity (allocator_ v),
            mkMachine w objs).

(** A member that copies, moves or assigns objects through references has
    no defined behaviour where the object it reads, or assigns to, is not
    alive.  [VecB] adds that case, [None], to the outcomes of [VecM].  The
    constructors and assignment operators of [Type] themselves are taken
    not to throw. *)
Definition VecB (A : Type) : Type :=
  SimpleVector * Machine Heap T
  → option (outcome (SimpleVector * Machine Heap T) A).

Definition defined {A} (c : VecM A) : VecB A := λ s, Some (c s).

Definition bindB {A B} (c : VecB A) (k : A → VecB B) : VecB B :=
  λ s, match c s with
       | Some (Ret a s') => k a s'
       | Some (Throw e s') => Some (Throw e s')
       | None => None
       end.

(** [construct(dst, src)] with [src] a [const Type&]: a copy of the object
    at [src] is constructed at [dst]. *)
Definition copy_construct (dst src : pointer) (objs : pointer → option T)
  : option (pointer → option T) :=
  match objs src with
  | Some x => Some (put_object dst (Some x) objs)
  | None => None
  end.

(** [construct(items_ + size_, item); ++size_], the end of both branches of
    [PushBack]: the new element is a copy of the object at [item], as it is
    at that moment. *)
Definition construct_at_end (item : pointer) : VecB unit := λ '(v, m),
  match copy_construct (slot (items_ v) (size_ v)) item (objects m) with
  | Some objs =>
      Some (Ret tt (mkSimpleVector (items_ v) (wrap (size_ v + 1)) (capacity_ v)
                                   (allocator_ v),
                    mkMachine (world m) objs))
  | None => None
  end.

(** [PushBack(const Type& item)]: the argument is a reference, read when
    the element is constructed, which on a full vector is after
    [resize_storage] has moved and destroyed the old elements. *)
Definition PushBack (item : pointer) : VecB unit := λ '(v, m),
  if size_ v <? capacity_ v then construct_at_end item (v, m)
  else
    let new_capacity := if capacity_ v =? 0 then 1 else wrap (capacity_ v * 2) in
    bindB (defined (resize_storage new_capacity)) (λ _, construct_at_end item) (v, m).

Definition GetSize (v : SimpleVector) : Z := size_ v.
Definition GetCapacity (v : SimpleVector) : Z := capacity_ v.
Definition IsEmpty (v : SimpleVector) : bool := size_ v =? 0.

(** [PopBack] is [noexcept] and throws nowhere. *)
Definition PopBack (s : SimpleVector * Machine Heap T) : SimpleVector * Machine Heap T :=
  let '(v, m) := s in
  if negb (IsEmpty v)
  then (mkSimpleVector (items_ v) (wrap (size_ v - 1)) (capacity_ v) (allocator_ v),
        mkMachine (world m)
                  (put_object (slot (items_ v) (size_ v - 1)) None (objects m)))
  else (v, m).

Definition At (v : SimpleVector) (index : Z) : at_result :=
  if size_ v <=? index then out_of_range
  else Reference (slot (items_ v) index).

(** The loop of [destroy_elements], from index [i]. *)
Fixpoint destroy_from (count : nat) (i : Z) (base : pointer)
    (objs : pointer → option T) : pointer → option T :=
  match count with
  | O => objs
  | S count' => destroy_from count' (wrap (i + 1)) base (put_object (slot base i) None objs)
  end.

Definition destroy_elements (v : SimpleVector) (objs : pointer → option T)
  : pointer → option T :=
  destroy_from (Z.to_nat (size_ v)) 0 (items_ v) objs.

Definition Clear (s : SimpleVector * Machine Heap T) : SimpleVector * Machine Heap T :=
  let '(v, m) := s in
  (mkSimpleVector (items_ v) 0 (capacity_ v) (allocator_ v),
   mkMachine (world m) (destroy_elements v (objects m))).

(** The member [Reserve] ([Reserve] alone names the call on a front end). *)
Definition Vector_Reserve (new_capacity : Z) : VecM unit := λ '(v, m),
  if capacity_ v <? new_capacity then resize_storage new_capacity (v, m)
  else Ret tt (v, m).

(** [SimpleVector(const Allocator& alloc)]: an empty vector on a copy of
    [alloc]. *)
Definition SimpleVector_on (alloc : CustomAllocator) : SimpleVector :=
  mkSimpleVector nullptr 0 0 (CustomAllocator_copy alloc).

(** The caller gives its variable at [item] the value [x]. *)
Definition assign_variable (item : pointer) (x : T) : VecM unit := λ '(v, m),
  Ret tt (v, mkMachine (world m) (put_object item (Some x) (objects m))).

(** The loop of [main], [for (...; ++i) vector.PushBack(i)]: one variable
    of the caller's, at [item], takes each value of [xs] in turn and is
    pushed; the first call that throws ends the run. *)
Fixpoint push_all (item : pointer) (xs : list T) : VecB unit :=
  match xs with
  | [] => defined (ret tt)
  | x :: xs' =>
      bindB (defined (assign_variable item x))
            (λ _, bindB (PushBack item) (λ _, push_all item xs'))
  end.

End Vector.

(** The vector holds exactly the elements of [l], in order: [size_] is the
    length of [l] and the object at [items_ + i] is the [i]-th element. *)
Definition holds {Heap T} (p : Policy) (v : SimpleVector) (m : Machine Heap T)
    (l : list T) : Prop :=
  size_ v = Z.of_nat (length l)
  ∧ ∀ (i : nat) (x : T), l !! i = Some x →
      objects m (slot p (items_ v) (Z.of_nat i)) = Some x.

(** The storage handed out at [q] for a vector of [count] elements shares
    no element address with the first [count] elements at [base]. *)
Definition apart (p : Policy) (q base : pointer) (count : nat) : Prop :=
  ∀ i j : nat, (i < count)%nat → (j < count)%nat →
    slot p q (Z.of_nat i) ≠ slot p base (Z.of_nat j).

(** The capacity [PushBack] grows to when the vector is full. *)
Definition next_capacity (v : SimpleVector) : Z :=
  if capacity_ v =? 0 then 1 else wrap (capacity_ v * 2).

(** A vector whose storage was handed out by the pool [st] its allocator
    reaches, on the system heap that never runs out: the storage ends at
    or below the bump cursor, and the capacity is what [PushBack] alone
    gives a vector of [len] elements. *)
Definition vector_in_pool {T} (p : Policy) (v : SimpleVector)
    (m : Machine positive T) (st : PoolState) (len : Z) : Prop :=
  pool_of (world m) (allocator_ v) = Some st
  ∧ built_by p st
  ∧ bump_inv st (heap (world m))
  ∧ slot p (items_ v) (capacity_ v) ≤ bump_top st
  ∧ 0 ≤ items_ v
  ∧ ((len = 0 ∧ capacity_ v = 0) ∨ (len ≤ capacity_ v ≤ 2 * len - 1)).

(** The caller's variable at [item] lies below the bump cursor of the
    pool, hence below everything the pool hands out from now on, and below
    the storage of the vector, if it has any. *)
Definition variable_below (p : Policy) (item : pointer) (v : SimpleVector)
    (st : PoolState) : Prop :=
  item < bump_top st ∧ (capacity_ v = 0 ∨ item < items_ v).

(** A vector of two [int]s with room for four, in the pool of a
    [CustomAllocator<int, 10>]. *)
Definition sample_vector : SimpleVector := mkSimpleVector 4096 2 4 first_allocator.

Definition sample_machine : Machine positive Z :=
  mkMachine (world_of_pool (with_offset fresh_int_pool 4) 4136%positive)
            (λ r, if r =? 4096 then Some 7 else if r =? 4100 then Some 8 else None).

(** The same two [int]s in storage for two, the only block of the pool
    being used up. *)
Definition full_vector : SimpleVector := mkSimpleVector 4096 2 2 first_allocator.

Definition full_machine : Machine positive Z :=
  mkMachine (world_of_pool full_int_pool 4136%positive) (objects sample_machine).

(** [sample_machine] with one more [int], the caller's, outside the
    storage of the vector. *)
Definition caller_machine : Machine positive Z :=
  mkMachine (world sample_machine) (put_object 8000 (Some 9) (objects sample_machine)).

Definition full_caller_machine : Machine positive Z :=
  mkMachine (world full_machine) (objects caller_machine).

(** ** More members of [SimpleVector] *)

Section VectorMembers.
Context {Heap : Type} `{!SystemAllocator Heap} {T : Type}.
Variable policy : Policy.

(** The state in which the move constructor and the move assignment of
    [Type] leave their source: some valid value, which the vector does not
    know.  For [int] and the like it is the value the object had. *)
Variable moved_from : T → T.

(** Copy assignment through two references: the object at [dst] takes the
    value of the object at [src]. *)
Definition copy_assign (dst src : pointer) (objs : pointer → option T)
  : option (pointer → option T) :=
  match objs dst, objs src with
  | Some _, Some x => Some (put_object dst (Some x) objs)
  | _, _ => None
  end.

(** Move assignment: the object at [dst] takes the value of the object
    at [src], which is left moved-from. *)
Definition move_assign (dst src : pointer) (objs : pointer → option T)
  : option (pointer → option T) :=
  match objs dst, objs src with
  | Some _, Some x =>
      Some (put_object src (Some (moved_from x)) (put_object dst (Some x) objs))
  | _, _ => None
  end.

(** Move construction: an object is constructed at [dst] from the object
    at [src], which is left moved-from. *)
Definition move_construct (dst src : pointer) (objs : pointer → option T)
  : option (pointer → option T) :=
  match objs src with
  | Some x =>
      Some (put_object src (Some (moved_from x)) (put_object dst (Some x) objs))
  | None => None
  end.

(** [std::move(first, last, d_first)] on element addresses: [count]
    move-assignments, front to back, the [k]-th from [base + (i + k)] to
    [base + (j + k)]. *)
Fixpoint move_forward (count : nat) (i j : Z) (base : pointer)
    (objs : pointer → option T) : option (pointer → option T) :=
  match count with
  | O => Some objs
  | S count' =>
      match move_assign (slot policy base j) (slot policy base i) objs with
      | Some objs' => move_forward count' (i + 1) (j + 1) base objs'
      | None => None
      end
  end.

(** [Erase(pos)], with [pos = begin() + index]; the [assert] asks for
    [index < size_].  The element at [pos] is destroyed first, and the
    elements behind it are then move-assigned one place down, the first of
    them onto [pos].  The iterator returned is [pos]. *)
Definition Erase (index : Z) (s : SimpleVector * Machine Heap T)
  : option (pointer * (SimpleVector * Machine Heap T)) :=
  let '(v, m) := s in
  let erase_pos := slot policy (items_ v) index in
  let destroyed := put_object erase_pos None (objects m) in
  match (if negb (erase_pos =? slot policy (items_ v) (size_ v - 1))
         then move_forward (Z.to_nat (size_ v - (index + 1))) (index + 1) index
                           (items_ v) destroyed
         else Some destroyed) with
  | Some moved =>
      Some (erase_pos,
            (mkSimpleVector (items_ v) (wrap (size_ v - 1)) (capacity_ v)
                            (allocator_ v),
             mkMachine (world m) moved))
  | None => None
  end.

(** The constructing loop of [Resize(new_size, value)], from index [i];
    [value] is a reference, read at every turn. *)
Fixpoint fill_from (count : nat) (i : Z) (base : pointer) (value : pointer)
    (objs : pointer → option T) : option (pointer → option T) :=
  match count with
  | O => Some objs
  | S count' =>
      match copy_construct (slot policy base i) value objs with
      | Some objs' => fill_from count' (wrap (i + 1)) base value objs'
      | None => None
      end
  end.

(** [Resize(size_t new_size, const Type& value)]; the reference is read
    after [resize_storage], when the storage has to grow. *)
Definition Resize (new_size : Z) (value : pointer) : VecB unit := λ '(v, m),
  if size_ v <? new_size then
    bindB (defined (if capacity_ v <? new_size then resize_storage policy new_size
                    else ret tt))
          (λ _ '(v1, m1),
             match fill_from (Z.to_nat (new_size - size_ v1)) (size_ v1) (items_ v1)
                             value (objects m1) with
             | Some objs =>
                 Some (Ret tt (mkSimpleVector (items_ v1) new_size (capacity_ v1)
                                              (allocator_ v1),
                               mkMachine (world m1) objs))
             | None => None
             end) (v, m)
  else if new_size <? size_ v then
    Some (Ret tt (mkSimpleVector (items_ v) new_size (capacity_ v) (allocator_ v),
                  mkMachine (world m)
                    (destroy_from policy (Z.to_nat (size_ v - new_size)) new_size
                                  (items_ v) (objects m))))
  else Some (Ret tt (mkSimpleVector (items_ v) new_size (capacity_ v) (allocator_ v),
                     m)).

(** [operator==] of two vectors, for an element type with a decidable
    [==]: the sizes, then [std::equal] over the elements of [lhs]. *)
Fixpoint equal_from `{!EqDecision T} (count : nat) (i : Z) (lhs rhs : pointer)
    (objs : pointer → option T) : bool :=
  match count with
  | O => true
  | S count' =>
      if decide (objs (slot policy lhs i) = objs (slot policy rhs i))
      then equal_from count' (i + 1) lhs rhs objs
      else false
  end.

Definition vector_eq `{!EqDecision T} (lhs rhs : SimpleVector)
    (objs : pointer → option T) : bool :=
  (GetSize lhs =? GetSize rhs)
  && equal_from (Z.to_nat (size_ lhs)) 0 (items_ lhs) (items_ rhs) objs.

(** [std::move_backward(first, last, d_last)] on element addresses:
    [count] move-assignments, back to front, [i] and [j] being the indices
    of [last] and [d_last]; each turn steps both down, then assigns. *)
Fixpoint move_backward (count : nat) (i j : Z) (base : pointer)
    (objs : pointer → option T) : option (pointer → option T) :=
  match count with
  | O => Some objs
  | S count' =>
      match move_assign (slot policy base (j - 1)) (slot policy base (i - 1)) objs with
      | Some objs' => move_backward count' (i - 1) (j - 1) base objs'
      | None => None
      end
  end.

(** The writes of [Insert] once there is room: before the end, the last
    element is move-constructed one place up, the elements from the
    insertion point on are moved one place up, and the value is
    copy-assigned to the insertion point; at the end, the value is
    copy-constructed there. *)
Definition insert_objects (v : SimpleVector) (index : Z) (value : pointer)
    (objs : pointer → option T) : option (pointer → option T) :=
  let insert_pos := slot policy (items_ v) index in
  let end_pos := slot policy (items_ v) (size_ v) in
  if negb (insert_pos =? end_pos) then
    match move_construct end_pos (slot policy (items_ v) (size_ v - 1)) objs with
    | Some built =>
        match move_backward (Z.to_nat (size_ v - 1 - index)) (size_ v - 1) (size_ v)
                            (items_ v) built with
        | Some moved => copy_assign insert_pos value moved
        | None => None
        end
    | None => None
    end
  else copy_construct end_pos value objs.

(** [Insert(pos, const Type& value)] with [pos = begin() + index].  The
    argument is a reference: [value] is the address of the caller's object,
    read where the source reads it, after the storage has grown and, when
    inserting before the end, after the elements have been shifted. *)
Definition Insert (index : Z) (value : pointer) : VecB pointer := λ '(v, m),
  bindB (defined (if size_ v =? capacity_ v
                  then resize_storage policy
                         (if capacity_ v =? 0 then 1 else wrap (capacity_ v * 2))
                  else ret tt))
        (λ _ '(v1, m1),
           match insert_objects v1 index value (objects m1) with
           | Some objs =>
               Some (Ret (slot policy (items_ v1) index)
                         (mkSimpleVector (items_ v1) (wrap (size_ v1 + 1))
                                         (capacity_ v1) (allocator_ v1),
                          mkMachine (world m1) objs))
           | None => None
           end) (v, m).

End VectorMembers.

(** * Properties *)

(** ** Arithmetic on [size_type] *)

Lemma modulus_eq : 2 ^ size_bits = 18446744073709551616.
Proof. reflexivity. Qed.

Lemma SIZE_MAX_eq : SIZE_MAX = 18446744073709551615.
Proof. reflexivity. Qed.

Lemma wrap_small z : 0 ≤ z ≤ SIZE_MAX → wrap z = z.
Proof.
  rewrite SIZE_MAX_eq. intros Hz. unfold wrap. rewrite modulus_eq.
  apply Z.mod_small. lia.
Qed.

Lemma wrap_range z : 0 ≤ wrap z ≤ SIZE_MAX.
Proof.
  rewrite SIZE_MAX_eq. unfold wrap. rewrite modulus_eq.
  pose proof (Z.mod_pos_bound z 18446744073709551616). lia.
Qed.

Lemma wrap_le z : 0 ≤ z → wrap z ≤ z.
Proof.
  intros Hz. unfold wrap. rewrite modulus_eq. apply Z.mod_le; lia.
Qed.

Lemma wrap_add_l a b : wrap (wrap a + b) = wrap (a + b).
Proof. unfold wrap. apply Zplus_mod_idemp_l. Qed.

Lemma wrap_add_r a b : wrap (a + wrap b) = wrap (a + b).
Proof. unfold wrap. apply Zplus_mod_idemp_r. Qed.

Lemma max_size_bound p : 1 ≤ sizeof_T p → 0 ≤ max_size p ≤ SIZE_MAX.
Proof.
  intros Hs. unfold max_size. rewrite SIZE_MAX_eq. split.
  - apply Z.div_pos; lia.
  - apply Z.div_le_upper_bound; nia.
Qed.

Lemma max_size_pos p : 1 ≤ sizeof_T p ≤ SIZE_MAX → 1 ≤ max_size p.
Proof.
  intros [Hlo Hhi]. unfold max_size.
  apply Z.div_le_lower_bound; lia.
Qed.

(** ** The block store *)

Section PoolFacts.
Context {Heap : Type} `{!SystemAllocator Heap}.
Implicit Types (st : PoolState) (h : Heap).

Lemma add_block_granted st h elems raw h' :
  elems ≠ 0 →
  block_served h (wrap (elems * element_size st)) raw h' →
  add_block elems (st, h) = Ret tt (with_block st raw elems, h').
Proof.
  intros Hne (Hraw & h1 & h2 & Hnew & Hfirst & Hsecond). unfold add_block.
  destruct (Z.eqb_spec elems 0) as [|_]; [done|].
  rewrite Hnew. destruct (Z.eqb_spec raw nullptr) as [|_]; [done|].
  unfold bind, vector_push_back. by rewrite Hfirst, Hsecond.
Qed.

Lemma add_block_refused st h elems h' :
  elems ≠ 0 →
  operator_new h (wrap (elems * element_size st)) = (nullptr, h') →
  add_block elems (st, h) = Throw bad_alloc (st, h').
Proof.
  intros Hne Hnew. unfold add_block.
  destruct (Z.eqb_spec elems 0) as [|_]; [done|].
  by rewrite Hnew.
Qed.

(** The three places where [add_block] throws: the system allocator
    refuses the block; [blocks.push_back] throws, and the block just
    obtained is lost; [block_elems.push_back] throws, and the pool is left
    with a block that has no capacity. *)
Lemma add_block_throw_inv st h elems e st' h' :
  add_block elems (st, h) = Throw e (st', h') →
  e = bad_alloc
  ∧ ((st' = st
      ∧ operator_new h (wrap (elems * element_size st)) = (nullptr, h'))
     ∨ (st' = st
        ∧ ∃ raw, raw ≠ nullptr
            ∧ operator_new h (wrap (elems * element_size st)) = (raw, h')
            ∧ library_new h' = None)
     ∨ (∃ raw h1, raw ≠ nullptr
          ∧ st' = blocks_pushed raw st
          ∧ operator_new h (wrap (elems * element_size st)) = (raw, h1)
          ∧ library_new h1 = Some h'
          ∧ library_new h' = None)).
Proof.
  unfold add_block. destruct (elems =? 0); [done|].
  destruct (operator_new h _) as [raw h1] eqn:Hnew.
  destruct (Z.eqb_spec raw nullptr) as [->|Hraw].
  { intros [= <- <- <-]. split; [done|]. by left. }
  unfold bind, vector_push_back.
  destruct (library_new h1) as [h2|] eqn:Hfirst.
  - destruct (library_new h2) as [h3|] eqn:Hsecond; [done|].
    intros [= <- <- <-]. split; [done|]. right. right. by exists raw, h1.
  - intros [= <- <- <-]. split; [done|]. right. left. split; [done|]. by exists raw.
Qed.

(** While the library serves its requests, a throw of [add_block] is the
    refusal of the system allocator and leaves the pool as it was. *)
Lemma add_block_throw_served st h elems e st' h' :
  library_never_fails Heap →
  add_block elems (st, h) = Throw e (st', h') →
  e = bad_alloc ∧ st' = st.
Proof.
  intros Hlib Hrun.
  apply add_block_throw_inv in Hrun
    as (-> & [[-> _] | [(_ & raw & _ & _ & Hnone) | (raw & h1 & _ & _ & _ & _ & Hnone)]]).
  - done.
  - destruct (Hlib h') as [h2 Hsome]. congruence.
  - destruct (Hlib h') as [h2 Hsome]. congruence.
Qed.

Lemma add_block_ret_inv st h elems u st' h' :
  add_block elems (st, h) = Ret u (st', h') →
  (elems = 0 ∧ st' = st ∧ h' = h)
  ∨ (elems ≠ 0 ∧ ∃ raw,
       block_served h (wrap (elems * element_size st)) raw h'
       ∧ st' = with_block st raw elems).
Proof.
  unfold add_block. destruct (Z.eqb_spec elems 0) as [->|Hne].
  { intros [= <- <-]. by left. }
  destruct (operator_new h _) as [raw h1] eqn:Hnew.
  destruct (Z.eqb_spec raw nullptr) as [->|Hraw]; [done|].
  unfold bind, vector_push_back.
  destruct (library_new h1) as [h2|] eqn:Hfirst; [|done].
  destruct (library_new h2) as [h3|] eqn:Hsecond; [|done].
  intros [= _ <- <-]. right. split; [done|]. exists raw.
  split; [|done]. split; [done|]. by exists h1, h2.
Qed.

Lemma never_exhausted_serves_block h bytes :
  never_exhausted Heap → ∃ raw h', block_served h bytes raw h'.
Proof.
  intros [Hnew Hlib].
  destruct (operator_new h bytes) as [raw h1] eqn:Hraw.
  destruct (Hlib h1) as [h2 Hfirst]. destruct (Hlib h2) as [h3 Hsecond].
  exists raw, h3. split.
  - pose proof (Hnew h bytes) as Hne. by rewrite Hraw in Hne.
  - by exists h1, h2.
Qed.

Lemma never_exhausted_serves_pool h bytes :
  never_exhausted Heap → ∃ raw h', pool_served h bytes raw h'.
Proof.
  intros Hnever. pose proof Hnever as [_ Hlib].
  destruct (Hlib h) as [h1 Hhandle]. destruct (Hlib h1) as [h2 Hpool].
  destruct (never_exhausted_serves_block h2 bytes Hnever) as (raw & h' & Hblock).
  exists raw, h'. by exists h1, h2.
Qed.

(** The bind of the monad on a computation that ends with [ret tt]. *)
Lemma bind_ret_tt {S} (c : M S unit) (s : S) : (c ;; ret tt) s = c s.
Proof. cbv [bind ret]. by destruct (c s) as [[] ?|? ?]. Qed.

(** One turn of the [while] loop always reaches [break]: the block it adds
    holds at least [need] elements. *)
Lemma reserve_loop_one_turn turns need st h :
  0 < need →
  reserve_loop (S turns) need (st, h)
  = add_block (Z.max (chunk_elems st) need) (st, h).
Proof.
  intros Hneed. cbn [reserve_loop].
  destruct (Z.ltb_spec 0 need) as [_|]; [|lia].
  unfold bind at 1. cbn [get_pool fst].
  destruct (Z.leb_spec need (Z.max (chunk_elems st) need)) as [_|]; [|lia].
  apply bind_ret_tt.
Qed.

Lemma fold_available_range st l acc :
  0 ≤ acc ≤ SIZE_MAX →
  0 ≤ fold_left (available_step st) l acc ≤ SIZE_MAX.
Proof.
  revert acc. induction l as [|i l IH]; intros acc Hacc; [done|].
  cbn [fold_left]. apply IH. unfold available_step.
  destruct (_ =? _); apply wrap_range.
Qed.

Lemma available_range st : 0 ≤ available st ≤ SIZE_MAX.
Proof. apply fold_available_range. rewrite SIZE_MAX_eq. lia. Qed.

(** What [reserve_elements] does when it finds the pool short. *)
Lemma reserve_elements_short st h total :
  total ≤ SIZE_MAX →
  available st < total →
  reserve_elements total (st, h)
  = add_block (Z.max (chunk_elems st) (total - available st)) (st, h).
Proof.
  intros Htotal Hshort. pose proof (available_range st) as Hav.
  unfold reserve_elements.
  destruct (Z.eqb_spec total 0) as [|_]; [lia|].
  destruct (Z.leb_spec total (available st)) as [|_]; [lia|].
  rewrite (wrap_small (total - available st)) by lia.
  destruct (Z.to_nat (total - available st)) as [|turns] eqn:Hturns; [lia|].
  apply reserve_loop_one_turn. lia.
Qed.

Lemma reserve_elements_enough st h total :
  total ≤ available st → reserve_elements total (st, h) = Ret tt (st, h).
Proof.
  intros Hle. unfold reserve_elements.
  destruct (total =? 0); [done|].
  by destruct (Z.leb_spec total (available st)) as [_|]; [|lia].
Qed.

(** [available] adds up the capacity of every block and takes the bump
    offset off once, for the current block. *)
Lemma sum_Z_app l1 l2 : sum_Z (l1 ++ l2) = sum_Z l1 + sum_Z l2.
Proof. unfold sum_Z. induction l1 as [|x l1 IH]; cbn; lia. Qed.

Lemma fold_available_prefix st k :
  (k ≤ length (block_elems st))%nat →
  fold_left (available_step st) (seq 0 k) 0
  = wrap (sum_Z (take k (block_elems st))
          - (if current_block_index st <? Z.of_nat k
             then if 0 <=? current_block_index st then current_offset st else 0
             else 0)).
Proof.
  induction k as [|k IH]; intros Hk.
  { change (Z.of_nat 0) with 0.
    destruct (Z.ltb_spec (current_block_index st) 0),
      (Z.leb_spec 0 (current_block_index st)); try lia; reflexivity. }
  rewrite seq_S, fold_left_app, IH by lia. cbn [fold_left Nat.add].
  destruct (lookup_lt_is_Some_2 (block_elems st) k) as [x Hx]; [lia|].
  rewrite (take_S_r _ _ _ Hx), sum_Z_app. cbn [sum_Z foldr].
  assert (at_index (block_elems st) (Z.of_nat k) = x) as Hat.
  { unfold at_index. rewrite Nat2Z.id. by apply nth_lookup_Some. }
  unfold available_step. rewrite Hat.
  destruct (Z.eqb_spec (Z.of_nat k) (current_block_index st)) as [Heq|Hne].
  - destruct (Z.ltb_spec (current_block_index st) (Z.of_nat k)); [lia|].
    destruct (Z.ltb_spec (current_block_index st) (Z.of_nat (S k))); [|lia].
    destruct (Z.leb_spec 0 (current_block_index st)); [|lia].
    rewrite wrap_add_r, wrap_add_l. f_equal. fold (sum_Z (take k (block_elems st))). lia.
  - rewrite wrap_add_l.
    destruct (Z.ltb_spec (current_block_index st) (Z.of_nat k)),
             (Z.ltb_spec (current_block_index st) (Z.of_nat (S k))); try lia;
      f_equal; fold (sum_Z (take k (block_elems st))); lia.
Qed.

Lemma available_sum st :
  pool_indexed st →
  available st = wrap (sum_Z (block_elems st) - current_offset st).
Proof.
  intros [Hlen [Hlo Hhi]]. unfold available, size in *.
  rewrite fold_available_prefix by lia.
  rewrite Hlen, firstn_all.
  destruct (Z.ltb_spec (current_block_index st) (Z.of_nat (length (block_elems st))));
    [|lia].
  by destruct (Z.leb_spec 0 (current_block_index st)); [|lia].
Qed.

End PoolFacts.

(** ** Growth on [reserve_elements] *)

(** The sample pools are the ones the code builds. *)
Lemma initial_char_pool_reached :
  CustomAllocator_new char_policy fresh_world
  = Some (first_allocator,
          world_of_pool (initial_pool char_policy 4096) 4106%positive).
Proof. reflexivity. Qed.

Lemma one_used_pool_reached :
  allocate char_policy first_allocator 1
           (world_of_pool (initial_pool char_policy 4096) 4106%positive)
  = Ret 4096 (world_of_pool one_used_pool 4106%positive).
Proof. reflexivity. Qed.

Lemma two_block_pool_reached :
  allocate_many char_policy first_allocator 1 11
                (world_of_pool (initial_pool char_policy 4096) 4106%positive)
  = Ret [4096; 4097; 4098; 4099; 4100; 4101; 4102; 4103; 4104; 4105; 4106]
        (world_of_pool two_block_pool 4116%positive).
Proof. by vm_compute. Qed.

(** What [reserve_elements] does when the capacity it counts -- the sum
    of the capacities of all blocks less the bump offset -- is short of
    [total] by [d > 0] and the requests of [add_block] are served: it
    appends exactly one block, of [max(chunk_elems, d)] elements. *)
Lemma reserve_elements_appends_one_block
    {Heap : Type} `{!SystemAllocator Heap}
    (st : PoolState) (h h' : Heap) (total : Z) (raw : pointer) :
  let d := total - wrap (sum_Z (block_elems st) - current_offset st) in
  let grown := Z.max (chunk_elems st) d in
  pool_indexed st →
  total ≤ SIZE_MAX →
  0 < d →
  block_served h (wrap (grown * element_size st)) raw h' →
  reserve_elements total (st, h) = Ret tt (with_block st raw grown, h')
  ∧ block_elems (with_block st raw grown) = block_elems st ++ [grown]
  ∧ d ≤ grown
  ∧ chunk_elems st ≤ grown
  ∧ (chunk_elems st < d → grown = d).
Proof.
  intros d grown Hidx Htotal Hd Hserved.
  pose proof (available_sum st Hidx) as Hav. subst d grown.
  rewrite <- Hav in *.
  split; [|split; [done|lia]].
  rewrite reserve_elements_short by lia.
  apply add_block_granted; [lia|done].
Qed.

(** C1: [reserve_elements] counts the whole capacity of every block but
    the current one as available, although [allocate] never returns to a
    block once [add_block] has moved the cursor past it.  After eleven
    single allocations on a [CustomAllocator<char, 10>] the current block
    of [two_block_pool] has nine elements left, so a reservation of fifteen
    is short by six; [reserve_elements] finds nineteen available, the ten
    of the consumed first block among them, and appends nothing. *)
Theorem reserve_counts_consumed_blocks :
  headroom two_block_pool = 9
  ∧ available two_block_pool = 19
  ∧ ¬ ∃ (st' : PoolState) (h' : positive) (new : list Z),
        reserve_elements 15 (two_block_pool, 4116%positive) = Ret tt (st', h')
        ∧ block_elems st' = block_elems two_block_pool ++ new
        ∧ 15 - headroom two_block_pool ≤ sum_Z new.
Proof.
  split; [reflexivity|]. split; [reflexivity|].
  intros (st' & h' & new & Hrun & Hnew & Hsum).
  vm_compute in Hrun. injection Hrun as <- <-.
  destruct new as [|x new]; [|discriminate Hnew].
  vm_compute in Hsum. by apply Hsum.
Qed.

(** ** The has-room check *)

(** Where [current_offset + n] stays within [size_type], the check is the
    comparison of [n] with the headroom. *)
Lemma current_block_has_without_wrap (st : PoolState) (n : Z) :
  blocks st ≠ [] →
  0 ≤ current_offset st + n ≤ SIZE_MAX →
  current_block_has n st = true ↔ n ≤ headroom st.
Proof.
  intros Hne Hrange. unfold current_block_has, headroom.
  destruct (blocks st); [done|].
  rewrite wrap_small by done. rewrite Z.leb_le. lia.
Qed.

(** C2: the check adds before it compares, and the sum wraps.  On the pool
    of a [CustomAllocator<char, 10>] that has handed out one element, nine
    elements are left, and the check still grants [SIZE_MAX] of them. *)
Theorem current_block_has_wraps :
  headroom one_used_pool = 9
  ∧ current_block_has SIZE_MAX one_used_pool = true
  ∧ ¬ (current_block_has SIZE_MAX one_used_pool = true
       ↔ SIZE_MAX ≤ headroom one_used_pool).
Proof.
  split; [reflexivity|]. split; [reflexivity|].
  intros [Hto _]. specialize (Hto eq_refl). vm_compute in Hto. by apply Hto.
Qed.

(** ** The size limit *)

Section WorldFacts.
Context {Heap : Type} `{!SystemAllocator Heap}.
Implicit Types (w : World Heap) (a : CustomAllocator) (st : PoolState).

Lemma world_insert_same w sl st :
  pools w !! sl = Some st →
  mkWorld (<[sl := st]> (pools w)) (handles w) (heap w) = w.
Proof. intros Hsl. destruct w. cbn in *. f_equal. by apply list_insert_id. Qed.

Lemma on_pool_ret {A} w sl st (c : PoolM Heap A) x st' h' :
  pools w !! sl = Some st →
  c (st, heap w) = Ret x (st', h') →
  on_pool sl c w = Ret x (mkWorld (<[sl := st']> (pools w)) (handles w) h').
Proof. intros Hsl Hc. unfold on_pool. by rewrite Hsl, Hc. Qed.

Lemma on_pool_throw {A} w sl st (c : PoolM Heap A) e st' h' :
  pools w !! sl = Some st →
  c (st, heap w) = Throw e (st', h') →
  on_pool sl c w = Throw e (mkWorld (<[sl := st']> (pools w)) (handles w) h').
Proof. intros Hsl Hc. unfold on_pool. by rewrite Hsl, Hc. Qed.

(** Pool code that throws without touching pool or heap leaves the world
    as it was. *)
Lemma on_pool_throw_same {A} w sl st (c : PoolM Heap A) e :
  pools w !! sl = Some st →
  c (st, heap w) = Throw e (st, heap w) →
  on_pool sl c w = Throw e w.
Proof.
  intros Hsl Hc. unfold on_pool. rewrite Hsl, Hc. f_equal.
  by apply world_insert_same.
Qed.

Lemma on_pool_ret_same {A} w sl st (c : PoolM Heap A) x :
  pools w !! sl = Some st →
  c (st, heap w) = Ret x (st, heap w) →
  on_pool sl c w = Ret x w.
Proof.
  intros Hsl Hc. unfold on_pool. rewrite Hsl, Hc. f_equal.
  by apply world_insert_same.
Qed.

(** [allocate] turns a request over [max_size] down before it looks at the
    pool. *)
Lemma allocate_in_over_max_size p n st (h : Heap) :
  1 ≤ sizeof_T p →
  max_size p < n →
  allocate_in p n (st, h) = Throw bad_array_new_length (st, h).
Proof.
  intros Hs Hn. pose proof (max_size_bound p Hs). unfold allocate_in.
  destruct (Z.eqb_spec n 0) as [|_]; [lia|].
  by destruct (Z.ltb_spec (max_size p) n) as [_|]; [|lia].
Qed.

Lemma allocate_over_max_size p a n w :
  1 ≤ sizeof_T p →
  max_size p < n →
  is_Some (pool_of w a) →
  allocate p a n w = Throw bad_array_new_length w.
Proof.
  intros Hs Hn [st Hst]. unfold allocate. unfold pool_of in Hst.
  destruct (get_state w a) as [sl|]; [|done].
  eapply on_pool_throw_same; [done|]. by apply allocate_in_over_max_size.
Qed.

End WorldFacts.

Lemma fresh_int_pool_reached :
  CustomAllocator_new int_policy fresh_world
  = Some (first_allocator, world_of_pool fresh_int_pool 4136%positive).
Proof. reflexivity. Qed.

(** C3: [reserve_elements] has no size check.  On a fresh
    [CustomAllocator<int, 10>] a reservation of [2^62 + 20] elements, more
    than [max_size], is short by [2^62 + 10]; the byte count wraps to 40,
    the system allocator is asked for 40 bytes, and a block recorded with
    [2^62 + 10] elements joins the pool. *)
Theorem reserve_ignores_max_size :
  max_size int_policy < 2 ^ 62 + 20
  ∧ wrap ((2 ^ 62 + 10) * sizeof_T int_policy) = 40
  ∧ reserve first_allocator (2 ^ 62 + 20)
            (world_of_pool fresh_int_pool 4136%positive)
    = Ret tt (world_of_pool (with_block fresh_int_pool 4136 (2 ^ 62 + 10))
                            4176%positive)
  ∧ block_elems (with_block fresh_int_pool 4136 (2 ^ 62 + 10))
    = [10; 2 ^ 62 + 10].
Proof.
  split; [reflexivity|]. split; [reflexivity|]. split; [|reflexivity].
  unfold reserve.
  change (get_state _ first_allocator) with (Some 0%nat). cbv iota beta.
  erewrite (on_pool_ret _ _ fresh_int_pool); [reflexivity|reflexivity|].
  change (heap (world_of_pool fresh_int_pool 4136%positive)) with 4136%positive.
  rewrite reserve_elements_short; [|by vm_compute|by vm_compute].
  apply add_block_granted; [by vm_compute|].
  split; [discriminate|]. by eexists _, _.
Qed.

(** ** The front end on its pool *)

Section AllocateFacts.
Context {Heap : Type} `{!SystemAllocator Heap}.
Implicit Types (w : World Heap) (a : CustomAllocator) (st : PoolState).

Lemma get_state_handles w w' a :
  handles w' = handles w → get_state w' a = get_state w a.
Proof. intros Hh. unfold get_state. by rewrite Hh. Qed.

Lemma pool_of_inv w a st :
  pool_of w a = Some st →
  ∃ sl, get_state w a = Some sl ∧ pools w !! sl = Some st.
Proof.
  unfold pool_of. destruct (get_state w a) as [sl|]; [|done]. by exists sl.
Qed.

Lemma unusable_get_state w a : unusable w a → get_state w a = None.
Proof.
  unfold get_state. intros [Hnone | (hl & Hhl & Hreset)].
  - by rewrite Hnone.
  - by rewrite Hhl, Hreset.
Qed.


(** The body of [allocate] on a non-expandable pool, for a request over
    the chunk. *)
Lemma allocate_in_over_chunk p n st (h : Heap) :
  Expandable p = false →
  0 ≤ chunk_elems st < n →
  allocate_in p n (st, h)
  = Throw (if max_size p <? n then bad_array_new_length else bad_alloc) (st, h).
Proof.
  intros Hfixed Hn. unfold allocate_in.
  destruct (Z.eqb_spec n 0) as [|_]; [lia|].
  destruct (max_size p <? n); [done|].
  unfold bind, get_pool. cbn [fst]. rewrite Hfixed. cbn [negb andb].
  by destruct (Z.ltb_spec (chunk_elems st) n) as [_|]; [|lia].
Qed.


End AllocateFacts.

(** C4, as stated, fails: a [CustomAllocator<int, 10, false>] asked for
    [2^62] elements, more than its chunk and more than [max_size], throws
    [bad_array_new_length] (the size limit), not [bad_alloc]. *)
Lemma fixed_pool_checks_size_limit_first :
  Expandable fixed_int_policy = false
  ∧ ChunkElems fixed_int_policy < 2 ^ 62
  ∧ allocate fixed_int_policy first_allocator (2 ^ 62)
             (world_of_pool fresh_int_pool 4136%positive)
    = Throw bad_array_new_length (world_of_pool fresh_int_pool 4136%positive)
  ∧ ¬ thrown (allocate fixed_int_policy first_allocator (2 ^ 62)
                       (world_of_pool fresh_int_pool 4136%positive))
      = Some bad_alloc.
Proof.
  split; [reflexivity|]. split; [reflexivity|].
  assert (allocate fixed_int_policy first_allocator (2 ^ 62)
                   (world_of_pool fresh_int_pool 4136%positive)
          = Throw bad_array_new_length
                  (world_of_pool fresh_int_pool 4136%positive)) as Hrun.
  { by vm_compute. }
  split; [exact Hrun|]. rewrite Hrun. discriminate.
Qed.

(** C4 (amended): on a non-expandable front end, [allocate(n)] with [n]
    over the chunk size always throws and leaves the whole world, hence the
    pool, as it was; it throws [bad_alloc] (capacity exceeded) when [n] is
    within [max_size], and [bad_array_new_length] (size limit exceeded)
    when [n] is over [max_size]. *)
Theorem fixed_pool_refuses_over_chunk
    {Heap : Type} `{!SystemAllocator Heap}
    (p : Policy) (a : CustomAllocator) (n : Z) (w : World Heap) (st : PoolState) :
  Expandable p = false →
  pool_of w a = Some st →
  built_by p st →
  0 ≤ ChunkElems p < n →
  allocate p a n w
  = Throw (if max_size p <? n then bad_array_new_length else bad_alloc) w
  ∧ pool_of (state_of (allocate p a n w)) a = Some st.
Proof.
  intros Hfixed Hst [Hchunk _] Hn.
  destruct (pool_of_inv _ _ _ Hst) as (sl & Hsl & Hpool).
  assert (allocate p a n w
          = Throw (if max_size p <? n then bad_array_new_length else bad_alloc) w)
    as Hrun.
  { unfold allocate. rewrite Hsl.
    eapply on_pool_throw_same; [done|].
    apply allocate_in_over_chunk; [done|]. by rewrite Hchunk. }
  split; [exact Hrun|]. by rewrite Hrun.
Qed.

Lemma fixed_pool_refuses_over_chunk_witness :
  allocate fixed_int_policy first_allocator 11
           (world_of_pool fresh_int_pool 4136%positive)
  = Throw bad_alloc (world_of_pool fresh_int_pool 4136%positive).
Proof.
  refine (proj1 (fixed_pool_refuses_over_chunk fixed_int_policy first_allocator 11
                   (world_of_pool fresh_int_pool 4136%positive) fresh_int_pool
                   _ _ _ _)).
  - reflexivity.
  - reflexivity.
  - split; reflexivity.
  - vm_compute. split; [discriminate|reflexivity].
Defined.



(** ** Front ends without a pool *)

Section Unusable.
Context {Heap : Type} `{!SystemAllocator Heap}.
Implicit Types (w : World Heap) (a : CustomAllocator).

(** The ways the header produces such a front end. *)
Lemma moved_from_unusable w a : unusable w (snd (CustomAllocator_move a)).
Proof. by left. Qed.

Lemma convert_without_handle p other w :
  handle_ other = None →
  ∃ a, CustomAllocator_convert p other w = Some (a, w) ∧ unusable w a.
Proof.
  intros Hnone. exists (mkCustomAllocator None).
  unfold CustomAllocator_convert, get_handle. rewrite Hnone.
  split; [done|]. by left.
Qed.

Lemma reset_unusable w a hl :
  handle_ a = Some hl →
  is_Some (handles w !! hl) →
  unusable (PoolHandle_reset hl w) a.
Proof.
  intros Ha [hd Hhd]. right. exists hl. split; [done|].
  unfold PoolHandle_reset. cbn [handles].
  apply list_lookup_insert_eq. by eapply lookup_lt_Some.
Qed.

End Unusable.

(** C10: a front end whose handle is absent, or whose handle's state has
    been reset, throws [bad_alloc] on [allocate(n)] for every [n], zero
    included, and changes nothing; on it [deallocate] and [reserve] return
    normally and change nothing. *)
Theorem unusable_allocator_operations
    {Heap : Type} `{!SystemAllocator Heap}
    (p : Policy) (a : CustomAllocator) (w : World Heap) :
  unusable w a →
  (∀ n, allocate p a n w = Throw bad_alloc w)
  ∧ (∀ ptr n, deallocate p a ptr n w = w)
  ∧ (∀ n, reserve a n w = Ret tt w).
Proof.
  intros Hnone%unusable_get_state. repeat split.
  - intros n. unfold allocate. by rewrite Hnone.
  - intros ptr n. unfold deallocate. rewrite Hnone. by destruct (ptr =? nullptr).
  - intros n. unfold reserve. by rewrite Hnone.
Qed.

Lemma unusable_allocator_operations_witness :
  allocate int_policy (snd (CustomAllocator_move first_allocator)) 0
           (world_of_pool fresh_int_pool 4136%positive)
  = Throw bad_alloc (world_of_pool fresh_int_pool 4136%positive).
Proof.
  refine (proj1 (unusable_allocator_operations int_policy
                   (snd (CustomAllocator_move first_allocator))
                   (world_of_pool fresh_int_pool 4136%positive) _) 0).
  left. reflexivity.
Defined.

(** ** Failure of the system allocator *)

Section Growth.
Context {Heap : Type} `{!SystemAllocator Heap}.
Implicit Types (st : PoolState) (h : Heap).

Lemma reserve_elements_cases st h total :
  reserve_elements total (st, h) = Ret tt (st, h)
  ∨ ∃ need, 0 < need
      ∧ reserve_elements total (st, h)
        = add_block (Z.max (chunk_elems st) need) (st, h).
Proof.
  unfold reserve_elements.
  destruct (total =? 0); [by left|].
  destruct (total <=? available st); [by left|].
  pose proof (wrap_range (total - available st)) as Hneed.
  destruct (Z.to_nat (wrap (total - available st))) as [|turns] eqn:Hturns.
  { by left. }
  right. exists (wrap (total - available st)). split; [lia|].
  apply reserve_loop_one_turn. lia.
Qed.

Lemma at_index_last (l : list Z) (x : Z) :
  size l ≤ SIZE_MAX → at_index (l ++ [x]) (wrap (size (l ++ [x]) - 1)) = x.
Proof.
  intros Hsize. unfold size in *. rewrite length_app, Nat2Z.inj_add. cbn [length].
  replace (Z.of_nat (length l) + Z.of_nat 1 - 1) with (Z.of_nat (length l)) by lia.
  rewrite wrap_small by lia. unfold at_index. rewrite Nat2Z.id.
  by rewrite nth_middle.
Qed.

(** The block [allocate] adds on growth always has room for the request. *)
Lemma alloc_from_added_block st h raw n :
  length (blocks st) = length (block_elems st) →
  size (blocks st) ≤ SIZE_MAX →
  0 ≤ n →
  ∃ q st', alloc_from_current n
             (with_block st raw (Z.max n (chunk_elems st)), h) = Ret q (st', h).
Proof.
  intros Hlen Hsize Hn. unfold alloc_from_current.
  assert (current_block_has n (with_block st raw (Z.max n (chunk_elems st))) = true)
    as ->; [|by eexists _, _].
  unfold current_block_has, with_block.
  cbn [blocks block_elems current_offset current_block_index].
  destruct (blocks st ++ [raw]) as [|b bs] eqn:Happ.
  { by destruct (blocks st). }
  rewrite <- Happ.
  replace (size (blocks st ++ [raw])) with (size (block_elems st ++ [Z.max n (chunk_elems st)])).
  2:{ unfold size. by rewrite !length_app, Hlen. }
  rewrite at_index_last.
  2:{ unfold size in *. lia. }
  apply Z.leb_le. rewrite Z.add_0_l. pose proof (wrap_le n Hn). lia.
Qed.

Lemma pop_free_no_null st :
  nullptr ∉ free_list st →
  fst (pop_free st) = nullptr → pop_free st = (nullptr, st).
Proof.
  intros Hnull. unfold pop_free.
  destruct (free_list st) as [|x l] eqn:Hfl; [done|].
  cbn [fst]. intros Hlast. exfalso. apply Hnull.
  rewrite <- Hlast. destruct (exists_last (l := x :: l)) as (l' & y & ->); [done|].
  rewrite last_last. apply elem_of_app. right. by apply list_elem_of_singleton.
Qed.

Lemma allocate_in_throw_inv p n st h e st' h' :
  library_never_fails Heap →
  length (blocks st) = length (block_elems st) →
  size (blocks st) ≤ SIZE_MAX →
  nullptr ∉ free_list st →
  0 ≤ n →
  allocate_in p n (st, h) = Throw e (st', h') →
  st' = st.
Proof.
  intros Hlib Hlen Hsize Hnull Hn. unfold allocate_in.
  destruct (Z.eqb_spec n 0) as [|Hn0]; [done|].
  destruct (max_size p <? n); [by intros [= _ <- _]|].
  unfold bind at 1. unfold get_pool at 1. cbn [fst].
  destruct (negb (Expandable p) && (chunk_elems st <? n)); [by intros [= _ <- _]|].
  unfold bind at 1.
  assert (∀ q st1,
    (q ≠ nullptr ∨ st1 = st) →
    (if negb (q =? nullptr) then ret q
     else do st0 <- get_pool;
          if current_block_has n st0 then alloc_from_current n
          else if negb (Expandable p) then throw bad_alloc
          else (add_block (Z.max n (chunk_elems st0));; alloc_from_current n))
      (st1, h) = Throw e (st', h') → st' = st) as Hrest.
  { intros q st1 Hq.
    destruct (Z.eqb_spec q nullptr) as [->|Hne]; [|done].
    destruct Hq as [Hq | ->]; [done|]. cbn [negb].
    unfold bind at 1. unfold get_pool. cbn [fst].
    destruct (current_block_has n st) eqn:Hhas.
    { unfold alloc_from_current. rewrite Hhas. done. }
    destruct (negb (Expandable p)); [by intros [= _ <- _]|].
    unfold bind.
    destruct (add_block _ (st, h)) as [[] [st2 h2]|e2 [st2 h2]] eqn:Hadd.
    - apply add_block_ret_inv in Hadd as [(Hz & _) | (_ & raw & _ & ->)].
      { lia. }
      destruct (alloc_from_added_block st h2 raw n) as (q' & st3 & ->); done.
    - apply (add_block_throw_served _ _ _ _ _ _ Hlib) in Hadd as (_ & ->).
      by intros [= _ <- _]. }
  destruct (PerElementFree p && (n =? 1)).
  - unfold pop_free_of_pool.
    destruct (pop_free st) as [q st1] eqn:Hpop.
    apply Hrest. destruct (Z.eq_dec q nullptr) as [-> | ?]; [right|by left].
    pose proof (pop_free_no_null st Hnull) as Hpop'. rewrite Hpop in Hpop'.
    by injection (Hpop' eq_refl).
  - unfold ret at 1. apply Hrest. by right.
Qed.

End Growth.

(** While the library serves its requests, every throw of [add_block],
    [reserve_elements] and [allocate] leaves the pool exactly as it was
    before the call: blocks, capacities, cursor, offset and free list. *)
Lemma failed_growth_keeps_pool
    {Heap : Type} `{!SystemAllocator Heap}
    (p : Policy) (n : Z) (st st' : PoolState) (h h' : Heap) (e : exn) :
  library_never_fails Heap →
  length (blocks st) = length (block_elems st) →
  size (blocks st) ≤ SIZE_MAX →
  nullptr ∉ free_list st →
  0 ≤ n →
  add_block n (st, h) = Throw e (st', h')
  ∨ reserve_elements n (st, h) = Throw e (st', h')
  ∨ allocate_in p n (st, h) = Throw e (st', h') →
  st' = st.
Proof.
  intros Hlib Hlen Hsize Hnull Hn [Hadd | [Hres | Hall]].
  - by apply (add_block_throw_served _ _ _ _ _ _ Hlib) in Hadd as (_ & ->).
  - destruct (reserve_elements_cases st h n) as [Hret | (need & _ & Hgrow)].
    + by rewrite Hret in Hres.
    + rewrite Hgrow in Hres.
      by apply (add_block_throw_served _ _ _ _ _ _ Hlib) in Hres as (_ & ->).
  - by eapply allocate_in_throw_inv.
Qed.

(** C8: growth can fail half-way.  [add_block] records a new block with
    two [push_back]s, [blocks.push_back(raw)] and then
    [block_elems.push_back(elems)], and either may throw [std::bad_alloc].
    On a [CustomAllocator<int, 10>] whose block is used up, with a system
    heap that still has the forty bytes of a block and serves one more
    request of the library, [allocate(1)] and [reserve_elements(1)] throw
    from the second [push_back]: the pool is left with the new block in
    [blocks] and no capacity for it in [block_elems]. *)
Theorem failed_growth_leaves_partial_block :
  let w := world_of_pool full_int_pool nearly_exhausted_heap in
  let st' := blocks_pushed 4136 full_int_pool in
  let w' := world_of_pool st' (LimitedHeap 4176%positive 0 0) in
  allocate int_policy first_allocator 1 w = Throw bad_alloc w'
  ∧ reserve first_allocator 1 w = Throw bad_alloc w'
  ∧ pool_of w first_allocator = Some full_int_pool
  ∧ pool_of w' first_allocator = Some st'
  ∧ st' ≠ full_int_pool
  ∧ blocks st' = [4096; 4136]
  ∧ block_elems st' = [10].
Proof. cbv zeta. repeat split; by vm_compute. Qed.

(** ** One pool per front end family *)

Section Independence.
Context {Heap : Type} `{!SystemAllocator Heap}.
Implicit Types (w : World Heap) (a b : CustomAllocator) (st : PoolState).

(** Pool code run at one place leaves the handles and every other place
    alone. *)
Lemma on_pool_frame {A} w sl (c : PoolM Heap A) :
  handles (state_of (on_pool sl c w)) = handles w
  ∧ ∀ sl', sl' ≠ sl → pools (state_of (on_pool sl c w)) !! sl' = pools w !! sl'.
Proof.
  unfold on_pool. destruct (pools w !! sl) as [st|]; [|done].
  destruct (c (st, heap w)) as [x [st' h']|e [st' h']]; cbn;
    (split; [done|]); intros sl' Hne; by apply list_lookup_insert_ne.
Qed.

Lemma perform_frame p a w c :
  handles (perform p a w c) = handles w
  ∧ ∀ sl', get_state w a ≠ Some sl' →
           pools (perform p a w c) !! sl' = pools w !! sl'.
Proof.
  destruct c as [n|ptr n|count]; cbn [perform].
  - unfold allocate. destruct (get_state w a) as [sl|]; [|done].
    destruct (on_pool_frame w sl (allocate_in p n)) as [Hh Hp].
    split; [done|]. intros sl' Hne. apply Hp. congruence.
  - unfold deallocate. destruct (ptr =? nullptr); [done|].
    destruct (get_state w a) as [sl|]; [|done].
    destruct (on_pool_frame w sl (deallocate_in p ptr n)) as [Hh Hp].
    split; [done|]. intros sl' Hne. apply Hp. congruence.
  - unfold reserve. destruct (get_state w a) as [sl|]; [|done].
    destruct (on_pool_frame w sl (reserve_elements count)) as [Hh Hp].
    split; [done|]. intros sl' Hne. apply Hp. congruence.
Qed.

(** Whatever is called on [a], a front end [b] that reaches another pool
    finds it as it was. *)
Lemma perform_all_other_pool p a b w cs sl sl' :
  get_state w a = Some sl →
  get_state w b = Some sl' →
  sl ≠ sl' →
  pool_of (foldl (perform p a) w cs) b = pool_of w b.
Proof.
  revert w. induction cs as [|c cs IH]; intros w Ha Hb Hne; [done|].
  cbn [foldl]. destruct (perform_frame p a w c) as [Hh Hp].
  rewrite IH.
  - unfold pool_of. rewrite (get_state_handles w) by done. rewrite Hb.
    apply Hp. congruence.
  - by rewrite (get_state_handles w).
  - by rewrite (get_state_handles w).
  - done.
Qed.

Lemma make_shared_PoolHandle_granted p w raw h' :
  ChunkElems p ≠ 0 →
  pool_served (heap w) (wrap (ChunkElems p * sizeof_T p)) raw h' →
  make_shared_PoolHandle (sizeof_T p) (ChunkElems p) w
  = Ret (length (handles w))
        (mkWorld (pools w ++ [initial_pool p raw])
                 (handles w ++ [mkPoolHandle (Some (length (pools w)))]) h').
Proof.
  intros Hchunk (h1 & h2 & Hhandle & Hpool & Hblock).
  unfold make_shared_PoolHandle, bind, make_shared_PoolState, bind,
    make_shared_storage, PoolState_ctor.
  rewrite Hhandle. cbn [heap]. rewrite Hpool. cbn [heap pools handles].
  destruct (Z.eqb_spec (ChunkElems p) 0) as [|_]; [done|].
  erewrite add_block_granted; [reflexivity|done..].
Qed.

End Independence.

(** Built from a front end that has a valid pool, the new front end gets a
    pool of its own -- one fresh block of [ChunkElems] elements, nothing
    used, nothing on the free list -- at a place other than the source's.
    The source's pool is untouched, and no sequence of calls on either
    front end changes the pool of the other. *)
Lemma converted_allocator_gets_own_pool
    {Heap : Type} `{!SystemAllocator Heap}
    (p : Policy) (other : CustomAllocator) (w : World Heap)
    (st : PoolState) (raw : pointer) (h' : Heap) :
  pool_of w other = Some st →
  ChunkElems p ≠ 0 →
  pool_served (heap w) (wrap (ChunkElems p * sizeof_T p)) raw h' →
  ∃ (a : CustomAllocator) (w' : World Heap) (sl sl' : nat),
    CustomAllocator_convert p other w = Some (a, w')
    ∧ get_state w' other = Some sl
    ∧ get_state w' a = Some sl'
    ∧ sl' ≠ sl
    ∧ pool_of w' other = Some st
    ∧ pool_of w' a = Some (initial_pool p raw)
    ∧ (∀ q cs, pool_of (foldl (perform q a) w' cs) other = Some st)
    ∧ (∀ q cs, pool_of (foldl (perform q other) w' cs) a
               = Some (initial_pool p raw)).
Proof.
  intros Hst Hchunk Hserved.
  destruct (pool_of_inv _ _ _ Hst) as (sl & Hsl & Hpool).
  pose proof (lookup_lt_Some _ _ _ Hpool) as Hlt.
  assert (∃ hl, handle_ other = Some hl
                ∧ handles w !! hl = Some (mkPoolHandle (Some sl))) as (hl & Hhl & Hhd).
  { unfold get_state in Hsl. destruct (handle_ other) as [hl|]; [|done].
    exists hl. split; [done|].
    destruct (handles w !! hl) as [[s]|]; [|done].
    unfold PoolHandle_valid, PoolHandle_get_state in Hsl. cbn in Hsl.
    destruct s; [|done]. by rewrite <- Hsl. }
  set (w' := mkWorld (pools w ++ [initial_pool p raw])
                     (handles w ++ [mkPoolHandle (Some (length (pools w)))]) h').
  set (a := mkCustomAllocator (Some (length (handles w)))).
  assert (get_state w' other = Some sl) as Hsl'.
  { unfold get_state. rewrite Hhl. cbn [handles w'].
    rewrite lookup_app_l by (by eapply lookup_lt_Some). by rewrite Hhd. }
  assert (get_state w' a = Some (length (pools w))) as Ha.
  { unfold get_state. cbn [handle_ a handles w'].
    by rewrite list_lookup_middle. }
  assert (pool_of w' other = Some st) as Hother.
  { unfold pool_of. rewrite Hsl'. cbn [pools w']. by rewrite lookup_app_l. }
  assert (pool_of w' a = Some (initial_pool p raw)) as Hown.
  { unfold pool_of. rewrite Ha. cbn [pools w']. by rewrite list_lookup_middle. }
  exists a, w', sl, (length (pools w)).
  split.
  { unfold CustomAllocator_convert, get_handle. rewrite Hhl.
    unfold bind. by rewrite (make_shared_PoolHandle_granted p w raw h'). }
  do 2 (split; [done|]). split; [lia|]. do 2 (split; [done|]).
  split; intros q cs.
  - rewrite <- Hother. by apply (perform_all_other_pool q a other w' cs (length (pools w)) sl); [..|lia].
  - rewrite <- Hown. by apply (perform_all_other_pool q other a w' cs sl (length (pools w))); [..|lia].
Qed.

(** C9: a [CustomAllocator<char, 10>] built from a fresh
    [CustomAllocator<int, 10>] gets a pool of its own, one block of ten
    [char]s that the system allocator placed after the forty bytes of the
    source's block, and the source's pool is untouched.  But the two cannot
    be compared: [operator==] and [operator!=] between them compare a
    [PoolState<char>*] with a [PoolState<int>*] and have no instance,
    whereas two front ends over one element type do compare, a copy being
    equal to its source. *)
Theorem converted_allocators_do_not_compare :
  let w := world_of_pool fresh_int_pool 4136%positive in
  let a := mkCustomAllocator (Some 1%nat) in
  let w' := mkWorld [fresh_int_pool; initial_pool char_policy 4136]
                    [mkPoolHandle (Some 0%nat); mkPoolHandle (Some 1%nat)]
                    4146%positive in
  CustomAllocator_convert char_policy first_allocator w = Some (a, w')
  ∧ pool_of w' first_allocator = Some fresh_int_pool
  ∧ pool_of w' a = Some (initial_pool char_policy 4136)
  ∧ get_state w' a ≠ get_state w' first_allocator
  ∧ blocks fresh_int_pool = [4096]
  ∧ 4096 + 10 * sizeof_T int_policy ≤ 4136
  ∧ blocks (initial_pool char_policy 4136) = [4136]
  ∧ operator_eq char_policy int_policy w' a first_allocator = None
  ∧ operator_neq char_policy int_policy w' a first_allocator = None
  ∧ operator_eq int_policy int_policy w'
                (CustomAllocator_copy first_allocator) first_allocator
    = Some true.
Proof. cbv zeta. repeat split; by vm_compute. Qed.

(** ** Growth under single-element allocation *)

Section Singles.
Context {Heap : Type} `{!SystemAllocator Heap}.
Implicit Types (w : World Heap) (a : CustomAllocator) (st : PoolState) (h : Heap).

Lemma at_index_all_eq (l : list Z) (g i : Z) :
  Forall (λ c, c = g) l → 0 ≤ i < size l → at_index l i = g.
Proof.
  intros Hall Hi. unfold at_index, size in *.
  destruct (lookup_lt_is_Some_2 l (Z.to_nat i)) as [x Hx]; [lia|].
  rewrite (nth_lookup_Some _ _ _ _ Hx).
  by apply (proj1 (Forall_lookup _ l) Hall (Z.to_nat i) x).
Qed.

Lemma current_block_has_eq n st :
  blocks st ≠ [] →
  current_block_has n st
  = (wrap (current_offset st + n)
     <=? at_index (block_elems st) (current_block_index st)).
Proof. unfold current_block_has. by destruct (blocks st). Qed.

Lemma pop_free_empty st : free_list st = [] → pop_free st = (nullptr, st).
Proof. intros Hfl. unfold pop_free. by rewrite Hfl. Qed.

(** One more [allocate(1)]: it returns, and the invariant moves on. *)
Lemma allocate_in_single p j st h :
  Expandable p = true →
  1 ≤ ChunkElems p ≤ SIZE_MAX →
  1 ≤ max_size p →
  never_exhausted Heap →
  0 ≤ j →
  singles_inv p j st →
  ∃ q st' h', allocate_in p 1 (st, h) = Ret q (st', h')
              ∧ singles_inv p (j + 1) st'.
Proof.
  intros Hexp Hchunk Hmax Hgrant Hj
    ([Hc Hes] & Hlen & Hidx & Hall & Hoff & Hfl & Hcount & Hblocks).
  assert (at_index (block_elems st) (current_block_index st) = ChunkElems p) as Hcap.
  { apply at_index_all_eq; [done|]. unfold size in *. lia. }
  assert (∃ q st' h',
    (do st0 <- get_pool;
     if current_block_has 1 st0 then alloc_from_current 1
     else (add_block (Z.max 1 (chunk_elems st0)) ;; alloc_from_current 1))
      (st, h) = Ret q (st', h')
    ∧ singles_inv p (j + 1) st') as Hbump; last first.
  { unfold allocate_in. change (1 =? 0) with false. cbv iota.
    destruct (Z.ltb_spec (max_size p) 1) as [|_]; [lia|].
    unfold bind at 1. unfold get_pool at 1. cbn [fst].
    rewrite Hexp. cbn [negb andb]. unfold bind at 1.
    destruct (PerElementFree p); cbn [andb].
    - change (1 =? 1) with true. cbv iota.
      unfold pop_free_of_pool. rewrite pop_free_empty by done. exact Hbump.
    - exact Hbump. }
  unfold bind at 1. unfold get_pool at 1. cbn [fst].
  destruct (current_block_has 1 st) eqn:Hhas.
  - (* room in the current block *)
    unfold alloc_from_current. rewrite Hhas. cbn [negb].
    eexists _, _, _. split; [reflexivity|].
    unfold current_block_has in Hhas.
    destruct (blocks st) as [|b bs] eqn:Hbs; [done|]. rewrite <- Hbs in *.
    rewrite Hcap in Hhas. apply Z.leb_le in Hhas.
    pose proof (wrap_range (current_offset st + 1)) as Hr.
    pose proof (wrap_le (current_offset st + 1)) as Hle.
    unfold singles_inv, built_by. cbn.
    repeat split; try done; lia.
  - (* growth *)
    assert (current_offset st = ChunkElems p) as Hfull.
    { unfold current_block_has in Hhas.
      destruct (blocks st) as [|b bs] eqn:Hbs.
      { unfold size in Hidx. cbn in Hidx. lia. }
      rewrite Hcap in Hhas. apply Z.leb_gt in Hhas.
      destruct (Z.le_gt_cases (current_offset st + 1) SIZE_MAX) as [Hsmall|Hbig].
      - rewrite wrap_small in Hhas by lia. lia.
      - assert (current_offset st = SIZE_MAX) as Hmaxed by lia.
        rewrite Hmaxed in Hhas. vm_compute in Hhas. lia. }
    rewrite Hc. replace (Z.max 1 (ChunkElems p)) with (ChunkElems p) by lia.
    destruct (never_exhausted_serves_block h (wrap (ChunkElems p * element_size st))
                Hgrant) as (raw & h1 & Hserved).
    unfold bind. rewrite (add_block_granted st h _ raw h1) by (done || lia).
    pose proof (wrap_range (size (blocks st ++ [raw]) - 1)) as Hr.
    assert (size (blocks st ++ [raw]) = size (blocks st) + 1) as Hsize.
    { unfold size. rewrite length_app. cbn [length]. lia. }
    assert (0 ≤ size (blocks st)) as Hnonneg by (unfold size; lia).
    pose proof (wrap_le (size (blocks st ++ [raw]) - 1)) as Hle.
    assert (Forall (λ c, c = ChunkElems p) (block_elems st ++ [ChunkElems p])) as Hall'.
    { apply Forall_app. split; [done|]. by apply Forall_singleton. }
    assert (current_block_has 1 (with_block st raw (ChunkElems p)) = true) as Hhas'.
    { rewrite current_block_has_eq.
      2:{ unfold with_block. cbn [blocks]. by destruct (blocks st). }
      unfold with_block.
      cbn [blocks block_elems current_offset current_block_index].
      rewrite (at_index_all_eq _ (ChunkElems p)); [|done|].
      - apply Z.leb_le. change (wrap (0 + 1)) with 1. lia.
      - unfold size in *. rewrite !length_app in *. cbn [length] in *. lia. }
    unfold alloc_from_current. rewrite Hhas'. cbn [negb].
    eexists _, _, _. split; [reflexivity|].
    unfold singles_inv, built_by, with_block. cbn.
    change (wrap (0 + 1)) with 1.
    fold (size (blocks st ++ [raw])). rewrite !Hsize. rewrite Hsize in Hr, Hle.
    repeat split; try done; try lia; try nia.
    by rewrite !length_app, Hlen.
Qed.

(** A returning call of the front end, seen from its pool. *)
Lemma allocate_ret_pool p a n w st q st' h' :
  pool_of w a = Some st →
  allocate_in p n (st, heap w) = Ret q (st', h') →
  ∃ w', allocate p a n w = Ret q w' ∧ pool_of w' a = Some st' ∧ heap w' = h'.
Proof.
  intros Hst Hrun. destruct (pool_of_inv _ _ _ Hst) as (sl & Hsl & Hpool).
  eexists. unfold allocate. rewrite Hsl.
  split; [by eapply on_pool_ret|]. split; [|done].
  unfold pool_of. rewrite (get_state_handles w) by done. rewrite Hsl.
  cbn [pools]. apply list_lookup_insert_eq. by eapply lookup_lt_Some.
Qed.

Lemma allocate_many_singles p a k :
  Expandable p = true →
  1 ≤ ChunkElems p ≤ SIZE_MAX →
  1 ≤ max_size p →
  never_exhausted Heap →
  ∀ w j st,
    0 ≤ j →
    pool_of w a = Some st →
    singles_inv p j st →
    ∃ ptrs w' st',
      allocate_many p a 1 k w = Ret ptrs w'
      ∧ length ptrs = k
      ∧ pool_of w' a = Some st'
      ∧ singles_inv p (j + Z.of_nat k) st'.
Proof.
  intros Hexp Hchunk Hmax Hgrant.
  induction k as [|k IH]; intros w j st Hj Hst Hinv.
  { exists [], w, st. rewrite Z.add_0_r. done. }
  destruct (allocate_in_single p j st (heap w)) as (q & st1 & h1 & Hrun & Hinv1);
    [done..|].
  destruct (allocate_ret_pool p a 1 w st q st1 h1 Hst Hrun) as (w1 & Hcall & Hst1 & _).
  destruct (IH w1 (j + 1) st1) as (ptrs & w' & st' & Hrest & Hlen & Hst' & Hinv');
    [lia|done..|].
  exists (q :: ptrs), w', st'.
  cbn [allocate_many]. unfold bind. rewrite Hcall, Hrest.
  split; [done|]. split; [by rewrite length_cons, Hlen|]. split; [done|].
  by replace (j + Z.of_nat (S k)) with (j + 1 + Z.of_nat k) by lia.
Qed.

Lemma initial_pool_singles p raw :
  1 ≤ ChunkElems p → singles_inv p 0 (initial_pool p raw).
Proof.
  intros Hchunk. unfold singles_inv, built_by, initial_pool, size. cbn.
  repeat split; try done; try lia.
  by apply Forall_singleton.
Qed.

Lemma singles_inv_blocks p k st :
  1 ≤ ChunkElems p →
  1 ≤ k →
  singles_inv p k st →
  size (blocks st) ≤ ceil_div k (ChunkElems p)
  ∧ length (block_elems st) = length (blocks st)
  ∧ Forall (λ c, ChunkElems p ≤ c) (block_elems st).
Proof.
  intros Hchunk Hk (_ & Hlen & _ & Hall & _ & _ & _ & Hblocks).
  split; [|split; [done|]].
  - unfold ceil_div. apply Z.div_le_lower_bound; [lia|]. nia.
  - eapply Forall_impl; [exact Hall|]. intros c ->. lia.
Qed.

End Singles.

(** ** Reuse without a free list *)

(** C7: with per-element free disabled, a released slot can come back.  A
    [CustomAllocator<char, 10>] hands out address 4096 and gets it back
    through [deallocate]; [allocate(SIZE_MAX)] then passes the has-room
    check because [1 + SIZE_MAX] wraps to 0, and leaves the bump offset at
    0; the next [allocate(1)] returns 4096 again. *)
Theorem released_slot_handed_out_again :
  let w1 := world_of_pool (initial_pool char_policy 4096) 4106%positive in
  let w2 := world_of_pool one_used_pool 4106%positive in
  PerElementFree char_policy = false
  ∧ SIZE_MAX ≤ max_size char_policy
  ∧ allocate char_policy first_allocator 1 w1 = Ret 4096 w2
  ∧ deallocate char_policy first_allocator 4096 1 w2 = w2
  ∧ allocate char_policy first_allocator SIZE_MAX w2 = Ret 4097 w1
  ∧ allocate char_policy first_allocator 1 w1 = Ret 4096 w2.
Proof. cbv zeta. repeat split; by vm_compute. Qed.

(** ** The cursor stays on a block *)

Section Indexed.
Context {Heap : Type} `{!SystemAllocator Heap}.
Implicit Types (st : PoolState) (h : Heap).

Lemma initial_pool_indexed p raw : pool_indexed (initial_pool p raw).
Proof. unfold pool_indexed, initial_pool, size. cbn. lia. Qed.

Lemma with_block_indexed st raw elems :
  length (blocks st) = length (block_elems st) →
  pool_indexed (with_block st raw elems).
Proof.
  intros Hlen. unfold pool_indexed, with_block.
  cbn [blocks block_elems current_block_index].
  split; [by rewrite !length_app, Hlen|].
  pose proof (wrap_range (size (blocks st ++ [raw]) - 1)) as Hr.
  pose proof (wrap_le (size (blocks st ++ [raw]) - 1)) as Hle.
  unfold size in *. rewrite length_app in *. cbn [length] in *. lia.
Qed.

Lemma add_block_indexed elems st h :
  library_never_fails Heap →
  pool_indexed st → pool_indexed (fst (state_of (add_block elems (st, h)))).
Proof.
  intros Hlib Hidx.
  destruct (add_block elems (st, h)) as [[] [st' h']|e [st' h']] eqn:Hrun.
  - apply add_block_ret_inv in Hrun as [(_ & -> & _) | (_ & raw & _ & ->)];
      [done|]. apply with_block_indexed, Hidx.
  - by apply (add_block_throw_served _ _ _ _ _ _ Hlib) in Hrun as (_ & ->).
Qed.

Lemma alloc_from_current_indexed n st h :
  pool_indexed st →
  pool_indexed (fst (state_of (alloc_from_current n (st, h)))).
Proof.
  intros Hidx. unfold alloc_from_current.
  by destruct (current_block_has n st).
Qed.

Lemma reserve_elements_indexed total st h :
  library_never_fails Heap →
  pool_indexed st →
  pool_indexed (fst (state_of (reserve_elements total (st, h)))).
Proof.
  intros Hlib Hidx.
  destruct (reserve_elements_cases st h total) as [-> | (need & _ & ->)];
    [done|]. by apply add_block_indexed.
Qed.

Lemma pop_free_indexed st :
  pool_indexed st → pool_indexed (snd (pop_free st)).
Proof. intros Hidx. unfold pop_free. by destruct (free_list st). Qed.

Lemma allocate_in_indexed p n st h :
  library_never_fails Heap →
  pool_indexed st →
  pool_indexed (fst (state_of (allocate_in p n (st, h)))).
Proof.
  intros Hlib Hidx. unfold allocate_in.
  destruct (n =? 0); [done|].
  destruct (max_size p <? n); [done|].
  unfold bind at 1. unfold get_pool at 1. cbn [fst].
  destruct (negb (Expandable p) && (chunk_elems st <? n)); [done|].
  unfold bind at 1.
  assert (∀ q st1,
    pool_indexed st1 →
    pool_indexed (fst (state_of
      ((if negb (q =? nullptr) then ret q
        else do st0 <- get_pool;
             if current_block_has n st0 then alloc_from_current n
             else if negb (Expandable p) then throw bad_alloc
             else (add_block (Z.max n (chunk_elems st0));; alloc_from_current n))
         (st1, h))))) as Hrest.
  { intros q st1 Hidx1. destruct (negb (q =? nullptr)); [done|].
    unfold bind at 1. unfold get_pool. cbn [fst].
    destruct (current_block_has n st1); [by apply alloc_from_current_indexed|].
    destruct (negb (Expandable p)); [done|].
    unfold bind.
    pose proof (add_block_indexed (Z.max n (chunk_elems st1)) st1 h Hlib Hidx1)
      as Hadd.
    destruct (add_block _ (st1, h)) as [[] [st2 h2]|e2 [st2 h2]]; [|done].
    by apply alloc_from_current_indexed. }
  destruct (PerElementFree p && (n =? 1)).
  - unfold pop_free_of_pool.
    pose proof (pop_free_indexed st Hidx) as Hpop.
    destruct (pop_free st) as [q st1]. by apply Hrest.
  - unfold ret at 1. by apply Hrest.
Qed.

End Indexed.

(** ** Pointers between the stores *)

Section WorldOk.
Context {Heap : Type} `{!SystemAllocator Heap}.
Implicit Types (w : World Heap) (a : CustomAllocator).

Lemma get_state_pool w a sl :
  world_ok w → get_state w a = Some sl → is_Some (pool_of w a).
Proof.
  intros Hok Hsl. unfold pool_of. rewrite Hsl.
  unfold get_state in Hsl. destruct (handle_ a) as [hl|]; [|done].
  destruct (handles w !! hl) as [[s]|] eqn:Hhd; [|done].
  unfold PoolHandle_valid, PoolHandle_get_state in Hsl. cbn in Hsl.
  destruct s as [sl'|]; [|done]. injection Hsl as ->. by eapply Hok.
Qed.

Lemma on_pool_world_ok {A} w sl (c : PoolM Heap A) :
  world_ok w → world_ok (state_of (on_pool sl c w)).
Proof.
  intros Hok. unfold on_pool. destruct (pools w !! sl) as [st|]; [|done].
  destruct (c (st, heap w)) as [x [st' h']|e [st' h']]; cbn [state_of];
    intros hl sl' Hhd; cbn [pools handles] in *;
    apply lookup_lt_is_Some; rewrite length_insert;
    apply lookup_lt_is_Some; by eapply Hok.
Qed.

Lemma perform_world_ok p a w c : world_ok w → world_ok (perform p a w c).
Proof.
  intros Hok. destruct c as [n|ptr n|count]; cbn [perform].
  - unfold allocate. destruct (get_state w a); [|done]. by apply on_pool_world_ok.
  - unfold deallocate. destruct (ptr =? nullptr); [done|].
    destruct (get_state w a); [|done]. by apply on_pool_world_ok.
  - unfold reserve. destruct (get_state w a); [|done]. by apply on_pool_world_ok.
Qed.

Lemma make_shared_PoolHandle_world_ok sizeof chunk w :
  world_ok w → world_ok (state_of (make_shared_PoolHandle sizeof chunk w)).
Proof.
  intros Hok.
  unfold make_shared_PoolHandle, bind, make_shared_PoolState, bind,
    make_shared_storage.
  destruct (library_new (heap w)) as [h1|]; [|done]. cbn [heap].
  destruct (library_new h1) as [h2|]; [|done]. cbn [heap pools handles].
  destruct (PoolState_ctor sizeof chunk h2) as [[] [st h']|e [st h']];
    cbn [state_of]; intros hl sl Hhd; cbn [pools handles] in *.
  - apply lookup_app_Some in Hhd as [Hold | [_ Hnew]].
    + apply lookup_lt_is_Some. rewrite length_app.
      pose proof (proj1 (lookup_lt_is_Some _ _) (Hok hl sl Hold)). lia.
    + apply list_lookup_singleton_Some in Hnew as [_ [= <-]].
      rewrite list_lookup_middle; done.
  - by eapply Hok.
Qed.

Lemma PoolHandle_reset_world_ok hl w :
  world_ok w → world_ok (PoolHandle_reset hl w).
Proof.
  intros Hok hl' sl Hhd. unfold PoolHandle_reset in *. cbn [pools handles] in *.
  destruct (decide (hl = hl')) as [<-|Hne].
  - destruct (decide (hl < length (handles w))%nat) as [Hlt|Hge].
    + by rewrite list_lookup_insert_eq in Hhd.
    + rewrite list_insert_ge in Hhd by lia. by eapply Hok.
  - rewrite list_lookup_insert_ne in Hhd by done. by eapply Hok.
Qed.

(** A copy reaches the pool of its source: the two compare equal. *)
Lemma copy_compares_equal w a :
  allocator_eq w (CustomAllocator_copy a) a = true.
Proof. unfold allocator_eq. by apply bool_decide_eq_true. Qed.

End WorldOk.

Lemma fresh_world_ok : world_ok fresh_world.
Proof. intros hl sl Hhd. cbn in Hhd. by destruct hl. Qed.

(** ** No reuse where the offset cannot wrap *)

(** With elements at least two bytes wide, [n <= max_size] and a capacity
    that fits [size_type] in bytes keep [current_offset + n] below
    [2^64]: the bump cursor only moves up, within a block and from one
    block of the system heap to the next. *)
Lemma allocate_in_bump_step p n st (h : positive) :
  PerElementFree p = false →
  built_by p st →
  bump_inv st h →
  size (blocks st) ≤ SIZE_MAX →
  0 ≤ n →
  match allocate_in p n (st, h) with
  | Ret q (st', h') =>
      ((n = 0 ∧ q = nullptr ∧ st' = st ∧ h' = h)
       ∨ (n ≠ 0 ∧ bump_top st ≤ q ∧ q < bump_top st'))
      ∧ bump_inv st' h'
      ∧ built_by p st'
      ∧ bump_top st ≤ bump_top st'
      ∧ size (blocks st') ≤ size (blocks st) + 1
  | Throw _ (st', h') => st' = st ∧ h' = h
  end.
Proof.
  intros Hpef [Hc Hes] Hinv Hsize Hn.
  pose proof Hinv as (Hlen & Hidx & Hwide & Hbase0 & Hoff & Hcap & Hchunk0 & Hchunk & Hheap).
  unfold allocate_in.
  destruct (Z.eqb_spec n 0) as [->|Hn0].
  { unfold ret. split; [by left|]. do 2 (split; [done|]). lia. }
  destruct (Z.ltb_spec (max_size p) n) as [|Hmax]; [done|].
  assert (n * element_size st ≤ SIZE_MAX) as Hbytes.
  { rewrite Hes. unfold max_size in Hmax.
    pose proof (Z.mul_div_le SIZE_MAX (sizeof_T p)). nia. }
  unfold bind at 1. unfold get_pool at 1. cbn [fst].
  destruct (negb (Expandable p) && (chunk_elems st <? n)); [done|].
  rewrite Hpef. cbn [andb]. unfold bind at 1. unfold ret at 1.
  change (negb (nullptr =? nullptr)) with false. cbv iota.
  unfold bind at 1. unfold get_pool at 1. cbn [fst].
  assert (blocks st ≠ []) as Hne.
  { intros Hnil. rewrite Hnil in Hidx. unfold size in Hidx. cbn in Hidx. lia. }
  assert (current_offset st + n ≤ SIZE_MAX) as Hnowrap.
  { rewrite SIZE_MAX_eq in *. nia. }
  destruct (current_block_has n st) eqn:Hhas.
  - (* bump within the current block *)
    unfold alloc_from_current. rewrite Hhas. cbn [negb].
    rewrite current_block_has_eq in Hhas by done.
    rewrite wrap_small in Hhas by lia. apply Z.leb_le in Hhas.
    rewrite (wrap_small (current_offset st + n)) by lia.
    rewrite (wrap_small (current_offset st * element_size st)) by nia.
    assert (0 < n * element_size st) as Hpos by nia.
    unfold bump_top, bump_inv, built_by.
    cbn [blocks block_elems current_offset current_block_index element_size
         chunk_elems].
    split; [right; lia|].
    split; [repeat split; try done; lia|]. split; [done|]. split; lia.
  - (* a new block from the system heap *)
    destruct (negb (Expandable p)); [done|].
    set (want := Z.max n (chunk_elems st)).
    assert (1 ≤ want * element_size st ≤ SIZE_MAX) as Hwant.
    { subst want. destruct (Z.max_spec n (chunk_elems st)) as [[? ->]|[? ->]]; nia. }
    pose (raw := (Z.pos h : pointer)).
    assert (raw = Z.pos h) as Hraw by done.
    unfold bind.
    rewrite (add_block_granted st h want raw
               (h + Z.to_pos (want * element_size st))%positive); [|lia|].
    2:{ split; [done|]. eexists _, _. rewrite wrap_small by lia.
        repeat split; reflexivity. }
    assert (at_index (blocks st ++ [raw]) (wrap (size (blocks st ++ [raw]) - 1))
            = raw) as Hbase by (by apply at_index_last).
    assert (at_index (block_elems st ++ [want])
                     (wrap (size (blocks st ++ [raw]) - 1)) = want) as Hcap'.
    { replace (size (blocks st ++ [raw])) with (size (block_elems st ++ [want])).
      - apply at_index_last. unfold size in *. lia.
      - unfold size. by rewrite !length_app, Hlen. }
    assert (current_block_has n (with_block st raw want) = true) as Hhas'.
    { rewrite current_block_has_eq.
      2:{ unfold with_block. cbn [blocks]. by destruct (blocks st). }
      unfold with_block.
      cbn [blocks block_elems current_offset current_block_index].
      rewrite Hcap', Z.add_0_l, wrap_small by lia. apply Z.leb_le. lia. }
    unfold alloc_from_current. rewrite Hhas'. cbn [negb].
    pose proof (with_block_indexed st raw want Hlen) as [Hlen' Hidx'].
    assert (size (blocks st ++ [raw]) = size (blocks st) + 1) as Hsize'.
    { unfold size. rewrite length_app. cbn [length]. lia. }
    assert (0 < n * element_size st) as Hpos by nia.
    assert (current_offset st * element_size st
            ≤ at_index (block_elems st) (current_block_index st) * element_size st)
      as Hused by nia.
    unfold bump_top, bump_inv, built_by, with_block in *.
    cbn [blocks block_elems current_offset current_block_index element_size
         chunk_elems] in *.
    rewrite Hbase, Hcap'. change (wrap (0 * element_size st)) with 0.
    rewrite Z.add_0_l, (wrap_small n) by lia.
    rewrite Pos2Z.inj_add, Z2Pos.id by lia. clear Hraw. subst raw.
    split; [right; lia|].
    split; [repeat split; try done; lia|]. split; [done|]. split; lia.
Qed.

Lemma allocate_trace_above p ns :
  PerElementFree p = false →
  ∀ st (h : positive),
    built_by p st →
    bump_inv st h →
    size (blocks st) + Z.of_nat (length ns) ≤ SIZE_MAX →
    Forall (λ n, 0 ≤ n) ns →
    Forall (λ q, q = nullptr ∨ bump_top st ≤ q) (allocate_trace p ns (st, h)).
Proof.
  intros Hpef. induction ns as [|n ns IH]; intros st h Hbuilt Hinv Hsize Hns.
  { constructor. }
  apply Forall_cons in Hns as [Hn Hns]. cbn [allocate_trace].
  cbn [length] in Hsize.
  pose proof (allocate_in_bump_step p n st h Hpef Hbuilt Hinv) as Hstep.
  destruct (allocate_in p n (st, h)) as [q [st' h']|e [st' h']].
  - destruct Hstep as (Hq & Hinv' & Hbuilt' & Htop & Hsize'); [lia|done|].
    constructor.
    { destruct Hq as [(_ & -> & _) | (_ & Hq & _)]; [by left|by right]. }
    eapply Forall_impl.
    + apply IH; [done|done|lia|done].
    + intros q' [-> | Hq']; [by left|right; lia].
  - destruct Hstep as [-> ->]; [lia|done|]. apply IH; [done..|lia|done].
Qed.

(** With per-element free disabled [deallocate] leaves the pool alone. *)
Lemma deallocate_in_disabled {Heap : Type} p ptr n (s : PoolState * Heap) :
  PerElementFree p = false → deallocate_in p ptr n s = Ret tt s.
Proof. intros Hpef. unfold deallocate_in. by rewrite Hpef. Qed.

(** Where the offset cannot wrap no pointer comes back: what
    [allocate(n0)] handed out is not handed out again by any later series
    of [allocate] calls, the [deallocate] in between changing nothing. *)
Lemma no_reuse_without_wrap p n0 ns st0 (h0 : positive) ptr st h :
  PerElementFree p = false →
  built_by p st0 →
  bump_inv st0 h0 →
  size (blocks st0) + 1 + Z.of_nat (length ns) ≤ SIZE_MAX →
  0 < n0 →
  Forall (λ n, 0 ≤ n) ns →
  allocate_in p n0 (st0, h0) = Ret ptr (st, h) →
  deallocate_in p ptr 1 (st, h) = Ret tt (st, h)
  ∧ ptr ∉ allocate_trace p ns (st, h).
Proof.
  intros Hpef Hbuilt Hinv Hsize Hn0 Hns Hrun.
  split; [by apply deallocate_in_disabled|].
  pose proof (allocate_in_bump_step p n0 st0 h0 Hpef Hbuilt Hinv) as Hstep.
  rewrite Hrun in Hstep.
  destruct Hstep as (Hq & Hinv' & Hbuilt' & Htop & Hsize'); [lia|lia|].
  destruct Hq as [[-> _] | (_ & Hlo & Hbelow)]; [lia|].
  intros Hin.
  pose proof (allocate_trace_above p ns Hpef st h Hbuilt' Hinv'
                ltac:(lia) Hns) as Habove.
  destruct (proj1 (Forall_forall _ _) Habove ptr Hin) as [Hnull | Hge]; [|lia].
  destruct Hinv as (_ & _ & Hwide & Hbase & Hoff & _).
  unfold bump_top in Hlo. unfold nullptr in Hnull. nia.
Qed.

(** The pool of a fresh [CustomAllocator<int, 10>] is such a pool. *)
Lemma fresh_int_pool_bump_inv :
  built_by int_policy fresh_int_pool ∧ bump_inv fresh_int_pool 4136%positive.
Proof.
  unfold built_by, bump_inv. cbn. rewrite SIZE_MAX_eq.
  repeat split; try done; lia.
Qed.

(** * Further properties of the allocator *)

Section AllocateShape.
Context {Heap : Type} `{!SystemAllocator Heap}.
Implicit Types (w : World Heap) (a b : CustomAllocator) (st : PoolState) (h : Heap).

(** [allocate] as one chain of tests, after the free list has been
    consulted: [reused] is what [pop_free] gave (or [nullptr] when the free
    list is not consulted) and [st1] the pool it left. *)
Lemma allocate_in_cases p n st h :
  let consult := PerElementFree p && (n =? 1) in
  let reused := if consult then fst (pop_free st) else nullptr in
  let st1 := if consult then snd (pop_free st) else st in
  allocate_in p n (st, h)
  = if n =? 0 then Ret nullptr (st, h)
    else if max_size p <? n then Throw bad_array_new_length (st, h)
    else if negb (Expandable p) && (chunk_elems st <? n) then Throw bad_alloc (st, h)
    else if negb (reused =? nullptr) then Ret reused (st1, h)
    else if current_block_has n st1 then alloc_from_current n (st1, h)
    else if negb (Expandable p) then Throw bad_alloc (st1, h)
    else (add_block (Z.max n (chunk_elems st1)) ;; alloc_from_current n) (st1, h).
Proof.
  cbv zeta. unfold allocate_in.
  destruct (n =? 0); [done|].
  destruct (max_size p <? n); [done|].
  unfold bind at 1. unfold get_pool at 1. cbn [fst].
  destruct (negb (Expandable p) && (chunk_elems st <? n)); [done|].
  unfold bind at 1.
  destruct (PerElementFree p && (n =? 1)).
  - unfold pop_free_of_pool. destruct (pop_free st) as [q st1]. cbn [fst snd].
    destruct (negb (q =? nullptr)); [done|].
    unfold bind at 1. unfold get_pool. cbn [fst].
    destruct (current_block_has n st1); [done|].
    by destruct (negb (Expandable p)).
  - unfold ret at 1. destruct (negb (nullptr =? nullptr)); [done|].
    unfold bind at 1. unfold get_pool. cbn [fst].
    destruct (current_block_has n st); [done|].
    by destruct (negb (Expandable p)).
Qed.

(** A call on a front end with a pool is the call on that pool. *)
Lemma perform_pool_of p a w c st :
  pool_of w a = Some st →
  pool_of (perform p a w c) a = Some (fst (pool_after p c (st, heap w)))
  ∧ heap (perform p a w c) = snd (pool_after p c (st, heap w)).
Proof.
  intros Hst. destruct (pool_of_inv _ _ _ Hst) as (sl & Hsl & Hpool).
  pose proof (lookup_lt_Some _ _ _ Hpool) as Hlt.
  assert (∀ A (m : PoolM Heap A),
    pool_of (state_of (on_pool sl m w)) a = Some (fst (state_of (m (st, heap w))))
    ∧ heap (state_of (on_pool sl m w)) = snd (state_of (m (st, heap w)))) as Hon.
  { intros A m. unfold on_pool. rewrite Hpool.
    destruct (m (st, heap w)) as [x [st' h']|e [st' h']]; cbn [state_of fst snd heap];
      (split; [|done]); unfold pool_of;
      rewrite (get_state_handles w) by done; rewrite Hsl; cbn [pools];
      by apply list_lookup_insert_eq. }
  destruct c as [n|ptr n|count]; cbn [perform pool_after].
  - unfold allocate. rewrite Hsl. apply Hon.
  - unfold deallocate. destruct (ptr =? nullptr); [done|]. rewrite Hsl. apply Hon.
  - unfold reserve. rewrite Hsl. apply Hon.
Qed.

End AllocateShape.

(** ** Construction *)

(** X1: the default constructor, when [ChunkElems] is positive and its
    requests are served -- the two of [make_shared], the first block and
    the two [push_back]s that record it -- gives a front end whose pool
    holds exactly one block of [ChunkElems] elements, with nothing used and
    nothing on the free list; every front end that had a pool keeps it
    unchanged and compares unequal to the new one. *)
Theorem new_allocator_owns_one_block
    {Heap : Type} `{!SystemAllocator Heap}
    (p : Policy) (w : World Heap) (raw : pointer) (h' : Heap) :
  ChunkElems p ≠ 0 →
  pool_served (heap w) (wrap (ChunkElems p * sizeof_T p)) raw h' →
  ∃ (a : CustomAllocator) (w' : World Heap),
    CustomAllocator_new p w = Some (a, w')
    ∧ pool_of w' a = Some (initial_pool p raw)
    ∧ heap w' = h'
    ∧ ∀ b st, pool_of w b = Some st →
              pool_of w' b = Some st ∧ allocator_eq w' a b = false.
Proof.
  intros Hchunk Hserved.
  set (a := mkCustomAllocator (Some (length (handles w)))).
  set (w' := mkWorld (pools w ++ [initial_pool p raw])
                     (handles w ++ [mkPoolHandle (Some (length (pools w)))]) h').
  assert (get_state w' a = Some (length (pools w))) as Ha.
  { unfold get_state. cbn [handle_ a handles w']. by rewrite list_lookup_middle. }
  exists a, w'. split.
  { unfold CustomAllocator_new, bind.
    by rewrite (make_shared_PoolHandle_granted p w raw h'). }
  split.
  { unfold pool_of. rewrite Ha. cbn [pools w']. by rewrite list_lookup_middle. }
  split; [done|]. intros b st Hst.
  destruct (pool_of_inv _ _ _ Hst) as (sl & Hsl & Hpool).
  pose proof (lookup_lt_Some _ _ _ Hpool) as Hlt.
  assert (get_state w' b = Some sl) as Hb.
  { unfold get_state in *. destruct (handle_ b) as [hl|]; [|done].
    cbn [handles w'].
    destruct (handles w !! hl) as [hd|] eqn:Hhd; [|done].
    by rewrite (lookup_app_l_Some _ _ _ _ Hhd). }
  split.
  - unfold pool_of. rewrite Hb. cbn [pools w']. by rewrite lookup_app_l.
  - unfold allocator_eq. rewrite Ha, Hb. apply bool_decide_eq_false.
    intros [= Heq]. lia.
Qed.

Lemma new_allocator_owns_one_block_witness :
  CustomAllocator_new int_policy (world_of_pool one_used_int_pool 4136%positive)
  = Some (mkCustomAllocator (Some 1%nat),
          mkWorld [one_used_int_pool; initial_pool int_policy 4136]
                  [mkPoolHandle (Some 0%nat); mkPoolHandle (Some 1%nat)]
                  4176%positive).
Proof.
  destruct (new_allocator_owns_one_block int_policy
              (world_of_pool one_used_int_pool 4136%positive) 4136 4176%positive)
    as (a & w' & Hnew & _).
  - discriminate.
  - exists 4136%positive, 4136%positive. split; [reflexivity|].
    split; [reflexivity|]. split; [discriminate|].
    exists 4176%positive, 4176%positive. repeat split; reflexivity.
  - reflexivity.
Defined.

(** X2: the [noexcept] default constructor ends the program exactly when
    [ChunkElems] is zero ([invalid_argument] escapes, unless a
    [make_shared] has thrown before) or one of its requests is refused
    ([bad_alloc] escapes): the storage [make_shared] needs for the handle
    or for the pool, the first block, or the growth of [blocks] or
    [block_elems] on the [push_back] that records it. *)
Theorem new_allocator_terminates_iff
    {Heap : Type} `{!SystemAllocator Heap} (p : Policy) (w : World Heap) :
  CustomAllocator_new p w = None
  ↔ ChunkElems p = 0
    ∨ ¬ ∃ raw h',
          pool_served (heap w) (wrap (ChunkElems p * sizeof_T p)) raw h'.
Proof.
  split.
  - intros Hnone. destruct (Z.eq_dec (ChunkElems p) 0) as [|Hchunk]; [by left|].
    right. intros (raw & h' & Hserved).
    unfold CustomAllocator_new, bind in Hnone.
    by rewrite (make_shared_PoolHandle_granted p w raw h') in Hnone.
  - unfold CustomAllocator_new, bind, make_shared_PoolHandle, bind,
      make_shared_PoolState, bind, make_shared_storage, PoolState_ctor.
    intros Hcase.
    destruct (library_new (heap w)) as [h1|] eqn:Hhandle; [|done]. cbn [heap].
    destruct (library_new h1) as [h2|] eqn:Hpool; [|done].
    cbn [heap pools handles].
    destruct (Z.eqb_spec (ChunkElems p) 0) as [|Hchunk]; [done|].
    destruct Hcase as [|Hrefused]; [done|].
    destruct (add_block (ChunkElems p) _) as [[] [st h3]|e [st h3]] eqn:Hadd;
      [|done].
    exfalso. apply Hrefused.
    apply add_block_ret_inv in Hadd as [(Hz & _) | (_ & raw & Hblock & _)]; [done|].
    cbn [element_size] in Hblock. exists raw, h3. by exists h1, h2.
Qed.

(** ** Edge cases of the calls *)

Section EdgeCases.
Context {Heap : Type} `{!SystemAllocator Heap}.
Implicit Types (w : World Heap) (a b : CustomAllocator) (st : PoolState).

Lemma on_pool_ret_any {A} w sl (m : PoolM Heap A) x :
  (∀ st, m (st, heap w) = Ret x (st, heap w)) →
  state_of (on_pool sl m w) = w.
Proof.
  intros Hm. unfold on_pool. destruct (pools w !! sl) as [st|] eqn:Hsl; [|done].
  rewrite Hm. cbn [state_of]. by apply world_insert_same.
Qed.

End EdgeCases.

(** X3: [allocate(0)] on a front end with a pool returns [nullptr] and
    changes nothing: not the bump offset, not the blocks, not the free
    list, not the system heap. *)
Theorem allocate_zero_is_null
    {Heap : Type} `{!SystemAllocator Heap}
    (p : Policy) (a : CustomAllocator) (w : World Heap) :
  is_Some (pool_of w a) →
  allocate p a 0 w = Ret nullptr w.
Proof.
  intros [st Hst]. destruct (pool_of_inv _ _ _ Hst) as (sl & Hsl & Hpool).
  unfold allocate. rewrite Hsl. by eapply on_pool_ret_same.
Qed.

Lemma allocate_zero_is_null_witness :
  allocate recycling_int_policy first_allocator 0
           (world_of_pool full_int_pool 4136%positive)
  = Ret nullptr (world_of_pool full_int_pool 4136%positive).
Proof.
  apply (allocate_zero_is_null recycling_int_policy first_allocator
           (world_of_pool full_int_pool 4136%positive)).
  by exists full_int_pool.
Defined.

(** X4: [deallocate(ptr, n)] changes nothing at all when [ptr] is null,
    when per-element free is disabled, or when [n] is not 1: ranges are
    never taken back. *)
Theorem deallocate_is_noop
    {Heap : Type} `{!SystemAllocator Heap}
    (p : Policy) (a : CustomAllocator) (ptr : pointer) (n : Z) (w : World Heap) :
  ptr = nullptr ∨ PerElementFree p = false ∨ n ≠ 1 →
  deallocate p a ptr n w = w.
Proof.
  intros Hcase. unfold deallocate.
  destruct (Z.eqb_spec ptr nullptr) as [|Hptr]; [done|].
  destruct (get_state w a) as [sl|]; [|done].
  apply (on_pool_ret_any w sl (deallocate_in p ptr n) tt).
  intros st. unfold deallocate_in.
  destruct Hcase as [|[-> | Hn]]; [done|done|].
  destruct (Z.eqb_spec n 1) as [|_]; [done|]. by rewrite andb_false_r.
Qed.

Lemma deallocate_is_noop_witness :
  deallocate recycling_int_policy first_allocator 4096 4
             (world_of_pool one_used_int_pool 4136%positive)
  = world_of_pool one_used_int_pool 4136%positive.
Proof.
  apply (deallocate_is_noop recycling_int_policy first_allocator 4096 4).
  right. right. discriminate.
Defined.

(** X13: a front end without a pool compares equal to exactly the front
    ends without a pool: two moved-from front ends are equal, and neither
    equals a front end that has a pool. *)
Theorem unusable_allocators_compare_equal
    {Heap : Type} `{!SystemAllocator Heap}
    (a b : CustomAllocator) (w : World Heap) :
  unusable w a →
  allocator_eq w a b = true ↔ get_state w b = None.
Proof.
  intros Ha%unusable_get_state. unfold allocator_eq. rewrite Ha.
  rewrite bool_decide_eq_true. split; intros Heq; by rewrite Heq.
Qed.

Lemma unusable_allocators_compare_equal_witness :
  allocator_eq (world_of_pool fresh_int_pool 4136%positive)
               (snd (CustomAllocator_move first_allocator))
               (mkCustomAllocator None) = true.
Proof.
  apply (unusable_allocators_compare_equal
           (snd (CustomAllocator_move first_allocator)) (mkCustomAllocator None)
           (world_of_pool fresh_int_pool 4136%positive)).
  - left. reflexivity.
  - reflexivity.
Defined.

(** ** The free list across calls and front ends *)

Section Recycle.
Context {Heap : Type} `{!SystemAllocator Heap}.
Implicit Types (w : World Heap) (a b : CustomAllocator) (st : PoolState).




End Recycle.





(** X7: front ends that compare unequal never touch each other's pool:
    whatever is called on one, in any number and order, the pool of the
    other stays as it was, and the two stay unequal. *)
Theorem unequal_allocators_do_not_interfere
    {Heap : Type} `{!SystemAllocator Heap}
    (p : Policy) (a b : CustomAllocator) (cs : list call) (w : World Heap) :
  allocator_eq w a b = false →
  pool_of (foldl (perform p a) w cs) b = pool_of w b
  ∧ allocator_eq (foldl (perform p a) w cs) a b = false.
Proof.
  revert w. induction cs as [|c cs IH]; intros w Hneq; [done|].
  cbn [foldl]. destruct (perform_frame p a w c) as [Hh Hp].
  assert (allocator_eq (perform p a w c) a b = false) as Hneq'.
  { unfold allocator_eq in *.
    by rewrite (get_state_handles w _ a), (get_state_handles w _ b). }
  destruct (IH _ Hneq') as [-> ->]. split; [|done].
  unfold pool_of. rewrite (get_state_handles w) by done.
  destruct (get_state w b) as [sl'|] eqn:Hb; [|done].
  apply Hp. intros Ha. apply bool_decide_eq_false in Hneq. congruence.
Qed.

Lemma unequal_allocators_do_not_interfere_witness :
  pool_of (foldl (perform int_policy (mkCustomAllocator (Some 1%nat)))
             (mkWorld [fresh_int_pool; initial_pool int_policy 4136]
                      [mkPoolHandle (Some 0%nat); mkPoolHandle (Some 1%nat)]
                      4176%positive)
             [Allocate 3; Reserve 40; Deallocate 4136 1])
          first_allocator
  = Some fresh_int_pool.
Proof.
  refine (proj1 (unequal_allocators_do_not_interfere int_policy
                   (mkCustomAllocator (Some 1%nat)) first_allocator
                   [Allocate 3; Reserve 40; Deallocate 4136 1]
                   (mkWorld [fresh_int_pool; initial_pool int_policy 4136]
                            [mkPoolHandle (Some 0%nat); mkPoolHandle (Some 1%nat)]
                            4176%positive) _)).
  reflexivity.
Defined.

(** ** What a non-expandable front end does and does not do *)

Section FixedPool.
Context {Heap : Type} `{!SystemAllocator Heap}.
Implicit Types (w : World Heap) (a : CustomAllocator) (st : PoolState) (h : Heap).



End FixedPool.



(** X9: [reserve_elements] does not look at [Expandable].  On a
    non-expandable front end whose block has no room for [n <= chunk]
    elements, [allocate(n)] throws [bad_alloc]; after [reserve(n)], when
    the requests of [add_block] are served, the pool has one more block of
    chunk size and the same [allocate(n)] returns the start of that
    block. *)
Theorem reserve_grows_fixed_pool
    {Heap : Type} `{!SystemAllocator Heap}
    (p : Policy) (a : CustomAllocator) (n : Z) (w : World Heap)
    (st : PoolState) (raw : pointer) (h' : Heap) :
  Expandable p = false →
  pool_of w a = Some st →
  pool_indexed st →
  size (blocks st) ≤ SIZE_MAX →
  free_list st = [] →
  0 < n ≤ chunk_elems st →
  n ≤ max_size p →
  1 ≤ sizeof_T p →
  current_block_has n st = false →
  wrap (sum_Z (block_elems st) - current_offset st) < n →
  block_served (heap w) (wrap (chunk_elems st * element_size st)) raw h' →
  allocate p a n w = Throw bad_alloc w
  ∧ ∃ w1 w2,
      reserve a n w = Ret tt w1
      ∧ allocate p a n w1 = Ret raw w2
      ∧ pool_of w2 a
        = Some (with_offset (with_block st raw (chunk_elems st)) n).
Proof.
  intros Hfixed Hst Hidx Hsize Hfl Hn Hmax Hsizeof Hhas Hshort Hserved.
  destruct (pool_of_inv _ _ _ Hst) as (sl & Hsl & Hpool).
  pose proof (lookup_lt_Some _ _ _ Hpool) as Hlt.
  pose proof (max_size_bound p Hsizeof) as Hmaxb.
  assert (pop_free st = (nullptr, st)) as Hpop by (by apply pop_free_empty).
  split.
  { unfold allocate. rewrite Hsl. eapply on_pool_throw_same; [done|].
    rewrite allocate_in_cases. cbv zeta. rewrite Hfixed, Hpop. cbn [negb fst snd].
    destruct (Z.eqb_spec n 0) as [|_]; [lia|].
    destruct (Z.ltb_spec (max_size p) n) as [|_]; [lia|].
    destruct (Z.ltb_spec (chunk_elems st) n) as [|_]; [lia|]. cbn [andb].
    assert ((if PerElementFree p && (n =? 1) then nullptr else nullptr) = nullptr)
      as -> by (by destruct (PerElementFree p && (n =? 1))).
    assert ((if PerElementFree p && (n =? 1) then st else st) = st)
      as -> by (by destruct (PerElementFree p && (n =? 1))).
    change (negb (nullptr =? nullptr)) with false. cbv iota. by rewrite Hhas. }
  pose proof (available_sum st Hidx) as Hav. rewrite <- Hav in Hshort.
  pose proof (available_range st) as Havr.
  set (w1 := mkWorld (<[sl := with_block st raw (chunk_elems st)]> (pools w))
                     (handles w) h').
  assert (reserve a n w = Ret tt w1) as Hres.
  { unfold reserve. rewrite Hsl. eapply on_pool_ret; [done|].
    rewrite reserve_elements_short by lia.
    replace (Z.max (chunk_elems st) (n - available st)) with (chunk_elems st) by lia.
    apply add_block_granted; [lia|done]. }
  exists w1. eexists. split; [exact Hres|].
  assert (pools w1 !! sl = Some (with_block st raw (chunk_elems st))) as Hpool1.
  { cbn [pools w1]. by apply list_lookup_insert_eq. }
  assert (allocate_in p n (with_block st raw (chunk_elems st), h')
          = Ret raw (with_offset (with_block st raw (chunk_elems st)) n, h'))
    as Hrun.
  { rewrite allocate_in_cases. cbv zeta. rewrite Hfixed.
    rewrite (pop_free_empty (with_block st raw (chunk_elems st))) by done.
    cbn [negb fst snd].
    destruct (Z.eqb_spec n 0) as [|_]; [lia|].
    destruct (Z.ltb_spec (max_size p) n) as [|_]; [lia|].
    change (chunk_elems (with_block st raw (chunk_elems st))) with (chunk_elems st).
    destruct (Z.ltb_spec (chunk_elems st) n) as [|_]; [lia|]. cbn [andb].
    assert ((if PerElementFree p && (n =? 1) then nullptr else nullptr) = nullptr)
      as -> by (by destruct (PerElementFree p && (n =? 1))).
    match goal with
    | |- context [ if PerElementFree p && (n =? 1) then ?x else ?x ] =>
        replace (if PerElementFree p && (n =? 1) then x else x) with x
          by (by destruct (PerElementFree p && (n =? 1)))
    end.
    change (negb (nullptr =? nullptr)) with false. cbv iota.
    destruct Hidx as [Hlen _].
    assert (at_index (block_elems st ++ [chunk_elems st])
                     (wrap (size (blocks st ++ [raw]) - 1)) = chunk_elems st) as Hcap.
    { replace (size (blocks st ++ [raw]))
        with (size (block_elems st ++ [chunk_elems st])).
      - apply at_index_last. unfold size in *. lia.
      - unfold size. by rewrite !length_app, Hlen. }
    assert (current_block_has n (with_block st raw (chunk_elems st)) = true) as Hhas'.
    { rewrite current_block_has_eq.
      2:{ unfold with_block. cbn [blocks]. by destruct (blocks st). }
      unfold with_block.
      cbn [blocks block_elems current_offset current_block_index].
      rewrite Hcap, Z.add_0_l, wrap_small by lia. apply Z.leb_le. lia. }
    rewrite Hhas'. unfold alloc_from_current. rewrite Hhas'. cbn [negb].
    unfold with_offset, with_block.
    cbn [blocks block_elems current_offset current_block_index element_size
         chunk_elems free_list].
    assert (at_index (blocks st ++ [raw]) (wrap (size (blocks st ++ [raw]) - 1))
            = raw) as Hbase by (by apply at_index_last).
    rewrite Hbase. change (wrap (0 * element_size st)) with 0.
    rewrite Z.add_0_l, Z.add_0_r, (wrap_small n) by lia. done. }
  split.
  - unfold allocate. rewrite (get_state_handles w) by done. rewrite Hsl.
    eapply on_pool_ret; [exact Hpool1|]. exact Hrun.
  - unfold pool_of. cbn [handles pools].
    rewrite (get_state_handles w) by done. rewrite Hsl.
    apply list_lookup_insert_eq. subst w1. cbn [pools].
    by rewrite length_insert.
Qed.

Lemma reserve_grows_fixed_pool_witness :
  allocate fixed_int_policy first_allocator 1
           (world_of_pool full_int_pool 4136%positive)
  = Throw bad_alloc (world_of_pool full_int_pool 4136%positive)
  ∧ ∃ w1 w2,
      reserve first_allocator 1 (world_of_pool full_int_pool 4136%positive)
      = Ret tt w1
      ∧ allocate fixed_int_policy first_allocator 1 w1 = Ret 4136 w2
      ∧ pool_of w2 first_allocator
        = Some (with_offset (with_block full_int_pool 4136 10) 1).
Proof.
  apply (reserve_grows_fixed_pool fixed_int_policy first_allocator 1
           (world_of_pool full_int_pool 4136%positive) full_int_pool
           4136 4176%positive).
  - reflexivity.
  - reflexivity.
  - vm_compute. split; [reflexivity|]. split; [discriminate|reflexivity].
  - vm_compute. discriminate.
  - reflexivity.
  - vm_compute. split; [reflexivity|discriminate].
  - vm_compute. discriminate.
  - vm_compute. discriminate.
  - reflexivity.
  - reflexivity.
  - split; [discriminate|]. by exists 4176%positive, 4176%positive.
Defined.

(** ** Bump allocation and growth *)

Section Bump.
Context {Heap : Type} `{!SystemAllocator Heap}.
Implicit Types (w : World Heap) (a : CustomAllocator) (st : PoolState) (h : Heap).

(** With an empty free list nothing is reused, whatever the policy. *)
Lemma allocate_in_no_reuse p n st h :
  free_list st = [] →
  n ≠ 0 →
  n ≤ max_size p →
  Expandable p = true ∨ n ≤ chunk_elems st →
  allocate_in p n (st, h)
  = if current_block_has n st then alloc_from_current n (st, h)
    else if negb (Expandable p) then Throw bad_alloc (st, h)
    else (add_block (Z.max n (chunk_elems st)) ;; alloc_from_current n) (st, h).
Proof.
  intros Hfl Hn0 Hmax Hroom. rewrite allocate_in_cases. cbv zeta.
  rewrite (pop_free_empty st Hfl). cbn [fst snd].
  destruct (Z.eqb_spec n 0) as [|_]; [done|].
  destruct (Z.ltb_spec (max_size p) n) as [|_]; [lia|].
  replace (negb (Expandable p) && (chunk_elems st <? n)) with false.
  2:{ destruct Hroom as [-> | Hc]; [done|].
      destruct (Z.ltb_spec (chunk_elems st) n); [lia|]. by rewrite andb_false_r. }
  by destruct (PerElementFree p && (n =? 1)).
Qed.

Lemma allocate_in_bumps p n st h :
  blocks st ≠ [] →
  free_list st = [] →
  0 < n ≤ max_size p →
  Expandable p = true ∨ n ≤ chunk_elems st →
  0 ≤ current_offset st →
  current_offset st + n ≤ at_index (block_elems st) (current_block_index st) →
  at_index (block_elems st) (current_block_index st) * element_size st ≤ SIZE_MAX →
  1 ≤ element_size st →
  allocate_in p n (st, h)
  = Ret (bump_top st) (with_offset st (current_offset st + n), h).
Proof.
  intros Hne Hfl Hn Hroom Hoff Hfit Hcap Hes.
  rewrite allocate_in_no_reuse by (done || lia).
  assert (current_block_has n st = true) as Hhas.
  { rewrite current_block_has_eq by done. rewrite wrap_small by nia.
    by apply Z.leb_le. }
  rewrite Hhas. unfold alloc_from_current. rewrite Hhas. cbn [negb].
  rewrite (wrap_small (current_offset st + n)) by nia.
  rewrite (wrap_small (current_offset st * element_size st)) by nia.
  done.
Qed.

(** Growth seen from the pool: the block asked for, recorded, and the
    request served from its start. *)
Lemma allocate_in_grows p n st h raw h' :
  Expandable p = true →
  length (blocks st) = length (block_elems st) →
  size (blocks st) ≤ SIZE_MAX →
  free_list st = [] →
  0 < n ≤ max_size p →
  1 ≤ sizeof_T p →
  current_block_has n st = false →
  block_served h (wrap (Z.max n (chunk_elems st) * element_size st)) raw h' →
  allocate_in p n (st, h)
  = Ret raw (with_offset (with_block st raw (Z.max n (chunk_elems st))) n, h').
Proof.
  intros Hexp Hlen Hsize Hfl Hn Hsizeof Hhas Hserved.
  pose proof (max_size_bound p Hsizeof) as Hmaxb.
  rewrite allocate_in_no_reuse by (done || lia || by left).
  rewrite Hhas, Hexp. cbn [negb]. unfold bind.
  rewrite (add_block_granted st h _ raw h') by (done || lia).
  set (want := Z.max n (chunk_elems st)) in *.
  assert (at_index (block_elems st ++ [want])
                   (wrap (size (blocks st ++ [raw]) - 1)) = want) as Hcap.
  { replace (size (blocks st ++ [raw])) with (size (block_elems st ++ [want])).
    - apply at_index_last. unfold size in *. lia.
    - unfold size. by rewrite !length_app, Hlen. }
  assert (at_index (blocks st ++ [raw]) (wrap (size (blocks st ++ [raw]) - 1))
          = raw) as Hbase by (by apply at_index_last).
  assert (current_block_has n (with_block st raw want) = true) as Hhas'.
  { rewrite current_block_has_eq.
    2:{ unfold with_block. cbn [blocks]. by destruct (blocks st). }
    unfold with_block.
    cbn [blocks block_elems current_offset current_block_index].
    rewrite Hcap, Z.add_0_l, wrap_small by lia. apply Z.leb_le. lia. }
  unfold alloc_from_current. rewrite Hhas'. cbn [negb].
  unfold with_offset, with_block.
  cbn [blocks block_elems current_offset current_block_index element_size
       chunk_elems free_list].
  rewrite Hbase. change (wrap (0 * element_size st)) with 0.
  rewrite Z.add_0_l, Z.add_0_r, (wrap_small n) by lia. done.
Qed.

(** Growth refused by the system allocator. *)
Lemma allocate_in_refused p n st h h' :
  Expandable p = true →
  free_list st = [] →
  0 < n ≤ max_size p →
  current_block_has n st = false →
  operator_new h (wrap (Z.max n (chunk_elems st) * element_size st))
  = (nullptr, h') →
  allocate_in p n (st, h) = Throw bad_alloc (st, h').
Proof.
  intros Hexp Hfl Hn Hhas Hnew.
  rewrite allocate_in_no_reuse by (done || lia || by left).
  rewrite Hhas, Hexp. cbn [negb]. unfold bind.
  by rewrite (add_block_refused st h _ h') by (done || lia).
Qed.

End Bump.

(** ** Single-element allocation, exactly *)

Section SinglesExact.
Context {Heap : Type} `{!SystemAllocator Heap}.
Implicit Types (w : World Heap) (a : CustomAllocator) (st : PoolState) (h : Heap).

Lemma at_index_app_l (l more : list Z) (i : Z) :
  0 ≤ i < size l → at_index (l ++ more) i = at_index l i.
Proof. unfold at_index, size. intros Hi. apply app_nth1. lia. Qed.

Lemma initial_pool_singles_exact p raw :
  1 ≤ ChunkElems p → raw ≠ nullptr → singles_exact p 0 (initial_pool p raw).
Proof.
  intros Hchunk Hraw. unfold singles_exact, built_by, initial_pool, size. cbn.
  repeat split; try done; try lia; by apply Forall_singleton.
Qed.

(** One more [allocate(1)], where neither [current_offset + 1] nor the
    number of blocks can wrap. *)
Lemma allocate_in_single_exact p j st h :
  Expandable p = true →
  1 ≤ ChunkElems p < SIZE_MAX →
  1 ≤ max_size p →
  never_exhausted Heap →
  0 ≤ j < SIZE_MAX →
  singles_exact p j st →
  ∃ q st' h' more,
    allocate_in p 1 (st, h) = Ret q (st', h')
    ∧ singles_exact p (j + 1) st'
    ∧ blocks st' = blocks st ++ more
    ∧ q = single_address p st' j.
Proof.
  intros Hexp Hchunk Hmax Hgrant Hj
    ([Hc Hes] & Hlen & Hnonnull & Hall & Hfl & Hsize & Hidx & Hoff & Hrange & Hused).
  remember (ChunkElems p) as g eqn:Hg.
  remember (size (blocks st)) as nb eqn:Hnbdef.
  assert (blocks st ≠ []) as Hne.
  { intros Hnil. rewrite Hnil in Hnbdef. unfold size in Hnbdef.
    cbn in Hnbdef. lia. }
  assert (at_index (block_elems st) (current_block_index st) = g) as Hcap.
  { apply at_index_all_eq; [done|]. unfold size in *. lia. }
  assert (nb ≤ j + 1) as Hnb by nia.
  rewrite allocate_in_no_reuse by (done || lia || by left).
  destruct (decide (current_offset st < g)) as [Hroom|Hfull].
  - (* room in the current block *)
    assert (current_block_has 1 st = true) as Hhas.
    { rewrite current_block_has_eq by done. rewrite Hcap, wrap_small by lia.
      apply Z.leb_le. lia. }
    rewrite Hhas. unfold alloc_from_current. rewrite Hhas. cbn [negb].
    rewrite (wrap_small (current_offset st + 1)) by lia.
    eexists _, _, _, []. split; [reflexivity|].
    split; [|split; [by rewrite app_nil_r|]].
    + unfold singles_exact, built_by.
      cbn [blocks block_elems chunk_elems element_size current_block_index
           current_offset free_list].
      rewrite <- ?Hg, <- ?Hnbdef. repeat split; try done; try lia.
    + unfold single_address. cbn [blocks]. rewrite <- ?Hg.
      rewrite Hidx, Hes.
      replace (j `div` g) with (nb - 1)
        by (apply (Z.div_unique j g (nb - 1) (current_offset st)); lia).
      replace (j `mod` g) with (current_offset st)
        by (apply (Z.mod_unique j g (nb - 1) (current_offset st)); lia).
      done.
  - (* the block is used up: a new one *)
    assert (current_offset st = g) as Hoffg by lia.
    assert (current_block_has 1 st = false) as Hhas.
    { rewrite current_block_has_eq by done. rewrite Hcap, wrap_small by lia.
      apply Z.leb_gt. lia. }
    rewrite Hhas, Hexp. cbn [negb].
    rewrite Hc. replace (Z.max 1 g) with g by lia.
    destruct (never_exhausted_serves_block h (wrap (g * element_size st)) Hgrant)
      as (raw & h1 & Hserved).
    pose proof Hserved as [Hraw _].
    unfold bind. rewrite (add_block_granted st h _ raw h1) by (done || lia).
    assert (size (blocks st ++ [raw]) = nb + 1) as Hsize'.
    { unfold size in *. rewrite length_app. cbn [length]. lia. }
    assert (wrap (size (blocks st ++ [raw]) - 1) = nb) as Hlast.
    { rewrite Hsize'. replace (nb + 1 - 1) with nb by lia. apply wrap_small. lia. }
    assert (size (blocks st) ≤ SIZE_MAX) as Hfit by lia.
    assert (at_index (blocks st ++ [raw]) nb = raw) as Hbase.
    { rewrite <- Hlast. by apply at_index_last. }
    assert (at_index (block_elems st ++ [g]) nb = g) as Hcap'.
    { replace nb with (wrap (size (block_elems st ++ [g]) - 1)).
      - apply at_index_last. unfold size in *. lia.
      - rewrite <- Hlast. unfold size. by rewrite !length_app, Hlen. }
    assert (current_block_has 1 (with_block st raw g) = true) as Hhas'.
    { rewrite current_block_has_eq.
      2:{ unfold with_block. cbn [blocks]. by destruct (blocks st). }
      unfold with_block.
      cbn [blocks block_elems current_offset current_block_index].
      rewrite Hlast, Hcap'. apply Z.leb_le. change (wrap (0 + 1)) with 1. lia. }
    unfold alloc_from_current. rewrite Hhas'. cbn [negb].
    eexists _, _, _, [raw]. split; [reflexivity|].
    split; [|split; [reflexivity|]].
    + unfold singles_exact, built_by, with_block.
      cbn [blocks block_elems chunk_elems element_size current_block_index
           current_offset free_list].
      rewrite Hlast, Hsize'. change (wrap (0 + 1)) with 1. rewrite <- ?Hg.
      split; [done|]. split; [by rewrite !length_app, Hlen|].
      split; [apply Forall_app; split; [done|by apply Forall_singleton]|].
      split; [apply Forall_app; split; [done|by apply Forall_singleton]|].
      repeat split; try done; try lia; nia.
    + unfold single_address, with_block.
      cbn [blocks current_block_index current_offset element_size].
      rewrite <- ?Hg.
      rewrite Hlast.
      replace (j `div` g) with nb by (apply (Z.div_unique j g nb 0); nia).
      replace (j `mod` g) with 0 by (apply (Z.mod_unique j g nb 0); nia).
      by rewrite Hbase.
Qed.

(** A pointer handed out stays where it is when blocks are added. *)
Lemma single_address_app p j st st' more :
  1 ≤ ChunkElems p →
  0 ≤ j →
  singles_exact p (j + 1) st →
  blocks st' = blocks st ++ more →
  single_address p st' j = single_address p st j.
Proof.
  intros Hchunk Hj (_ & _ & _ & _ & _ & Hsize & _ & Hoff & Hrange & Hused) Hblocks.
  unfold single_address. rewrite Hblocks. f_equal.
  apply at_index_app_l.
  assert (j `div` ChunkElems p = size (blocks st) - 1) as ->;
    [|unfold pointer in *; lia].
  symmetry.
  apply (Z.div_unique j (ChunkElems p) (size (blocks st) - 1) (current_offset st - 1));
    lia.
Qed.

Lemma allocate_many_singles_exact p a k :
  Expandable p = true →
  1 ≤ ChunkElems p < SIZE_MAX →
  1 ≤ max_size p →
  never_exhausted Heap →
  ∀ w j st,
    0 ≤ j →
    j + Z.of_nat k ≤ SIZE_MAX →
    pool_of w a = Some st →
    singles_exact p j st →
    ∃ ptrs w' st' more,
      allocate_many p a 1 k w = Ret ptrs w'
      ∧ pool_of w' a = Some st'
      ∧ singles_exact p (j + Z.of_nat k) st'
      ∧ blocks st' = blocks st ++ more
      ∧ ptrs = map (λ i, single_address p st' (j + Z.of_nat i)) (seq 0 k).
Proof.
  intros Hexp Hchunk Hmax Hgrant.
  induction k as [|k IH]; intros w j st Hj Hfit Hst Hinv.
  { exists [], w, st, []. rewrite Z.add_0_r, app_nil_r. done. }
  destruct (allocate_in_single_exact p j st (heap w))
    as (q & st1 & h1 & more1 & Hrun & Hinv1 & Hblocks1 & Hq); [done..|lia|done|].
  destruct (allocate_ret_pool p a 1 w st q st1 h1 Hst Hrun) as (w1 & Hcall & Hst1 & _).
  destruct (IH w1 (j + 1) st1)
    as (ptrs & w' & st' & more & Hrest & Hst' & Hinv' & Hblocks' & Hptrs);
    [lia|lia|done..|].
  exists (q :: ptrs), w', st', (more1 ++ more).
  cbn [allocate_many]. unfold bind. rewrite Hcall, Hrest. unfold ret.
  split; [done|]. split; [done|].
  split; [by replace (j + Z.of_nat (S k)) with (j + 1 + Z.of_nat k) by lia|].
  split; [by rewrite Hblocks', Hblocks1, app_assoc|].
  cbn [seq map]. f_equal.
  - rewrite Z.add_0_r, Hq. symmetry.
    apply (single_address_app p j st1 st' more); [lia|done..].
  - rewrite Hptrs, <- seq_shift, map_map. apply map_ext. intros i.
    f_equal. lia.
Qed.

End SinglesExact.

Lemma unbounded_heap_never_exhausted : never_exhausted positive.
Proof. split; [intros h bytes; discriminate|intros h; by exists h]. Qed.

(** C6: on an expandable front end with chunk granularity [g], freshly
    constructed, [k > g] calls of [allocate(1)] all return, provided the
    system allocator never runs out; afterwards the pool holds at most
    [ceil(k / g)] blocks, each of capacity at least [g].  Where no counter
    of the code wraps ([g] and [k] below [SIZE_MAX]) the outcome is known
    exactly: the pool holds [ceil(k / g)] blocks at the non-null addresses
    the system allocator returned, the cursor is on the last of them with
    [k - (ceil(k / g) - 1) * g] elements used, and the [j]-th call returned
    the address of element [j mod g] of block [j / g]. *)
Theorem expandable_pool_serves_singles
    {Heap : Type} `{!SystemAllocator Heap}
    (p : Policy) (w : World Heap) (k : nat) :
  Expandable p = true →
  1 ≤ sizeof_T p ≤ SIZE_MAX →
  1 ≤ ChunkElems p ≤ SIZE_MAX →
  never_exhausted Heap →
  ChunkElems p < Z.of_nat k →
  ∃ (a : CustomAllocator) (w1 w2 : World Heap) (ptrs : list pointer)
    (st : PoolState),
    CustomAllocator_new p w = Some (a, w1)
    ∧ allocate_many p a 1 k w1 = Ret ptrs w2
    ∧ length ptrs = k
    ∧ pool_of w2 a = Some st
    ∧ size (blocks st) ≤ ceil_div (Z.of_nat k) (ChunkElems p)
    ∧ length (block_elems st) = length (blocks st)
    ∧ Forall (λ c, ChunkElems p ≤ c) (block_elems st)
    ∧ (ChunkElems p < SIZE_MAX →
       Z.of_nat k ≤ SIZE_MAX →
       size (blocks st) = ceil_div (Z.of_nat k) (ChunkElems p)
       ∧ Forall (λ b, b ≠ nullptr) (blocks st)
       ∧ current_block_index st = size (blocks st) - 1
       ∧ current_offset st
         = Z.of_nat k - (size (blocks st) - 1) * ChunkElems p
       ∧ ptrs = map (λ j, single_address p st (Z.of_nat j)) (seq 0 k)).
Proof.
  intros Hexp Hsize Hchunk Hgrant Hk.
  destruct (never_exhausted_serves_pool (heap w) (wrap (ChunkElems p * sizeof_T p))
              Hgrant) as (raw & h1 & Hserved).
  assert (raw ≠ nullptr) as Hraw.
  { by destruct Hserved as (? & ? & _ & _ & ? & _). }
  set (a := mkCustomAllocator (Some (length (handles w)))).
  set (w1 := mkWorld (pools w ++ [initial_pool p raw])
                     (handles w ++ [mkPoolHandle (Some (length (pools w)))]) h1).
  assert (CustomAllocator_new p w = Some (a, w1)) as Hctor.
  { unfold CustomAllocator_new, bind.
    by rewrite (make_shared_PoolHandle_granted p w raw h1) by (done || lia). }
  assert (pool_of w1 a = Some (initial_pool p raw)) as Hpool.
  { unfold pool_of, get_state. cbn [handle_ a handles pools w1].
    rewrite list_lookup_middle by done. cbn.
    by rewrite list_lookup_middle. }
  destruct (allocate_many_singles p a k Hexp Hchunk (max_size_pos p Hsize) Hgrant
              w1 0 (initial_pool p raw))
    as (ptrs & w2 & st & Hrun & Hlen & Hst & Hinv); [lia|done| |].
  { apply initial_pool_singles. lia. }
  exists a, w1, w2, ptrs, st. do 4 (split; [done|]).
  rewrite Z.add_0_l in Hinv.
  destruct (singles_inv_blocks p (Z.of_nat k) st) as (Hcount & Hlens & Hcaps);
    [lia|lia|done|].
  do 3 (split; [done|]).
  intros Hg Hfit.
  destruct (allocate_many_singles_exact p a k Hexp ltac:(lia)
              (max_size_pos p Hsize) Hgrant w1 0 (initial_pool p raw))
    as (ptrs' & w2' & st' & more & Hrun' & Hst' & Hexact & _ & Hptrs);
    [lia|lia|done| |].
  { apply initial_pool_singles_exact; [lia|done]. }
  rewrite Hrun in Hrun'. injection Hrun' as <- <-.
  rewrite Hst in Hst'. injection Hst' as <-.
  rewrite Z.add_0_l in Hexact.
  destruct Hexact as (_ & _ & Hnonnull & _ & _ & Hone & Hidx & Hoff & Hrange & Hused).
  split.
  { unfold ceil_div.
    apply (Z.div_unique _ (ChunkElems p) _ (current_offset st - 1)); lia. }
  do 3 (split; [done|]).
  rewrite Hptrs. apply map_ext. intros j. by rewrite Z.add_0_l.
Qed.

Lemma expandable_pool_serves_singles_witness :
  ∃ (w2 : World positive) (ptrs : list pointer) (st : PoolState),
    allocate_many char_policy first_allocator 1 11
                  (world_of_pool (initial_pool char_policy 4096) 4106%positive)
    = Ret ptrs w2
    ∧ pool_of w2 first_allocator = Some st
    ∧ size (blocks st) ≤ 2.
Proof.
  destruct (expandable_pool_serves_singles char_policy fresh_world 11)
    as (a & w1 & w2 & ptrs & st & Hctor & Hrun & _ & Hst & Hblocks & _).
  - reflexivity.
  - vm_compute. split; discriminate.
  - vm_compute. split; discriminate.
  - exact unbounded_heap_never_exhausted.
  - reflexivity.
  - injection Hctor as <- <-. exists w2, ptrs, st.
    split; [exact Hrun|]. split; [exact Hst|exact Hblocks].
Defined.

(** X10: while the current block has room, successive [allocate(n)] calls
    hand out adjacent ranges: the [i]-th of [k] calls returns the address
    [i * n * sizeof(T)] after the first, no block is added and the system
    allocator is not called. *)
Theorem bump_allocations_are_adjacent
    {Heap : Type} `{!SystemAllocator Heap}
    (p : Policy) (a : CustomAllocator) (n : Z) (k : nat) (w : World Heap)
    (st : PoolState) :
  pool_of w a = Some st →
  blocks st ≠ [] →
  free_list st = [] →
  0 < n ≤ max_size p →
  Expandable p = true ∨ n ≤ chunk_elems st →
  0 ≤ current_offset st →
  current_offset st + Z.of_nat k * n
    ≤ at_index (block_elems st) (current_block_index st) →
  at_index (block_elems st) (current_block_index st) * element_size st ≤ SIZE_MAX →
  1 ≤ element_size st →
  ∃ w',
    allocate_many p a n k w
    = Ret (map (λ i, bump_top st + Z.of_nat i * n * element_size st) (seq 0 k)) w'
    ∧ pool_of w' a = Some (with_offset st (current_offset st + Z.of_nat k * n))
    ∧ heap w' = heap w.
Proof.
  revert w st. induction k as [|k IH];
    intros w st Hst Hne Hfl Hn Hroom Hoff Hfit Hcap Hes.
  { exists w. split; [done|]. split; [|done]. rewrite Hst. f_equal.
    destruct st. unfold with_offset. cbn. f_equal. lia. }
  assert (allocate_in p n (st, heap w)
          = Ret (bump_top st) (with_offset st (current_offset st + n), heap w))
    as Hrun by (apply allocate_in_bumps; try done; nia).
  destruct (allocate_ret_pool p a n w st _ _ _ Hst Hrun) as (w1 & Hcall & Hst1 & Hh1).
  destruct (IH w1 (with_offset st (current_offset st + n))) as (w' & Hrest & Hst' & Hh');
    try done.
  { cbn [with_offset current_offset]. lia. }
  { cbn [with_offset current_offset block_elems current_block_index]. nia. }
  exists w'. cbn [allocate_many]. unfold bind. rewrite Hcall, Hrest. unfold ret.
  split; [|split].
  - f_equal. cbn [seq map]. f_equal; [lia|].
    rewrite <- seq_shift, map_map. apply map_ext. intros i.
    unfold bump_top, with_offset.
    cbn [blocks current_block_index current_offset element_size]. lia.
  - rewrite Hst'. f_equal. unfold with_offset. cbn. f_equal. lia.
  - by rewrite Hh', Hh1.
Qed.

Lemma bump_allocations_are_adjacent_witness :
  ∃ w',
    allocate_many int_policy first_allocator 2 3
                  (world_of_pool one_used_int_pool 4136%positive)
    = Ret [4100; 4108; 4116] w'
    ∧ pool_of w' first_allocator = Some (with_offset one_used_int_pool 7).
Proof.
  destruct (bump_allocations_are_adjacent int_policy first_allocator 2 3
              (world_of_pool one_used_int_pool 4136%positive) one_used_int_pool)
    as (w' & Hrun & Hst & _).
  - reflexivity.
  - discriminate.
  - reflexivity.
  - vm_compute. split; [reflexivity|discriminate].
  - left. reflexivity.
  - vm_compute. discriminate.
  - vm_compute. discriminate.
  - vm_compute. discriminate.
  - vm_compute. discriminate.
  - exists w'. split; [exact Hrun|exact Hst].
Defined.

(** X11: when the current block has no room for [n], an expandable front
    end asks the system allocator for one block of [max(n, chunk)]
    elements and, the block being served and recorded, returns its first
    address; the new block becomes the current one with [n] elements used,
    and what was left of the old block is given up. *)
Theorem growth_takes_fresh_block
    {Heap : Type} `{!SystemAllocator Heap}
    (p : Policy) (a : CustomAllocator) (n : Z) (w : World Heap)
    (st : PoolState) (raw : pointer) (h' : Heap) :
  pool_of w a = Some st →
  Expandable p = true →
  length (blocks st) = length (block_elems st) →
  size (blocks st) ≤ SIZE_MAX →
  free_list st = [] →
  0 < n ≤ max_size p →
  1 ≤ sizeof_T p →
  current_block_has n st = false →
  block_served (heap w) (wrap (Z.max n (chunk_elems st) * element_size st))
               raw h' →
  ∃ w',
    allocate p a n w = Ret raw w'
    ∧ pool_of w' a
      = Some (with_offset (with_block st raw (Z.max n (chunk_elems st))) n)
    ∧ heap w' = h'.
Proof.
  intros Hst Hexp Hlen Hsize Hfl Hn Hsizeof Hhas Hserved.
  apply (allocate_ret_pool p a n w st); [done|].
  by apply allocate_in_grows.
Qed.

Lemma growth_takes_fresh_block_witness :
  ∃ w',
    allocate int_policy first_allocator 12
             (world_of_pool one_used_int_pool 4136%positive) = Ret 4136 w'
    ∧ pool_of w' first_allocator
      = Some (with_offset (with_block one_used_int_pool 4136 12) 12).
Proof.
  destruct (growth_takes_fresh_block int_policy first_allocator 12
              (world_of_pool one_used_int_pool 4136%positive) one_used_int_pool
              4136 4184%positive)
    as (w' & Hrun & Hst & _).
  - reflexivity.
  - reflexivity.
  - reflexivity.
  - vm_compute. discriminate.
  - reflexivity.
  - vm_compute. split; [reflexivity|discriminate].
  - vm_compute. discriminate.
  - reflexivity.
  - split; [discriminate|]. by exists 4184%positive, 4184%positive.
  - exists w'. split; [exact Hrun|exact Hst].
Defined.

(** X12: [max_size] is what keeps the byte count of a block from
    wrapping.  For a request that passes the size check of [allocate], on a
    pool whose chunk is itself within [max_size], the block [add_block]
    asks of [::operator new] on growth has exactly
    [max(n, chunk) * sizeof(T)] bytes, a count that fits [size_type]:
    [allocate] throws [bad_alloc] when that request is refused, and
    returns the start of the block when it is served and recorded. *)
Theorem growth_byte_count_is_exact
    {Heap : Type} `{!SystemAllocator Heap}
    (p : Policy) (n : Z) (st : PoolState) (h : Heap) :
  let bytes := Z.max n (chunk_elems st) * sizeof_T p in
  built_by p st →
  Expandable p = true →
  length (blocks st) = length (block_elems st) →
  size (blocks st) ≤ SIZE_MAX →
  free_list st = [] →
  current_block_has n st = false →
  1 ≤ sizeof_T p →
  0 < n ≤ max_size p →
  0 ≤ chunk_elems st ≤ max_size p →
  bytes ≤ SIZE_MAX
  ∧ (∀ h', operator_new h bytes = (nullptr, h') →
           allocate_in p n (st, h) = Throw bad_alloc (st, h'))
  ∧ (∀ raw h', block_served h bytes raw h' →
               allocate_in p n (st, h)
               = Ret raw (with_offset
                            (with_block st raw (Z.max n (chunk_elems st))) n,
                          h')).
Proof.
  intros bytes [_ Hes] Hexp Hlen Hsize Hfl Hhas Hsizeof Hn Hchunk.
  assert (0 ≤ bytes ≤ SIZE_MAX) as Hfit.
  { subst bytes. unfold max_size in *.
    pose proof (Z.mul_div_le SIZE_MAX (sizeof_T p)). nia. }
  assert (wrap (Z.max n (chunk_elems st) * element_size st) = bytes) as Hbytes.
  { rewrite Hes. by apply wrap_small. }
  split; [lia|]. split.
  - intros h' Hnew. apply allocate_in_refused; [done..|]. by rewrite Hbytes.
  - intros raw h' Hserved. apply allocate_in_grows; [done..|]. by rewrite Hbytes.
Qed.

Lemma growth_byte_count_is_exact_witness :
  allocate_in int_policy 12 (one_used_int_pool, 4136%positive)
  = Ret 4136 (with_offset (with_block one_used_int_pool 4136 12) 12, 4184%positive).
Proof.
  refine (proj2 (proj2 (growth_byte_count_is_exact int_policy 12 one_used_int_pool
                          4136%positive _ _ _ _ _ _ _ _ _)) 4136 4184%positive _).
  - split; reflexivity.
  - reflexivity.
  - reflexivity.
  - vm_compute. discriminate.
  - reflexivity.
  - reflexivity.
  - vm_compute. discriminate.
  - vm_compute. split; [reflexivity|discriminate].
  - vm_compute. split; discriminate.
  - split; [discriminate|]. by exists 4184%positive, 4184%positive.
Defined.

(** ** Invariants of the block store *)

Section Bounded.
Context {Heap : Type} `{!SystemAllocator Heap}.
Implicit Types (w : World Heap) (a : CustomAllocator) (st : PoolState) (h : Heap).

Lemma at_index_nonneg (l : list Z) (i : Z) :
  Forall (λ c, 0 ≤ c) l → 0 ≤ at_index l i.
Proof.
  intros Hall. unfold at_index.
  destruct (nth_in_or_default (Z.to_nat i) l 0) as [Hin | ->]; [|done].
  rewrite Forall_forall in Hall. apply Hall. by apply list_elem_of_In.
Qed.

Lemma initial_pool_bounded p raw :
  0 ≤ ChunkElems p → pool_bounded (initial_pool p raw).
Proof.
  intros Hchunk. unfold pool_bounded, initial_pool, at_index. cbn.
  change (Z.to_nat 0) with 0%nat. cbv iota.
  split; [by apply Forall_singleton|lia].
Qed.

Lemma add_block_bounded elems st h :
  library_never_fails Heap →
  0 ≤ elems →
  pool_bounded st →
  pool_bounded (fst (state_of (add_block elems (st, h)))).
Proof.
  intros Hlib Helems [Hall Hoff].
  destruct (add_block elems (st, h)) as [[] [st' h']|e [st' h']] eqn:Hrun.
  - apply add_block_ret_inv in Hrun as [(_ & -> & _) | (_ & raw & _ & ->)];
      [done|].
    assert (Forall (λ c, 0 ≤ c) (block_elems st ++ [elems])) as Hall'.
    { apply Forall_app. split; [done|]. by apply Forall_singleton. }
    unfold pool_bounded, with_block.
    cbn [fst state_of block_elems current_offset current_block_index].
    split; [done|]. split; [done|]. by apply at_index_nonneg.
  - by apply (add_block_throw_served _ _ _ _ _ _ Hlib) in Hrun as (_ & ->).
Qed.

Lemma alloc_from_current_bounded n st h :
  pool_bounded st →
  pool_bounded (fst (state_of (alloc_from_current n (st, h)))).
Proof.
  intros [Hall Hoff]. unfold alloc_from_current.
  destruct (current_block_has n st) eqn:Hhas; [|done].
  cbn [negb state_of fst]. unfold pool_bounded.
  cbn [block_elems current_offset current_block_index].
  split; [done|]. unfold current_block_has in Hhas.
  destruct (blocks st); [done|]. apply Z.leb_le in Hhas.
  pose proof (wrap_range (current_offset st + n)). lia.
Qed.

Lemma pop_free_bounded st : pool_bounded st → pool_bounded (snd (pop_free st)).
Proof. intros Hb. unfold pop_free. by destruct (free_list st). Qed.

Lemma allocate_in_bounded p n st h :
  library_never_fails Heap →
  0 ≤ n →
  pool_bounded st →
  pool_bounded (fst (state_of (allocate_in p n (st, h)))).
Proof.
  intros Hlib Hn Hb. rewrite allocate_in_cases. cbv zeta.
  set (st1 := if PerElementFree p && (n =? 1) then snd (pop_free st) else st).
  assert (pool_bounded st1) as Hb1.
  { subst st1. destruct (PerElementFree p && (n =? 1)); [|done].
    by apply pop_free_bounded. }
  destruct (n =? 0); [done|]. destruct (max_size p <? n); [done|].
  destruct (negb (Expandable p) && (chunk_elems st <? n)); [done|].
  destruct (negb (_ =? nullptr)); [done|].
  destruct (current_block_has n st1); [by apply alloc_from_current_bounded|].
  destruct (negb (Expandable p)); [done|].
  unfold bind.
  pose proof (add_block_bounded (Z.max n (chunk_elems st1)) st1 h Hlib
                ltac:(lia) Hb1) as Hadd.
  destruct (add_block _ (st1, h)) as [[] [st2 h2]|e2 [st2 h2]]; [|done].
  by apply alloc_from_current_bounded.
Qed.

Lemma reserve_elements_bounded total st h :
  library_never_fails Heap →
  pool_bounded st →
  pool_bounded (fst (state_of (reserve_elements total (st, h)))).
Proof.
  intros Hlib Hb.
  destruct (reserve_elements_cases st h total) as [-> | (need & Hneed & ->)];
    [done|]. apply add_block_bounded; [done|lia|done].
Qed.

Lemma pool_after_sound p c st h :
  library_never_fails Heap →
  call_args_ok c →
  pool_indexed st →
  pool_bounded st →
  pool_indexed (fst (pool_after p c (st, h)))
  ∧ pool_bounded (fst (pool_after p c (st, h))).
Proof.
  intros Hlib Hc Hidx Hb. destruct c as [n|ptr n|count]; cbn [pool_after].
  - split; [by apply allocate_in_indexed|by apply allocate_in_bounded].
  - destruct (ptr =? nullptr); [done|]. unfold deallocate_in.
    by destruct (PerElementFree p && (n =? 1)).
  - split; [by apply reserve_elements_indexed|by apply reserve_elements_bounded].
Qed.

End Bounded.

Lemma unbounded_library_never_fails : library_never_fails positive.
Proof. intros h. by exists h. Qed.

(** X14: while the library serves the [push_back]s of the pool, whatever
    a container calls on a front end -- [allocate], [deallocate],
    [reserve], in any number and order, returning or throwing, the system
    allocator serving or refusing -- its pool keeps the two block vectors
    in step, keeps the cursor on an existing block, and keeps the bump
    offset within the capacity of the current block. *)
Theorem pool_invariants_are_kept
    {Heap : Type} `{!SystemAllocator Heap}
    (p : Policy) (a : CustomAllocator) (cs : list call) (w : World Heap)
    (st : PoolState) :
  library_never_fails Heap →
  pool_of w a = Some st →
  pool_indexed st →
  pool_bounded st →
  Forall call_args_ok cs →
  ∃ st', pool_of (foldl (perform p a) w cs) a = Some st'
         ∧ pool_indexed st'
         ∧ pool_bounded st'.
Proof.
  intros Hlib Hst Hidx Hb Hcs. revert w st Hst Hidx Hb.
  induction Hcs as [|c cs Hc Hcs IH]; intros w st Hst Hidx Hb.
  { by exists st. }
  cbn [foldl].
  destruct (perform_pool_of p a w c st Hst) as [Hst1 _].
  destruct (pool_after_sound p c st (heap w) Hlib Hc Hidx Hb) as [Hidx1 Hb1].
  by apply (IH _ _ Hst1).
Qed.

Lemma pool_invariants_are_kept_witness :
  ∃ st', pool_of (foldl (perform char_policy first_allocator)
                        (world_of_pool one_used_pool 4106%positive)
                        [Allocate SIZE_MAX; Reserve 30; Deallocate 4096 1;
                         Allocate 25])
                 first_allocator = Some st'
         ∧ pool_indexed st'
         ∧ pool_bounded st'.
Proof.
  apply (pool_invariants_are_kept char_policy first_allocator
           [Allocate SIZE_MAX; Reserve 30; Deallocate 4096 1; Allocate 25]
           (world_of_pool one_used_pool 4106%positive) one_used_pool).
  - intros h. exists h. reflexivity.
  - reflexivity.
  - vm_compute. split; [reflexivity|]. split; [discriminate|reflexivity].
  - split; [repeat constructor; discriminate|]. vm_compute. split; discriminate.
  - repeat constructor; vm_compute; discriminate.
Defined.

(** X15: [release_all_blocks] hands every block to [::operator delete]
    once, in the order they were added, and leaves an empty pool: the
    has-room check fails for every count, zero included, nothing is
    counted as available, and a second release frees nothing.  An
    expandable front end on such a pool grows it again: [allocate(n)],
    its requests being served, returns the start of a new block of
    [max(n, chunk)] elements. *)
Theorem released_pool_starts_over
    {Heap : Type} `{!SystemAllocator Heap}
    (p : Policy) (n : Z) (st : PoolState) (h h' : Heap) (raw : pointer) :
  let released := snd (release_all_blocks st) in
  let want := Z.max n (chunk_elems st) in
  Expandable p = true →
  0 < n ≤ max_size p →
  1 ≤ sizeof_T p →
  block_served h (wrap (want * element_size st)) raw h' →
  fst (release_all_blocks st) = blocks st
  ∧ (∀ m, current_block_has m released = false)
  ∧ available released = 0
  ∧ release_all_blocks released = ([], released)
  ∧ allocate_in p n (released, h)
    = Ret raw (mkPoolState [raw] [want] (chunk_elems st) (element_size st)
                           0 n [], h').
Proof.
  intros released want Hexp Hn Hsizeof Hserved.
  pose proof (max_size_bound p Hsizeof) as Hmaxb.
  split; [done|]. split; [done|]. split; [reflexivity|]. split; [reflexivity|].
  rewrite allocate_in_no_reuse by (done || lia || by left).
  change (current_block_has n released) with false. rewrite Hexp. cbn [negb].
  unfold bind. subst released. unfold release_all_blocks. cbn [snd].
  rewrite (add_block_granted _ h _ raw h') by (done || cbn; lia).
  set (st1 := mkPoolState [raw] [want] (chunk_elems st) (element_size st) 0 0 []).
  change (with_block _ raw _) with st1.
  assert (current_block_has n st1 = true) as Hhas.
  { unfold current_block_has, st1, at_index. cbn.
    change (Z.to_nat 0) with 0%nat. cbv iota.
    rewrite Z.add_0_l, wrap_small by lia. apply Z.leb_le. subst want. lia. }
  unfold alloc_from_current. rewrite Hhas. cbn [negb].
  unfold st1, at_index. cbn. change (Z.to_nat 0) with 0%nat. cbv iota.
  change (wrap (0 * element_size st)) with 0.
  rewrite Z.add_0_l, Z.add_0_r, wrap_small by lia. done.
Qed.

Lemma released_pool_starts_over_witness :
  allocate_in int_policy 3 (snd (release_all_blocks full_int_pool), 4136%positive)
  = Ret 4136 (mkPoolState [4136] [10] 10 4 0 3 [], 4176%positive).
Proof.
  refine (proj2 (proj2 (proj2 (proj2
    (released_pool_starts_over int_policy 3 full_int_pool 4136%positive
       4176%positive 4136 _ _ _ _))))).
  - reflexivity.
  - vm_compute. split; [reflexivity|discriminate].
  - vm_compute. discriminate.
  - split; [discriminate|]. by exists 4176%positive, 4176%positive.
Defined.

(** X16: [reserve(total)] changes nothing when [total] is zero or when the
    capacities of all blocks, less the bump offset, already reach it. *)
Theorem reserve_with_enough_is_noop
    {Heap : Type} `{!SystemAllocator Heap}
    (a : CustomAllocator) (total : Z) (w : World Heap) (st : PoolState) :
  pool_of w a = Some st →
  pool_indexed st →
  total = 0 ∨ total ≤ wrap (sum_Z (block_elems st) - current_offset st) →
  reserve a total w = Ret tt w.
Proof.
  intros Hst Hidx Hcase. destruct (pool_of_inv _ _ _ Hst) as (sl & Hsl & Hpool).
  unfold reserve. rewrite Hsl. eapply on_pool_ret_same; [done|].
  destruct Hcase as [-> | Hle]; [done|].
  apply reserve_elements_enough. by rewrite available_sum.
Qed.

Lemma reserve_with_enough_is_noop_witness :
  reserve first_allocator 19 (world_of_pool two_block_pool 4116%positive)
  = Ret tt (world_of_pool two_block_pool 4116%positive).
Proof.
  apply (reserve_with_enough_is_noop first_allocator 19
           (world_of_pool two_block_pool 4116%positive) two_block_pool).
  - reflexivity.
  - vm_compute. split; [reflexivity|]. split; [discriminate|reflexivity].
  - right. vm_compute. discriminate.
Defined.

(** * [custmath::factorial] *)

Lemma product_up_to_pos k : 1 ≤ product_up_to k.
Proof. induction k as [|k IH]; cbn [product_up_to]; [done|]. nia. Qed.

Lemma product_up_to_mono j k : (j ≤ k)%nat → product_up_to j ≤ product_up_to k.
Proof.
  induction 1 as [|k Hle IH]; [done|]. cbn [product_up_to].
  pose proof (product_up_to_pos k). nia.
Qed.

(** More turns than the loop needs change nothing. *)
Lemma factorial_loop_done turns n i result :
  n < i → factorial_loop turns n i result = result.
Proof.
  intros Hi. destruct turns as [|turns]; [done|]. cbn [factorial_loop].
  by destruct (Z.leb_spec i n) as [|_]; [lia|].
Qed.

(** X17: for every [n] from 0 to 20, [factorial(n)] returns the true
    factorial of [n]: no multiplication wraps, and the loop would give the
    same value however many more turns it were allowed. *)
Theorem factorial_is_exact (n : Z) (extra : nat) :
  0 ≤ n ≤ 20 →
  factorial n = Value (product_up_to (Z.to_nat n))
  ∧ factorial_loop (Z.to_nat n + extra) n 2 1 = product_up_to (Z.to_nat n)
  ∧ product_up_to (Z.to_nat n) ≤ ULLONG_MAX.
Proof.
  intros Hn.
  assert (∃ k, n = Z.of_nat k ∧ (k ≤ 20)%nat) as (k & -> & Hk).
  { exists (Z.to_nat n). lia. }
  rewrite Nat2Z.id. clear Hn.
  assert (∀ m, (m ≤ 20)%nat →
    factorial_loop m (Z.of_nat m) 2 1 = product_up_to m
    ∧ product_up_to m ≤ ULLONG_MAX) as Hall.
  { intros m Hm.
    do 21 (destruct m as [|m]; [by vm_compute|]). lia. }
  destruct (Hall k Hk) as [Hrun Hfit].
  assert (∀ e, factorial_loop (k + e) (Z.of_nat k) 2 1 = product_up_to k) as Hextra.
  { intros e. clear Hall Hfit. revert Hrun.
    do 21 (destruct k as [|k];
           [intros <-; cbn [Nat.add factorial_loop];
            repeat match goal with
                   | |- context [ ?i <=? ?m ] =>
                       first [ change (i <=? m) with true
                             | change (i <=? m) with false ]; cbv iota
                   end;
            try (rewrite factorial_loop_done by (by vm_compute));
            reflexivity|]).
    lia. }
  split; [|split; [apply Hextra|done]].
  unfold factorial. destruct (Z.ltb_spec 20 (Z.of_nat k)) as [|_]; [lia|].
  by rewrite Nat2Z.id, Hrun.
Qed.

Lemma factorial_is_exact_witness :
  factorial 10 = Value 3628800.
Proof.
  refine (proj1 (factorial_is_exact 10 0 _)). lia.
Defined.

(** X18: the guard is exact.  [factorial(n)] throws [overflow_error]
    precisely for the [n] whose factorial does not fit [unsigned long
    long]: 20! fits and 21! does not. *)
Theorem factorial_throws_iff_too_large (n : Z) :
  0 ≤ n →
  factorial n = overflow_error ↔ ULLONG_MAX < product_up_to (Z.to_nat n).
Proof.
  intros Hn. unfold factorial.
  destruct (Z.ltb_spec 20 n) as [Hbig|Hsmall].
  - split; [intros _|done].
    pose proof (product_up_to_mono 21 (Z.to_nat n) ltac:(lia)) as Hmono.
    assert (ULLONG_MAX < product_up_to 21) as H21 by (by vm_compute).
    lia.
  - split; [done|]. intros Hover.
    pose proof (product_up_to_mono (Z.to_nat n) 20 ltac:(lia)) as Hmono.
    assert (product_up_to 20 ≤ ULLONG_MAX) as H20 by (by vm_compute).
    lia.
Qed.

Lemma factorial_throws_iff_too_large_witness :
  factorial 21 = overflow_error.
Proof.
  apply (factorial_throws_iff_too_large 21); [lia|]. by vm_compute.
Defined.

(** * The vector on the pool allocator *)

Section VectorFacts.
Context {Heap : Type} `{!SystemAllocator Heap} {T : Type}.
Implicit Types (p : Policy) (v : SimpleVector) (m : Machine Heap T) (l : list T).

Lemma slot_inj p base i j : 1 ≤ sizeof_T p → slot p base i = slot p base j → i = j.
Proof. unfold slot. intros Hs Heq. nia. Qed.

Lemma put_object_same q o (objs : pointer → option T) :
  put_object q o objs q = o.
Proof. unfold put_object. by rewrite Z.eqb_refl. Qed.

Lemma put_object_other q r o (objs : pointer → option T) :
  r ≠ q → put_object q o objs r = objs r.
Proof. intros Hne. unfold put_object. by destruct (Z.eqb_spec r q). Qed.

Lemma holds_lookup p v m l (i : nat) x :
  holds p v m l → l !! i = Some x →
  objects m (slot p (items_ v) (Z.of_nat i)) = Some x.
Proof. intros [_ Hobj]. apply Hobj. Qed.

(** Writing past the last element keeps the elements and adds one. *)
Lemma holds_snoc p v m l x (w' : World Heap) :
  1 ≤ sizeof_T p →
  size_ v < SIZE_MAX →
  holds p v m l →
  holds p (mkSimpleVector (items_ v) (wrap (size_ v + 1)) (capacity_ v) (allocator_ v))
          (mkMachine w' (put_object (slot p (items_ v) (size_ v)) (Some x) (objects m)))
          (l ++ [x]).
Proof.
  intros Hs Hsize [Hlen Hobj]. split.
  - cbn [size_]. rewrite length_app, Nat2Z.inj_add, wrap_small; cbn [length]; lia.
  - intros i y Hi. cbn [items_ objects].
    destruct (lookup_app_Some l [x] i y) as [Hcases _].
    destruct (Hcases Hi) as [Hold | [Hge Hnew]].
    + pose proof (lookup_lt_Some _ _ _ Hold) as Hlt.
      rewrite put_object_other; [by apply Hobj|].
      intros Heq%(slot_inj p); [lia|done].
    + apply list_lookup_singleton_Some in Hnew as [Hidx ->].
      replace (Z.of_nat i) with (size_ v) by lia. apply put_object_same.
Qed.

End VectorFacts.

(** X19: [PushBack] on a vector with spare capacity appends a copy of the
    object its argument refers to and touches nothing else: the elements
    already held, the storage, the capacity and the whole world of the
    allocator stay as they were, and no allocator call is made.  The
    argument may refer to any live object, an element of the vector
    included. *)
Theorem PushBack_within_capacity
    {Heap : Type} `{!SystemAllocator Heap} {T : Type}
    (p : Policy) (item : pointer) (x : T) (v : SimpleVector)
    (m : Machine Heap T) (l : list T) :
  holds p v m l →
  1 ≤ sizeof_T p →
  size_ v < capacity_ v ≤ SIZE_MAX →
  objects m item = Some x →
  ∃ v' m',
    PushBack p item (v, m) = Some (Ret tt (v', m'))
    ∧ holds p v' m' (l ++ [x])
    ∧ items_ v' = items_ v
    ∧ capacity_ v' = capacity_ v
    ∧ world m' = world m.
Proof.
  intros Hholds Hs Hcap Hitem. unfold PushBack.
  destruct (Z.ltb_spec (size_ v) (capacity_ v)) as [_|]; [|lia].
  unfold construct_at_end, copy_construct. rewrite Hitem.
  eexists _, _. split; [reflexivity|]. split; [|done].
  apply holds_snoc; [done|lia|done].
Qed.

(** X20: when the vector is full and the allocator throws, [PushBack]
    throws the same exception and gives the strong guarantee: the vector
    members and every constructed object are as before the call, whatever
    the argument refers to. *)
Theorem PushBack_allocation_failure
    {Heap : Type} `{!SystemAllocator Heap} {T : Type}
    (p : Policy) (item : pointer) (v : SimpleVector) (m : Machine Heap T)
    (e : exn) (w' : World Heap) :
  capacity_ v ≤ size_ v →
  allocate p (allocator_ v) (next_capacity v) (world m) = Throw e w' →
  PushBack p item (v, m) = Some (Throw e (v, mkMachine w' (objects m))).
Proof.
  intros Hfull Hthrow. unfold PushBack.
  destruct (Z.ltb_spec (size_ v) (capacity_ v)) as [|_]; [lia|].
  unfold bindB, defined, resize_storage, bind, vec_allocate.
  fold (next_capacity v). by rewrite Hthrow.
Qed.

(** X21: [At] throws [out_of_range] exactly for the indices from the size
    on, and for every smaller index refers to the element at that index. *)
Theorem At_checks_bounds
    {Heap : Type} `{!SystemAllocator Heap} {T : Type}
    (p : Policy) (v : SimpleVector) (m : Machine Heap T) (l : list T) :
  holds p v m l →
  (∀ index, At p v index = out_of_range ↔ Z.of_nat (length l) ≤ index)
  ∧ (∀ (i : nat) (x : T), l !! i = Some x →
       ∃ q, At p v (Z.of_nat i) = Reference q ∧ objects m q = Some x).
Proof.
  intros [Hlen Hobj]. split.
  - intros index. unfold At. rewrite Hlen.
    destruct (Z.leb_spec (Z.of_nat (length l)) index); [done|]. split; [done|lia].
  - intros i x Hi. pose proof (lookup_lt_Some _ _ _ Hi) as Hlt.
    exists (slot p (items_ v) (Z.of_nat i)). split; [|by apply Hobj].
    unfold At. rewrite Hlen.
    by destruct (Z.leb_spec (Z.of_nat (length l)) (Z.of_nat i)); [lia|].
Qed.

(** X22: [PopBack] on an empty vector does nothing; otherwise it destroys
    the last element and keeps the others.  In both cases the storage and
    its capacity stay, and the allocator is not called. *)
Theorem PopBack_drops_last
    {Heap : Type} `{!SystemAllocator Heap} {T : Type}
    (p : Policy) (v : SimpleVector) (m : Machine Heap T) (l : list T) :
  holds p v m l →
  1 ≤ sizeof_T p →
  size_ v ≤ SIZE_MAX →
  (l = [] → PopBack p (v, m) = (v, m))
  ∧ holds p (fst (PopBack p (v, m))) (snd (PopBack p (v, m))) (removelast l)
  ∧ (l ≠ [] →
     objects (snd (PopBack p (v, m)))
             (slot p (items_ v) (Z.of_nat (length l) - 1)) = None)
  ∧ items_ (fst (PopBack p (v, m))) = items_ v
  ∧ capacity_ (fst (PopBack p (v, m))) = capacity_ v
  ∧ world (snd (PopBack p (v, m))) = world m.
Proof.
  intros [Hlen Hobj] Hs Hsize. unfold PopBack, IsEmpty.
  destruct (Z.eqb_spec (size_ v) 0) as [Hz|Hnz]; cbn [negb fst snd].
  - assert (l = []) as -> by (destruct l; [done|cbn in Hlen; lia]).
    repeat split; try done.
  - assert (l ≠ []) as Hne by (intros ->; cbn in Hlen; lia).
    split; [done|]. split; [|split; [|done]].
    + split.
      * cbn [size_]. rewrite removelast_firstn_len, length_take, wrap_small; lia.
      * intros i x Hi. cbn [items_ objects].
        rewrite removelast_firstn_len in Hi.
        apply lookup_take_Some in Hi as [Hi Hlt].
        rewrite put_object_other; [by apply Hobj|].
        intros Heq%(slot_inj p); [lia|done].
    + intros _. cbn [objects]. rewrite <- Hlen. apply put_object_same.
Qed.

Section Relocation.
Context {Heap : Type} `{!SystemAllocator Heap} {T : Type}.
Implicit Types (p : Policy) (v : SimpleVector) (m : Machine Heap T) (l : list T)
  (objs : pointer → option T).

(** The loop of [resize_storage] over indices [i .. i + count - 1], when no
    new element address is an old one: every element arrives, every old
    element is destroyed, and no other address is written. *)
Lemma relocate_spec p count :
  1 ≤ sizeof_T p →
  ∀ i src dst objs,
    0 ≤ i →
    i + Z.of_nat count ≤ SIZE_MAX →
    (∀ a b, i ≤ a < i + Z.of_nat count → i ≤ b < i + Z.of_nat count →
            slot p dst a ≠ slot p src b) →
    (∀ a, i ≤ a < i + Z.of_nat count →
          relocate p count i src dst objs (slot p dst a) = objs (slot p src a))
    ∧ (∀ a, i ≤ a < i + Z.of_nat count →
            relocate p count i src dst objs (slot p src a) = None)
    ∧ (∀ r, (∀ a, i ≤ a < i + Z.of_nat count →
                  r ≠ slot p dst a ∧ r ≠ slot p src a) →
            relocate p count i src dst objs r = objs r).
Proof.
  intros Hs. induction count as [|count IH]; intros i src dst objs Hi Hfit Hapart.
  { cbn [relocate]. repeat split; intros; lia || done. }
  cbn [relocate]. rewrite (wrap_small (i + 1)) by lia.
  set (objs1 := put_object (slot p src i) None
                  (put_object (slot p dst i) (objs (slot p src i)) objs)).
  destruct (IH (i + 1) src dst objs1) as (Hdst & Hsrc & Hrest); [lia|lia| |].
  { intros a b Ha Hb. apply Hapart; lia. }
  assert (∀ a, a ≠ i → slot p src a ≠ slot p src i) as Hsrc_ne.
  { intros a Hne Heq%(slot_inj p); done. }
  assert (∀ a, a ≠ i → slot p dst a ≠ slot p dst i) as Hdst_ne.
  { intros a Hne Heq%(slot_inj p); done. }
  split; [|split].
  - intros a Ha. destruct (Z.eq_dec a i) as [->|Hne].
    + rewrite Hrest.
      * unfold objs1. rewrite put_object_other by (apply Hapart; lia).
        apply put_object_same.
      * intros a Ha'. split; [apply not_eq_sym, Hdst_ne; lia|apply Hapart; lia].
    + rewrite Hdst by lia. unfold objs1.
      rewrite put_object_other by (apply Hsrc_ne; lia).
      apply put_object_other. apply not_eq_sym, Hapart; lia.
  - intros a Ha. destruct (Z.eq_dec a i) as [->|Hne].
    + rewrite Hrest; [apply put_object_same|].
      intros a Ha'. split; [apply not_eq_sym, Hapart; lia|].
      apply not_eq_sym, Hsrc_ne; lia.
    + apply Hsrc. lia.
  - intros r Hr. rewrite Hrest.
    + unfold objs1. destruct (Hr i ltac:(lia)) as [Hrd Hrs].
      by rewrite !put_object_other.
    + intros a Ha. apply Hr. lia.
Qed.

(** [resize_storage] on a vector that holds [l], given what the allocator
    returned. *)
Lemma resize_storage_holds p v m l n q (w' : World Heap) :
  1 ≤ sizeof_T p →
  size_ v ≤ SIZE_MAX →
  holds p v m l →
  allocate p (allocator_ v) n (world m) = Ret q w' →
  apart p q (items_ v) (length l) →
  ∃ m',
    resize_storage p n (v, m)
    = Ret tt (mkSimpleVector q (size_ v) n (allocator_ v), m')
    ∧ holds p (mkSimpleVector q (size_ v) n (allocator_ v)) m' l
    ∧ world m' = (if items_ v =? nullptr then w'
                  else deallocate p (allocator_ v) (items_ v) (capacity_ v) w')
    ∧ (∀ r, (∀ i : nat, (i < length l)%nat →
                r ≠ slot p q (Z.of_nat i) ∧ r ≠ slot p (items_ v) (Z.of_nat i)) →
            objects m' r = objects m r)
    ∧ (∀ i : nat, (i < length l)%nat →
         objects m' (slot p (items_ v) (Z.of_nat i)) = None).
Proof.
  intros Hs Hsize [Hlen Hobj] Halloc Hapart.
  unfold resize_storage, bind, vec_allocate. rewrite Halloc. cbn [items_ size_
    capacity_ allocator_ world objects].
  eexists. split; [reflexivity|].
  rewrite Hlen, Nat2Z.id.
  destruct (relocate_spec p (length l) Hs 0 (items_ v) q (objects m))
    as (Hdst & Hsrc & Hrest); [lia|lia| |].
  { intros a b Ha Hb.
    replace a with (Z.of_nat (Z.to_nat a)) by lia.
    replace b with (Z.of_nat (Z.to_nat b)) by lia. apply Hapart; lia. }
  split; [|split; [done|split]].
  - split; [done|]. intros i x Hi. cbn [items_ objects].
    pose proof (lookup_lt_Some _ _ _ Hi) as Hlt.
    rewrite Hdst by lia. by apply Hobj.
  - intros r Hr. cbn [objects]. apply Hrest. intros a Ha.
    replace a with (Z.of_nat (Z.to_nat a)) by lia. apply Hr. lia.
  - intros i Hi. cbn [objects]. apply Hsrc. lia.
Qed.

End Relocation.

(** X23: [PushBack] on a full vector asks the allocator for storage of
    twice the capacity (of one element when the capacity is zero) and
    moves the elements there before it reads its argument.  When the
    allocator returns storage that shares no element address with the
    elements held, and the argument refers to an object outside the old
    elements and the places they move to, the vector afterwards holds the
    old elements followed by a copy of that object, in the new storage
    with the new capacity.  When the argument refers to an element of the
    vector itself, that element has been destroyed by the time it is
    read: the behaviour is undefined. *)
Theorem PushBack_grows
    {Heap : Type} `{!SystemAllocator Heap} {T : Type}
    (p : Policy) (item : pointer) (x : T) (v : SimpleVector)
    (m : Machine Heap T) (l : list T) (q : pointer) (w' : World Heap) :
  holds p v m l →
  1 ≤ sizeof_T p →
  capacity_ v ≤ size_ v < SIZE_MAX →
  allocate p (allocator_ v) (next_capacity v) (world m) = Ret q w' →
  apart p q (items_ v) (length l) →
  objects m item = Some x →
  ((∀ i : nat, (i < length l)%nat →
      item ≠ slot p q (Z.of_nat i) ∧ item ≠ slot p (items_ v) (Z.of_nat i)) →
   ∃ m',
     PushBack p item (v, m)
     = Some (Ret tt (mkSimpleVector q (size_ v + 1) (next_capacity v) (allocator_ v),
                     m'))
     ∧ world m' = (if items_ v =? nullptr then w'
                   else deallocate p (allocator_ v) (items_ v) (capacity_ v) w')
     ∧ holds p (mkSimpleVector q (size_ v + 1) (next_capacity v) (allocator_ v)) m'
             (l ++ [x]))
  ∧ (∀ i : nat, (i < length l)%nat →
       item = slot p (items_ v) (Z.of_nat i) →
       PushBack p item (v, m) = None).
Proof.
  intros Hholds Hs Hfull Halloc Hapart Hitem. unfold PushBack.
  destruct (Z.ltb_spec (size_ v) (capacity_ v)) as [|_]; [lia|].
  fold (next_capacity v).
  destruct (resize_storage_holds p v m l (next_capacity v) q w')
    as (m1 & Hrun & Hholds1 & Hw & Hrest & Hgone); [done|lia|done..|].
  pose proof Hholds as [Hlen _].
  unfold bindB, defined. rewrite Hrun. unfold construct_at_end, copy_construct.
  cbn [items_ size_ capacity_ allocator_].
  split.
  - intros Hout. rewrite (Hrest item Hout), Hitem.
    rewrite (wrap_small (size_ v + 1)) by lia.
    eexists. split; [reflexivity|]. split; [done|].
    pose proof (holds_snoc p
                  (mkSimpleVector q (size_ v) (next_capacity v) (allocator_ v))
                  m1 l x (world m1) Hs ltac:(cbn; lia) Hholds1) as Hsnoc.
    cbn [items_ size_ capacity_ allocator_] in Hsnoc.
    by rewrite wrap_small in Hsnoc by lia.
  - intros i Hi ->. by rewrite (Hgone i Hi).
Qed.

(** X24: [Vector_Reserve] never lowers the capacity and never changes the
    elements: a request within the capacity does nothing at all; a larger
    one moves the elements to storage of exactly the requested capacity,
    provided the allocator returns storage apart from the old one, and
    throws what the allocator throws otherwise, leaving vector and objects
    untouched. *)
Theorem Reserve_keeps_elements
    {Heap : Type} `{!SystemAllocator Heap} {T : Type}
    (p : Policy) (n : Z) (v : SimpleVector) (m : Machine Heap T) (l : list T) :
  holds p v m l →
  1 ≤ sizeof_T p →
  size_ v ≤ SIZE_MAX →
  (n ≤ capacity_ v → Vector_Reserve p n (v, m) = Ret tt (v, m))
  ∧ (∀ q w', capacity_ v < n →
       allocate p (allocator_ v) n (world m) = Ret q w' →
       apart p q (items_ v) (length l) →
       ∃ v' m', Vector_Reserve p n (v, m) = Ret tt (v', m')
                ∧ holds p v' m' l
                ∧ capacity_ v' = n
                ∧ items_ v' = q)
  ∧ (∀ e w', capacity_ v < n →
       allocate p (allocator_ v) n (world m) = Throw e w' →
       Vector_Reserve p n (v, m) = Throw e (v, mkMachine w' (objects m))).
Proof.
  intros Hholds Hs Hsize. unfold Vector_Reserve. split; [|split].
  - intros Hle. by destruct (Z.ltb_spec (capacity_ v) n) as [|_]; [lia|].
  - intros q w' Hlt Halloc Hapart.
    destruct (Z.ltb_spec (capacity_ v) n) as [_|]; [|lia].
    destruct (resize_storage_holds p v m l n q w')
      as (m1 & Hrun & Hholds1 & _); [done..|].
    eexists _, _. split; [exact Hrun|]. by split.
  - intros e w' Hlt Halloc.
    destruct (Z.ltb_spec (capacity_ v) n) as [_|]; [|lia].
    unfold resize_storage, bind, vec_allocate. by rewrite Halloc.
Qed.

Section Clearing.
Context {Heap : Type} `{!SystemAllocator Heap} {T : Type}.
Implicit Types (p : Policy) (v : SimpleVector) (m : Machine Heap T) (l : list T)
  (objs : pointer → option T).

Lemma destroy_from_spec p count :
  1 ≤ sizeof_T p →
  ∀ i base objs,
    0 ≤ i →
    i + Z.of_nat count ≤ SIZE_MAX →
    (∀ a, i ≤ a < i + Z.of_nat count →
          destroy_from p count i base objs (slot p base a) = None)
    ∧ (∀ r, (∀ a, i ≤ a < i + Z.of_nat count → r ≠ slot p base a) →
            destroy_from p count i base objs r = objs r).
Proof.
  intros Hs. induction count as [|count IH]; intros i base objs Hi Hfit.
  { cbn [destroy_from]. split; intros; lia || done. }
  cbn [destroy_from]. rewrite (wrap_small (i + 1)) by lia.
  destruct (IH (i + 1) base (put_object (slot p base i) None objs))
    as [Hin Hout]; [lia|lia|].
  split.
  - intros a Ha. destruct (Z.eq_dec a i) as [->|Hne]; [|apply Hin; lia].
    rewrite Hout; [apply put_object_same|].
    intros a Ha' Heq%(slot_inj p); [lia|done].
  - intros r Hr. rewrite Hout by (intros a Ha; apply Hr; lia).
    apply put_object_other. apply Hr. lia.
Qed.

End Clearing.

(** X25: [Clear] destroys every element and nothing else, and keeps the
    storage: the vector is empty, its capacity and storage are the same,
    no object outside the vector is touched and the allocator is not
    called. *)
Theorem Clear_keeps_storage
    {Heap : Type} `{!SystemAllocator Heap} {T : Type}
    (p : Policy) (v : SimpleVector) (m : Machine Heap T) (l : list T) :
  holds p v m l →
  1 ≤ sizeof_T p →
  size_ v ≤ SIZE_MAX →
  holds p (fst (Clear p (v, m))) (snd (Clear p (v, m))) []
  ∧ (∀ i : nat, (i < length l)%nat →
       objects (snd (Clear p (v, m))) (slot p (items_ v) (Z.of_nat i)) = None)
  ∧ (∀ r, (∀ i : nat, (i < length l)%nat → r ≠ slot p (items_ v) (Z.of_nat i)) →
          objects (snd (Clear p (v, m))) r = objects m r)
  ∧ items_ (fst (Clear p (v, m))) = items_ v
  ∧ capacity_ (fst (Clear p (v, m))) = capacity_ v
  ∧ world (snd (Clear p (v, m))) = world m.
Proof.
  intros [Hlen Hobj] Hs Hsize. unfold Clear, destroy_elements. cbn [fst snd objects].
  rewrite Hlen, Nat2Z.id.
  destruct (destroy_from_spec p (length l) Hs 0 (items_ v) (objects m))
    as [Hin Hout]; [lia|lia|].
  split; [by split|]. split; [|split; [|done]].
  - intros i Hi. apply Hin. lia.
  - intros r Hr. apply Hout. intros a Ha.
    replace a with (Z.of_nat (Z.to_nat a)) by lia. apply Hr. lia.
Qed.

(** ** From the pool to the elements *)

Section VectorOnPool.
Context {T : Type}.
Implicit Types (p : Policy) (v : SimpleVector) (m : Machine positive T)
  (l : list T) (st : PoolState) (w : World positive).

Lemma deallocate_disabled_world p a ptr n w :
  PerElementFree p = false → deallocate p a ptr n w = w.
Proof.
  intros Hpef. unfold deallocate. destruct (ptr =? nullptr); [done|].
  destruct (get_state w a) as [sl|]; [|done].
  apply (on_pool_ret_any w sl (deallocate_in p ptr n) tt).
  intros st. by apply deallocate_in_disabled.
Qed.

Lemma pool_of_copy w a : pool_of w (CustomAllocator_copy a) = pool_of w a.
Proof. done. Qed.

(** On the system heap that never runs out, an expandable front end with
    per-element free disabled returns, for [0 < n <= max_size], a range of
    [n] elements that starts at or above the bump cursor and ends where
    the cursor then stands. *)
Lemma allocate_bump_range p n st (h : positive) :
  PerElementFree p = false →
  Expandable p = true →
  built_by p st →
  bump_inv st h →
  size (blocks st) ≤ SIZE_MAX →
  0 < n ≤ max_size p →
  ∃ q st' h',
    allocate_in p n (st, h) = Ret q (st', h')
    ∧ bump_top st ≤ q
    ∧ bump_top st' = q + n * element_size st
    ∧ 0 < q
    ∧ bump_inv st' h'
    ∧ built_by p st'
    ∧ size (blocks st') ≤ size (blocks st) + 1.
Proof.
  intros Hpef Hexp [Hc Hes] Hinv Hsize Hn.
  pose proof Hinv as (Hlen & Hidx & Hwide & Hbase0 & Hoff & Hcap & Hchunk0 & Hchunk & Hheap).
  assert (n * element_size st ≤ SIZE_MAX) as Hbytes.
  { rewrite Hes. destruct Hn as [_ Hmax]. unfold max_size in Hmax.
    pose proof (Z.mul_div_le SIZE_MAX (sizeof_T p)). nia. }
  assert (blocks st ≠ []) as Hne.
  { intros Hnil. rewrite Hnil in Hidx. unfold size in Hidx. cbn in Hidx. lia. }
  assert (current_offset st + n ≤ SIZE_MAX) as Hnowrap.
  { rewrite SIZE_MAX_eq in *. nia. }
  assert (0 < n * element_size st) as Hpos by nia.
  assert (current_offset st * element_size st
          ≤ at_index (block_elems st) (current_block_index st) * element_size st)
    as Hused by nia.
  rewrite allocate_in_cases. cbv zeta. rewrite Hpef, Hexp. cbn [andb negb].
  destruct (Z.eqb_spec n 0) as [|_]; [lia|].
  destruct (Z.ltb_spec (max_size p) n) as [|_]; [lia|].
  change (negb (nullptr =? nullptr)) with false. cbv iota.
  destruct (current_block_has n st) eqn:Hhas.
  - unfold alloc_from_current. rewrite Hhas. cbn [negb].
    rewrite current_block_has_eq in Hhas by done.
    rewrite wrap_small in Hhas by lia. apply Z.leb_le in Hhas.
    rewrite (wrap_small (current_offset st + n)) by lia.
    rewrite (wrap_small (current_offset st * element_size st)) by nia.
    eexists _, _, _. split; [reflexivity|].
    unfold bump_top, bump_inv, built_by.
    cbn [blocks block_elems current_offset current_block_index element_size
         chunk_elems].
    split; [lia|]. split; [lia|]. split; [nia|].
    split; [repeat split; try done; lia|]. split; [done|lia].
  - set (want := Z.max n (chunk_elems st)).
    assert (1 ≤ want * element_size st ≤ SIZE_MAX) as Hwant.
    { subst want. destruct (Z.max_spec n (chunk_elems st)) as [[? ->]|[? ->]]; nia. }
    pose (raw := (Z.pos h : pointer)).
    unfold bind.
    rewrite (add_block_granted st h want raw
               (h + Z.to_pos (want * element_size st))%positive); [|lia|].
    2:{ split; [done|]. eexists _, _. rewrite wrap_small by lia.
        repeat split; reflexivity. }
    assert (at_index (blocks st ++ [raw]) (wrap (size (blocks st ++ [raw]) - 1))
            = raw) as Hbase by (by apply at_index_last).
    assert (at_index (block_elems st ++ [want])
                     (wrap (size (blocks st ++ [raw]) - 1)) = want) as Hcap'.
    { replace (size (blocks st ++ [raw])) with (size (block_elems st ++ [want])).
      - apply at_index_last. unfold size in *. lia.
      - unfold size. by rewrite !length_app, Hlen. }
    assert (current_block_has n (with_block st raw want) = true) as Hhas'.
    { rewrite current_block_has_eq.
      2:{ unfold with_block. cbn [blocks]. by destruct (blocks st). }
      unfold with_block.
      cbn [blocks block_elems current_offset current_block_index].
      rewrite Hcap', Z.add_0_l, wrap_small by lia. apply Z.leb_le. lia. }
    unfold alloc_from_current. rewrite Hhas'. cbn [negb].
    pose proof (with_block_indexed st raw want Hlen) as [Hlen' Hidx'].
    assert (size (blocks st ++ [raw]) = size (blocks st) + 1) as Hsize'.
    { unfold size. rewrite length_app. cbn [length]. lia. }
    eexists _, _, _. split; [reflexivity|].
    unfold bump_top, bump_inv, built_by, with_block in *.
    cbn [blocks block_elems current_offset current_block_index element_size
         chunk_elems] in *.
    rewrite Hbase, Hcap'. change (wrap (0 * element_size st)) with 0.
    rewrite Z.add_0_l, (wrap_small n) by lia.
    rewrite Pos2Z.inj_add, Z2Pos.id by lia. subst raw.
    split; [lia|]. split; [lia|]. split; [lia|].
    split; [repeat split; try done; lia|]. split; [done|lia].
Qed.

Lemma PushBack_in_pool p item x v m st l :
  PerElementFree p = false →
  Expandable p = true →
  holds p v m l →
  vector_in_pool p v m st (Z.of_nat (length l)) →
  variable_below p item v st →
  objects m item = Some x →
  size (blocks st) ≤ SIZE_MAX →
  2 * (Z.of_nat (length l) + 1) ≤ max_size p →
  ∃ v' m' st',
    PushBack p item (v, m) = Some (Ret tt (v', m'))
    ∧ holds p v' m' (l ++ [x])
    ∧ vector_in_pool p v' m' st' (Z.of_nat (length l) + 1)
    ∧ variable_below p item v' st'
    ∧ allocator_ v' = allocator_ v
    ∧ size (blocks st') ≤ size (blocks st) + 1.
Proof.
  intros Hpef Hexp Hholds (Hpool & Hbuilt & Hinv & Hend & Hitems & Hcapb)
    [Hbelow Hstore] Hitem Hblocks Hmax.
  pose proof Hholds as [Hlen _].
  pose proof Hbuilt as [_ Hes].
  pose proof Hinv as (_ & _ & Hwide & Hbase0 & Hoff & _).
  assert (2 ≤ sizeof_T p) as Hs by (by rewrite <- Hes).
  pose proof (max_size_bound p ltac:(lia)) as Hmaxb.
  unfold PushBack. destruct (Z.ltb_spec (size_ v) (capacity_ v)) as [Hroom|Hfull].
  - unfold construct_at_end, copy_construct. rewrite Hitem.
    eexists _, _, st. split; [reflexivity|].
    split; [apply holds_snoc; [lia|lia|done]|].
    split; [|split; [done|split; [done|lia]]].
    unfold vector_in_pool. cbn [world allocator_ items_ capacity_].
    do 5 (split; [done|]). right. lia.
  - fold (next_capacity v).
    assert (capacity_ v = Z.of_nat (length l)) as Hcap by lia.
    assert (0 < next_capacity v ≤ max_size p
            ∧ Z.of_nat (length l) + 1 ≤ next_capacity v
                ≤ 2 * (Z.of_nat (length l) + 1) - 1) as [Hn Hnext].
    { unfold next_capacity. destruct (Z.eqb_spec (capacity_ v) 0) as [Hz|Hnz]; [lia|].
      rewrite wrap_small by lia. lia. }
    destruct (allocate_bump_range p (next_capacity v) st (heap (world m)))
      as (q & st' & h' & Hrun & Hlo & Htop & Hq & Hinv' & Hbuilt' & Hblocks');
      [done..|].
    destruct (allocate_ret_pool p (allocator_ v) (next_capacity v) (world m)
                st q st' h' Hpool Hrun) as (w' & Hcall & Hpool' & Hheap').
    destruct (resize_storage_holds p v m l (next_capacity v) q w')
      as (m1 & Hres & Hholds1 & Hw1 & Hrest & _); [lia|lia|done|done| |].
    { intros i j Hi Hj. unfold slot in *. nia. }
    unfold bindB, defined. rewrite Hres. unfold construct_at_end, copy_construct.
    assert (world m1 = w') as Hw.
    { rewrite Hw1. destruct (items_ v =? nullptr); [done|].
      by apply deallocate_disabled_world. }
    assert (objects m1 item = Some x) as Hitem1.
    { rewrite Hrest; [done|]. intros i Hi. unfold slot. split; [nia|].
      destruct Hstore as [Hzero|Hlow]; [lia|nia]. }
    rewrite Hitem1.
    eexists _, _, st'. split; [reflexivity|].
    split.
    { apply (holds_snoc p (mkSimpleVector q (size_ v) (next_capacity v) (allocator_ v))
               m1 l x (world m1)); [lia|cbn; lia|done]. }
    split; [|split; [|split; [done|lia]]].
    + unfold vector_in_pool. cbn [world allocator_ items_ capacity_].
      rewrite Hw, Hheap'. split; [done|]. split; [done|]. split; [done|].
      split; [unfold slot; rewrite Htop, Hes; lia|]. split; [lia|]. right. lia.
    + unfold variable_below. cbn [items_ capacity_]. split; [|right; lia].
      rewrite Htop. nia.
Qed.

(** The caller changing its variable does not reach into the vector. *)
Lemma assign_variable_below p item (x : T) v m st l :
  holds p v m l →
  vector_in_pool p v m st (Z.of_nat (length l)) →
  variable_below p item v st →
  holds p v (mkMachine (world m) (put_object item (Some x) (objects m))) l
  ∧ vector_in_pool p v (mkMachine (world m) (put_object item (Some x) (objects m)))
                   st (Z.of_nat (length l)).
Proof.
  intros [Hlen Hobj] Hin [Hbelow Hstore]. split; [|done].
  split; [done|]. intros i y Hi. cbn [objects].
  pose proof (lookup_lt_Some _ _ _ Hi) as Hlt.
  destruct Hin as (_ & [_ Hes] & Hinv & _ & _ & Hcapb).
  destruct Hinv as (_ & _ & Hwide & _).
  rewrite put_object_other; [by apply Hobj|].
  unfold slot. rewrite <- Hes. destruct Hstore as [Hzero|Hlow]; [lia|nia].
Qed.

Lemma push_all_in_pool p item xs :
  PerElementFree p = false →
  Expandable p = true →
  ∀ l v m st,
    holds p v m l →
    vector_in_pool p v m st (Z.of_nat (length l)) →
    variable_below p item v st →
    size (blocks st) + Z.of_nat (length xs) ≤ SIZE_MAX →
    2 * Z.of_nat (length l + length xs) ≤ max_size p →
    ∃ v' m' st',
      push_all p item xs (v, m) = Some (Ret tt (v', m'))
      ∧ holds p v' m' (l ++ xs)
      ∧ vector_in_pool p v' m' st' (Z.of_nat (length (l ++ xs)))
      ∧ allocator_ v' = allocator_ v.
Proof.
  intros Hpef Hexp.
  induction xs as [|x xs IH]; intros l v m st Hholds Hin Hbelow Hblocks Hmax.
  { exists v, m, st. rewrite app_nil_r. done. }
  cbn [length] in *.
  destruct (assign_variable_below p item x v m st l Hholds Hin Hbelow)
    as [Hholds0 Hin0].
  destruct (PushBack_in_pool p item x v
              (mkMachine (world m) (put_object item (Some x) (objects m))) st l)
    as (v1 & m1 & st1 & Hrun & Hholds1 & Hin1 & Hbelow1 & Ha1 & Hb1);
    [done..|cbn [objects]; apply put_object_same|lia|lia|].
  destruct (IH (l ++ [x]) v1 m1 st1) as (v' & m' & st' & Hrest & Hholds' & Hin' & Ha');
    [done| |done| | |].
  { by rewrite length_app, Nat2Z.inj_add. }
  { lia. }
  { rewrite length_app. cbn [length]. lia. }
  exists v', m', st'. cbn [push_all]. unfold bindB, defined, assign_variable.
  rewrite Hrun.
  rewrite <- app_assoc in Hholds', Hin'. cbn [app] in Hholds', Hin'.
  split; [done|]. split; [done|]. split; [done|]. by rewrite Ha'.
Qed.

End VectorOnPool.

(** X26: a vector on an expandable front end with per-element free
    disabled, over elements at least two bytes wide and a system heap that
    never runs out and hands out increasing addresses, holds what is pushed
    into it.  The caller pushes one variable of its own, which lies below
    the bump cursor of the pool and so outside everything the pool hands
    out, giving it each value of [xs] in turn: starting empty, every
    [PushBack] returns and the vector ends up holding exactly [xs], in
    order, with a capacity below twice their number, whatever number of
    times its storage was moved inside the pool. *)
Theorem vector_on_pool_holds_pushes
    {T : Type} (p : Policy) (a : CustomAllocator) (item : pointer) (xs : list T)
    (w : World positive) (objs : pointer → option T) (st : PoolState) :
  PerElementFree p = false →
  Expandable p = true →
  pool_of w a = Some st →
  built_by p st →
  bump_inv st (heap w) →
  size (blocks st) + Z.of_nat (length xs) ≤ SIZE_MAX →
  2 * Z.of_nat (length xs) ≤ max_size p →
  item < bump_top st →
  ∃ (v : SimpleVector) (m : Machine positive T),
    push_all p item xs (SimpleVector_on a, mkMachine w objs) = Some (Ret tt (v, m))
    ∧ holds p v m xs
    ∧ Z.of_nat (length xs) ≤ capacity_ v ≤ Z.max 0 (2 * Z.of_nat (length xs) - 1)
    ∧ allocator_eq (world m) (allocator_ v) a = true.
Proof.
  intros Hpef Hexp Hpool Hbuilt Hinv Hblocks Hmax Hbelow.
  pose proof Hinv as (_ & _ & Hwide & Hbase0 & Hoff & _).
  destruct (push_all_in_pool p item xs Hpef Hexp [] (SimpleVector_on a)
              (mkMachine w objs) st)
    as (v & m & st' & Hrun & Hholds & Hin & Ha); [| | |done|done|].
  { split; [done|]. intros i x Hi. by destruct i. }
  { unfold vector_in_pool, SimpleVector_on, slot, bump_top.
    cbn [world allocator_ items_ capacity_ length].
    rewrite pool_of_copy. do 3 (split; [done|]). unfold nullptr.
    split; [nia|]. split; [done|]. by left. }
  { split; [done|]. by left. }
  exists v, m. split; [done|]. split; [done|].
  destruct Hin as (_ & _ & _ & _ & _ & Hcap). cbn [app] in Hcap.
  split; [lia|]. rewrite Ha. unfold allocator_eq. by apply bool_decide_eq_true.
Qed.

(** ** The sample vectors *)

Lemma sample_vector_holds : holds int_policy sample_vector sample_machine [7; 8].
Proof.
  split; [reflexivity|]. intros i x Hi.
  destruct i as [|[|i]]; cbn in Hi; [injection Hi as <-..|discriminate]; reflexivity.
Qed.

Lemma full_vector_holds : holds int_policy full_vector full_machine [7; 8].
Proof.
  split; [reflexivity|]. intros i x Hi.
  destruct i as [|[|i]]; cbn in Hi; [injection Hi as <-..|discriminate]; reflexivity.
Qed.

Lemma caller_machine_holds : holds int_policy sample_vector caller_machine [7; 8].
Proof.
  split; [reflexivity|]. intros i x Hi.
  destruct i as [|[|i]]; cbn in Hi; [injection Hi as <-..|discriminate]; reflexivity.
Qed.

Lemma full_caller_machine_holds :
  holds int_policy full_vector full_caller_machine [7; 8].
Proof.
  split; [reflexivity|]. intros i x Hi.
  destruct i as [|[|i]]; cbn in Hi; [injection Hi as <-..|discriminate]; reflexivity.
Qed.

Lemma PushBack_within_capacity_witness :
  ∃ v' m',
    PushBack int_policy 8000 (sample_vector, caller_machine) = Some (Ret tt (v', m'))
    ∧ holds int_policy v' m' [7; 8; 9].
Proof.
  destruct (PushBack_within_capacity int_policy 8000 9 sample_vector caller_machine
              [7; 8])
    as (v' & m' & Hrun & Hholds & _).
  - exact caller_machine_holds.
  - vm_compute. discriminate.
  - vm_compute. split; [reflexivity|discriminate].
  - reflexivity.
  - exists v', m'. split; [exact Hrun|exact Hholds].
Defined.

Lemma PushBack_allocation_failure_witness :
  PushBack fixed_int_policy 8000 (full_vector, full_caller_machine)
  = Some (Throw bad_alloc (full_vector, full_caller_machine)).
Proof.
  apply (PushBack_allocation_failure fixed_int_policy 8000 full_vector
           full_caller_machine bad_alloc (world full_caller_machine)).
  - vm_compute. discriminate.
  - reflexivity.
Defined.

Lemma At_checks_bounds_witness :
  At int_policy sample_vector 2 = out_of_range.
Proof.
  apply (proj1 (At_checks_bounds int_policy sample_vector sample_machine [7; 8]
                  sample_vector_holds) 2).
  reflexivity.
Defined.

Lemma PopBack_drops_last_witness :
  holds int_policy (fst (PopBack int_policy (sample_vector, sample_machine)))
        (snd (PopBack int_policy (sample_vector, sample_machine))) [7].
Proof.
  refine (proj1 (proj2 (PopBack_drops_last int_policy sample_vector sample_machine
                          [7; 8] sample_vector_holds _ _))).
  - vm_compute. discriminate.
  - vm_compute. discriminate.
Defined.

Lemma PushBack_grows_witness :
  (∃ m',
     PushBack int_policy 8000 (full_vector, full_caller_machine)
     = Some (Ret tt (mkSimpleVector 4136 3 4 first_allocator, m'))
     ∧ holds int_policy (mkSimpleVector 4136 3 4 first_allocator) m' [7; 8; 9])
  ∧ PushBack int_policy 4096 (full_vector, full_caller_machine) = None.
Proof.
  split.
  - destruct (proj1 (PushBack_grows int_policy 8000 9 full_vector
                       full_caller_machine [7; 8] 4136
                       (world_of_pool
                          (with_offset (with_block full_int_pool 4136 10) 4)
                          4176%positive)
                       full_caller_machine_holds ltac:(vm_compute; discriminate)
                       ltac:(vm_compute; split; [discriminate|reflexivity])
                       eq_refl ltac:(intros i j Hi Hj; unfold slot; cbn in *; lia)
                       eq_refl))
      as (m' & Hrun & _ & Hholds).
    + intros i Hi. unfold slot. cbn in *. lia.
    + exists m'. split; [exact Hrun|exact Hholds].
  - apply (proj2 (PushBack_grows int_policy 4096 7 full_vector
                    full_caller_machine [7; 8] 4136
                    (world_of_pool
                       (with_offset (with_block full_int_pool 4136 10) 4)
                       4176%positive)
                    full_caller_machine_holds ltac:(vm_compute; discriminate)
                    ltac:(vm_compute; split; [discriminate|reflexivity])
                    eq_refl ltac:(intros i j Hi Hj; unfold slot; cbn in *; lia)
                    eq_refl) 0%nat).
    + cbn. lia.
    + reflexivity.
Defined.

Lemma Reserve_keeps_elements_witness :
  Vector_Reserve int_policy 3 (sample_vector, sample_machine)
  = Ret tt (sample_vector, sample_machine).
Proof.
  refine (proj1 (Reserve_keeps_elements int_policy 3 sample_vector sample_machine
                   [7; 8] sample_vector_holds _ _) _).
  - vm_compute. discriminate.
  - vm_compute. discriminate.
  - vm_compute. discriminate.
Defined.

Lemma Clear_keeps_storage_witness :
  holds int_policy (fst (Clear int_policy (sample_vector, sample_machine)))
        (snd (Clear int_policy (sample_vector, sample_machine))) []
  ∧ capacity_ (fst (Clear int_policy (sample_vector, sample_machine))) = 4.
Proof.
  destruct (Clear_keeps_storage int_policy sample_vector sample_machine [7; 8])
    as (Hholds & _ & _ & _ & Hcap & _).
  - exact sample_vector_holds.
  - vm_compute. discriminate.
  - vm_compute. discriminate.
  - split; [exact Hholds|exact Hcap].
Defined.

(** The ten [PushBack] calls of [main], on a fresh
    [CustomAllocator<int, 10>]. *)
Lemma vector_on_pool_holds_pushes_witness :
  ∃ (v : SimpleVector) (m : Machine positive Z),
    push_all int_policy 64 [0; 1; 2; 3; 4; 5; 6; 7; 8; 9]
             (SimpleVector_on first_allocator,
              mkMachine (world_of_pool fresh_int_pool 4136%positive) (λ _, None))
    = Some (Ret tt (v, m))
    ∧ holds int_policy v m [0; 1; 2; 3; 4; 5; 6; 7; 8; 9].
Proof.
  destruct (vector_on_pool_holds_pushes int_policy first_allocator 64
              [0; 1; 2; 3; 4; 5; 6; 7; 8; 9]
              (world_of_pool fresh_int_pool 4136%positive) (λ _, None)
              fresh_int_pool)
    as (v & m & Hrun & Hholds & _).
  - reflexivity.
  - reflexivity.
  - reflexivity.
  - exact (proj1 fresh_int_pool_bump_inv).
  - exact (proj2 fresh_int_pool_bump_inv).
  - vm_compute. discriminate.
  - vm_compute. discriminate.
  - reflexivity.
  - exists v, m. split; [exact Hrun|exact Hholds].
Defined.

(** ** Erasing, resizing, comparing *)

Section MoreVectorFacts.
Context {Heap : Type} `{!SystemAllocator Heap} {T : Type}.
Implicit Types (p : Policy) (v : SimpleVector) (m : Machine Heap T) (l : list T)
  (objs : pointer → option T) (mf : T → T).

Lemma move_assign_live mf dst src objs (y x : T) :
  objs dst = Some y →
  objs src = Some x →
  move_assign mf dst src objs
  = Some (put_object src (Some (mf x)) (put_object dst (Some x) objs)).
Proof. intros Hdst Hsrc. unfold move_assign. by rewrite Hdst, Hsrc. Qed.

Lemma move_assign_dead mf dst src objs :
  objs dst = None → move_assign mf dst src objs = None.
Proof. intros Hdst. unfold move_assign. by rewrite Hdst. Qed.

(** The constructing loop of [Resize], reading a live object: every place
    of the range receives a copy, and nothing else is written. *)
Lemma fill_from_spec p count value (x : T) :
  1 ≤ sizeof_T p →
  ∀ i base objs,
    0 ≤ i →
    i + Z.of_nat count ≤ SIZE_MAX →
    objs value = Some x →
    ∃ filled,
      fill_from p count i base value objs = Some filled
      ∧ (∀ a, i ≤ a < i + Z.of_nat count → filled (slot p base a) = Some x)
      ∧ (∀ r, (∀ a, i ≤ a < i + Z.of_nat count → r ≠ slot p base a) →
              filled r = objs r).
Proof.
  intros Hs. induction count as [|count IH]; intros i base objs Hi Hfit Hval.
  { exists objs. cbn [fill_from]. split; [done|]. split; intros; lia || done. }
  cbn [fill_from]. unfold copy_construct. rewrite Hval.
  rewrite (wrap_small (i + 1)) by lia.
  destruct (IH (i + 1) base (put_object (slot p base i) (Some x) objs))
    as (filled & Hrun & Hin & Hout); [lia|lia| |].
  { unfold put_object. by destruct (value =? slot p base i). }
  exists filled. split; [done|]. split.
  - intros a Ha. destruct (Z.eq_dec a i) as [->|Hne]; [|apply Hin; lia].
    rewrite Hout; [apply put_object_same|].
    intros a Ha' Heq%(slot_inj p); [lia|done].
  - intros r Hr. rewrite Hout by (intros a Ha; apply Hr; lia).
    apply put_object_other. apply Hr. lia.
Qed.

Lemma equal_from_spec `{!EqDecision T} p count :
  ∀ i lhs rhs objs,
    equal_from p count i lhs rhs objs = true
    ↔ ∀ k, 0 ≤ k < Z.of_nat count →
           objs (slot p lhs (i + k)) = objs (slot p rhs (i + k)).
Proof.
  induction count as [|count IH]; intros i lhs rhs objs.
  { cbn [equal_from]. split; [intros _ k Hk; lia|done]. }
  cbn [equal_from].
  destruct (decide (objs (slot p lhs i) = objs (slot p rhs i))) as [Heq|Hne].
  - rewrite IH. split.
    + intros Hall k Hk. destruct (Z.eq_dec k 0) as [->|Hk0].
      * by rewrite Z.add_0_r.
      * replace (i + k) with (i + 1 + (k - 1)) by lia. apply Hall. lia.
    + intros Hall k Hk. replace (i + 1 + k) with (i + (k + 1)) by lia.
      apply Hall. lia.
  - split; [done|]. intros Hall. exfalso. apply Hne.
    specialize (Hall 0 ltac:(lia)). by rewrite Z.add_0_r in Hall.
Qed.

End MoreVectorFacts.

(** X27: [Erase] destroys the element at the given index and then
    move-assigns the elements behind it one place down, the first of them
    onto the place it has just destroyed.  Erasing the last element moves
    nothing: the vector holds the elements before it, in the same storage
    with the same capacity, the allocator is not called, and the iterator
    returned is the new end.  Erasing any other element assigns to an
    object that is no longer alive: the behaviour is undefined. *)
Theorem Erase_removes_element
    {Heap : Type} `{!SystemAllocator Heap} {T : Type}
    (p : Policy) (moved_from : T → T) (i : nat) (v : SimpleVector)
    (m : Machine Heap T) (l : list T) :
  holds p v m l →
  (i < length l)%nat →
  1 ≤ sizeof_T p →
  size_ v ≤ SIZE_MAX →
  (S i = length l →
   ∃ m',
     Erase p moved_from (Z.of_nat i) (v, m)
     = Some (slot p (items_ v) (Z.of_nat i),
             (mkSimpleVector (items_ v) (size_ v - 1) (capacity_ v) (allocator_ v),
              m'))
     ∧ holds p (mkSimpleVector (items_ v) (size_ v - 1) (capacity_ v) (allocator_ v))
             m' (delete i l)
     ∧ objects m' (slot p (items_ v) (Z.of_nat i)) = None
     ∧ (∀ r, r ≠ slot p (items_ v) (Z.of_nat i) → objects m' r = objects m r)
     ∧ world m' = world m)
  ∧ ((S i < length l)%nat → Erase p moved_from (Z.of_nat i) (v, m) = None).
Proof.
  intros [Hlen Hobj] Hi Hs Hsize. unfold Erase. split.
  - intros Hlast.
    replace (size_ v - 1) with (Z.of_nat i) by lia.
    rewrite Z.eqb_refl. cbn [negb].
    replace (wrap (Z.of_nat i)) with (Z.of_nat i) by (rewrite wrap_small; lia).
    eexists. split; [reflexivity|]. cbn [objects world].
    split; [|split; [apply put_object_same|split; [|done]]].
    + split.
      * cbn [size_]. rewrite length_delete by (by apply lookup_lt_is_Some). lia.
      * intros j x Hj. cbn [items_ objects].
        assert (j < i)%nat as Hji.
        { apply lookup_lt_Some in Hj.
          rewrite length_delete in Hj by (by apply lookup_lt_is_Some). lia. }
        rewrite list_lookup_delete_lt in Hj by done.
        rewrite put_object_other; [by apply Hobj|].
        intros Heq%(slot_inj p); [lia|done].
    + intros r Hr. by apply put_object_other.
  - intros Hmore.
    destruct (Z.eqb_spec (slot p (items_ v) (Z.of_nat i))
                         (slot p (items_ v) (size_ v - 1))) as [Heq|_]; cbn [negb].
    { apply (slot_inj p) in Heq; [lia|done]. }
    destruct (Z.to_nat (size_ v - (Z.of_nat i + 1))) as [|count] eqn:Hcount; [lia|].
    cbn [move_forward]. rewrite move_assign_dead; [done|]. apply put_object_same.
Qed.

Lemma Erase_removes_element_witness :
  (∃ m', Erase int_policy (λ x, x) 1 (sample_vector, sample_machine)
         = Some (4100, (mkSimpleVector 4096 1 4 first_allocator, m'))
         ∧ holds int_policy (mkSimpleVector 4096 1 4 first_allocator) m' [7])
  ∧ Erase int_policy (λ x, x) 0 (sample_vector, sample_machine) = None.
Proof.
  split.
  - destruct (proj1 (Erase_removes_element int_policy (λ x, x) 1 sample_vector
                       sample_machine [7; 8] sample_vector_holds
                       ltac:(cbn; lia) ltac:(vm_compute; discriminate)
                       ltac:(vm_compute; discriminate)) eq_refl)
      as (m' & Hrun & Hholds & _).
    exists m'. split; [exact Hrun|exact Hholds].
  - apply (proj2 (Erase_removes_element int_policy (λ x, x) 0 sample_vector
                    sample_machine [7; 8] sample_vector_holds
                    ltac:(cbn; lia) ltac:(vm_compute; discriminate)
                    ltac:(vm_compute; discriminate))).
    cbn. lia.
Defined.

Section ResizeFacts.
Context {Heap : Type} `{!SystemAllocator Heap} {T : Type}.
Implicit Types (p : Policy) (v : SimpleVector) (m : Machine Heap T) (l : list T)
  (objs : pointer → option T).

(** Filling the positions from the old size up to [n] with copies of the
    object at [value] turns the elements [l] into [resize n x l]. *)
Lemma fill_from_holds p v m l n value (x : T) :
  1 ≤ sizeof_T p →
  holds p v m l →
  size_ v < n ≤ SIZE_MAX →
  objects m value = Some x →
  ∃ filled,
    fill_from p (Z.to_nat (n - size_ v)) (size_ v) (items_ v) value (objects m)
    = Some filled
    ∧ holds p (mkSimpleVector (items_ v) n (capacity_ v) (allocator_ v))
            (mkMachine (world m) filled) (resize (Z.to_nat n) x l).
Proof.
  intros Hs [Hlen Hobj] Hn Hval.
  destruct (fill_from_spec p (Z.to_nat (n - size_ v)) value x Hs (size_ v) (items_ v)
              (objects m)) as (filled & Hrun & Hin & Hout); [lia|lia|done|].
  exists filled. split; [done|]. split.
  { cbn [size_]. rewrite length_resize. lia. }
  intros i y Hi. cbn [items_ objects].
  pose proof (lookup_lt_Some _ _ _ Hi) as Hlt. rewrite length_resize in Hlt.
  destruct (decide (i < length l)%nat) as [Hold|Hnew].
  - rewrite lookup_resize in Hi by lia.
    rewrite Hout; [by apply Hobj|].
    intros a Ha Heq%(slot_inj p); [lia|done].
  - rewrite lookup_resize_new in Hi by lia. injection Hi as <-.
    apply Hin. lia.
Qed.

End ResizeFacts.

(** X28: [Resize] to [n] with a fill value leaves exactly the elements
    [resize n x l], [x] being the value of the live object the argument
    refers to: the first [n] of the old elements, followed by copies of
    [x] if [n] is larger than the old size.  Within the capacity the
    storage is kept and the allocator is not called.  Beyond it the
    elements move to storage of exactly [n] elements (no doubling) before
    the argument is read: the result holds when the argument refers to an
    object outside the old elements and the places they move to, and the
    behaviour is undefined when it refers to one of the old elements,
    destroyed by then.  If the allocator throws, the vector and its
    objects stay as they were. *)
Theorem Resize_sets_elements
    {Heap : Type} `{!SystemAllocator Heap} {T : Type}
    (p : Policy) (n : Z) (value : pointer) (x : T) (v : SimpleVector)
    (m : Machine Heap T) (l : list T) :
  holds p v m l →
  1 ≤ sizeof_T p →
  size_ v ≤ SIZE_MAX →
  0 ≤ n ≤ SIZE_MAX →
  objects m value = Some x →
  (n ≤ Z.max (size_ v) (capacity_ v) →
     ∃ m', Resize p n value (v, m)
           = Some (Ret tt (mkSimpleVector (items_ v) n (capacity_ v) (allocator_ v),
                           m'))
           ∧ holds p (mkSimpleVector (items_ v) n (capacity_ v) (allocator_ v)) m'
                   (resize (Z.to_nat n) x l)
           ∧ world m' = world m)
  ∧ (∀ q w', Z.max (size_ v) (capacity_ v) < n →
       allocate p (allocator_ v) n (world m) = Ret q w' →
       apart p q (items_ v) (length l) →
       ((∀ i : nat, (i < length l)%nat →
           value ≠ slot p q (Z.of_nat i) ∧ value ≠ slot p (items_ v) (Z.of_nat i)) →
        ∃ m', Resize p n value (v, m)
              = Some (Ret tt (mkSimpleVector q n n (allocator_ v), m'))
              ∧ holds p (mkSimpleVector q n n (allocator_ v)) m'
                      (resize (Z.to_nat n) x l))
       ∧ (∀ i : nat, (i < length l)%nat →
            value = slot p (items_ v) (Z.of_nat i) →
            Resize p n value (v, m) = None))
  ∧ (∀ e w', Z.max (size_ v) (capacity_ v) < n →
       allocate p (allocator_ v) n (world m) = Throw e w' →
       Resize p n value (v, m) = Some (Throw e (v, mkMachine w' (objects m)))).
Proof.
  intros Hholds Hs Hsize Hn Hval. pose proof Hholds as [Hlen Hobj].
  unfold Resize. split; [|split].
  - intros Hle. destruct (Z.ltb_spec (size_ v) n) as [Hgrow|Hkeep].
    + destruct (Z.ltb_spec (capacity_ v) n) as [|_]; [lia|].
      unfold bindB, defined, ret.
      destruct (fill_from_holds p v m l n value x Hs Hholds ltac:(lia) Hval)
        as (filled & -> & Hfilled).
      eexists. split; [reflexivity|]. split; [done|done].
    + destruct (Z.ltb_spec n (size_ v)) as [Hshrink|Hsame].
      * eexists. split; [reflexivity|]. split; [|done].
        destruct (destroy_from_spec p (Z.to_nat (size_ v - n)) Hs n (items_ v)
                    (objects m)) as [_ Hout]; [lia|lia|].
        split.
        { cbn [size_]. rewrite length_resize. lia. }
        intros i y Hi. cbn [items_ objects].
        pose proof (lookup_lt_Some _ _ _ Hi) as Hlt. rewrite length_resize in Hlt.
        rewrite lookup_resize in Hi by lia.
        rewrite Hout; [by apply Hobj|].
        intros a Ha Heq%(slot_inj p); [lia|done].
      * eexists. split; [reflexivity|]. split; [|done].
        assert (Z.to_nat n = length l) as -> by lia.
        rewrite resize_all. split; [cbn [size_]; lia|]. exact Hobj.
  - intros q w' Hlt Halloc Hapart.
    destruct (Z.ltb_spec (size_ v) n) as [_|]; [|lia].
    destruct (Z.ltb_spec (capacity_ v) n) as [_|]; [|lia].
    destruct (resize_storage_holds p v m l n q w')
      as (m1 & Hrun & Hholds1 & _ & Hrest & Hgone); [done|lia|done..|].
    unfold bindB, defined. rewrite Hrun. cbn [items_ size_ capacity_ allocator_].
    split.
    + intros Hout.
      destruct (fill_from_holds p (mkSimpleVector q (size_ v) n (allocator_ v)) m1 l n
                  value x Hs Hholds1) as (filled & Hfill & Hfilled);
        [cbn [size_]; lia|by rewrite (Hrest value Hout)|].
      cbn [items_ size_ capacity_ allocator_] in Hfill, Hfilled. rewrite Hfill.
      eexists. split; [reflexivity|done].
    + intros i Hi ->.
      destruct (Z.to_nat (n - size_ v)) as [|count] eqn:Hcount; [lia|].
      cbn [fill_from]. unfold copy_construct. by rewrite (Hgone i Hi).
  - intros e w' Hlt Halloc.
    destruct (Z.ltb_spec (size_ v) n) as [_|]; [|lia].
    destruct (Z.ltb_spec (capacity_ v) n) as [_|]; [|lia].
    unfold bindB, defined, resize_storage, bind, vec_allocate. by rewrite Halloc.
Qed.

Lemma Resize_sets_elements_witness :
  ∃ m', Resize int_policy 3 8000 (sample_vector, caller_machine)
        = Some (Ret tt (mkSimpleVector 4096 3 4 first_allocator, m'))
        ∧ holds int_policy (mkSimpleVector 4096 3 4 first_allocator) m' [7; 8; 9]
        ∧ world m' = world caller_machine.
Proof.
  refine (proj1 (Resize_sets_elements int_policy 3 8000 9 sample_vector
                   caller_machine [7; 8] caller_machine_holds _ _ _ _) _).
  - vm_compute. discriminate.
  - vm_compute. discriminate.
  - vm_compute. split; discriminate.
  - reflexivity.
  - vm_compute. discriminate.
Defined.

(** X29: [operator==] on two vectors decides equality of their element
    sequences: it answers [true] exactly when both hold the same elements in
    the same order, whatever their storage, capacities and allocators. *)
Theorem vector_eq_decides_elements
    {Heap : Type} `{!SystemAllocator Heap} {T : Type} `{!EqDecision T}
    (p : Policy) (lhs rhs : SimpleVector) (m : Machine Heap T) (l1 l2 : list T) :
  holds p lhs m l1 →
  holds p rhs m l2 →
  vector_eq p lhs rhs (objects m) = true ↔ l1 = l2.
Proof.
  intros [Hlen1 Hobj1] [Hlen2 Hobj2]. unfold vector_eq, GetSize.
  rewrite andb_true_iff, Z.eqb_eq, equal_from_spec. split.
  - intros [Hsize Hall]. apply list_eq_same_length with (length l1); [lia|lia|].
    intros i x y Hi Hx Hy.
    specialize (Hall (Z.of_nat i) ltac:(lia)). rewrite Z.add_0_l in Hall.
    rewrite (Hobj1 _ _ Hx), (Hobj2 _ _ Hy) in Hall. by injection Hall.
  - intros <-. split; [lia|]. intros k Hk. rewrite Z.add_0_l.
    destruct (l1 !! Z.to_nat k) as [x|] eqn:Hx.
    + replace k with (Z.of_nat (Z.to_nat k)) by lia.
      by rewrite (Hobj1 _ _ Hx), (Hobj2 _ _ Hx).
    + apply lookup_ge_None in Hx. lia.
Qed.

Lemma vector_eq_decides_elements_witness :
  vector_eq int_policy sample_vector full_vector (objects sample_machine) = true
  ↔ [7; 8] = [7; 8].
Proof.
  apply (vector_eq_decides_elements int_policy sample_vector full_vector
           sample_machine [7; 8] [7; 8] sample_vector_holds).
  split; [reflexivity|]. intros i x Hi. apply sample_vector_holds. exact Hi.
Defined.

(** ** Inserting *)

Lemma lookup_inserted {A : Type} (l : list A) (x : A) (i a : nat) :
  (i ≤ length l)%nat →
  (take i l ++ x :: drop i l) !! a
  = if decide (a < i)%nat then l !! a
    else if decide (a = i) then Some x else l !! Nat.pred a.
Proof.
  intros Hi. destruct (decide (a < i)%nat) as [Hlt|Hge].
  - rewrite lookup_app_l by (rewrite length_take; lia).
    by rewrite lookup_take_lt.
  - rewrite lookup_app_r by (rewrite length_take; lia).
    rewrite length_take, Nat.min_l by lia.
    destruct (decide (a = i)) as [->|Hne].
    + by rewrite Nat.sub_diag.
    + rewrite lookup_cons_ne_0, lookup_drop by lia. f_equal. lia.
Qed.

Section InsertFacts.
Context {Heap : Type} `{!SystemAllocator Heap} {T : Type}.
Implicit Types (p : Policy) (v : SimpleVector) (m : Machine Heap T) (l : list T)
  (objs : pointer → option T) (mf : T → T).

(** [std::move_backward] one place towards the back, over [count] live
    objects below position [i], onto live objects: the object [k] places
    below [i] arrives one place higher, the lowest place of the range
    keeps a live object, and nothing else is written. *)
Lemma move_backward_spec p mf count :
  1 ≤ sizeof_T p →
  ∀ i j base objs,
    j = i + 1 →
    (∀ k, 0 ≤ k ≤ Z.of_nat count → is_Some (objs (slot p base (i - k)))) →
    ∃ moved,
      move_backward p mf count i j base objs = Some moved
      ∧ (∀ k, 1 ≤ k ≤ Z.of_nat count →
              moved (slot p base (j - k)) = objs (slot p base (i - k)))
      ∧ is_Some (moved (slot p base (i - Z.of_nat count)))
      ∧ (∀ r, (∀ k, 0 ≤ k ≤ Z.of_nat count → r ≠ slot p base (i - k)) →
              moved r = objs r).
Proof.
  intros Hs. induction count as [|count IH]; intros i j base objs -> Hlive.
  { exists objs. cbn [move_backward]. split; [done|].
    split; [intros; lia|]. split; [|done].
    rewrite Z.sub_0_r. specialize (Hlive 0 ltac:(lia)). by rewrite Z.sub_0_r in Hlive. }
  cbn [move_backward]. replace (i + 1 - 1) with i by lia.
  assert (∀ a b, a ≠ b → slot p base a ≠ slot p base b) as Hslot.
  { intros a b Hne Heq%(slot_inj p); done. }
  destruct (Hlive 0 ltac:(lia)) as [y Hy]. rewrite Z.sub_0_r in Hy.
  destruct (Hlive 1 ltac:(lia)) as [x Hx].
  rewrite (move_assign_live mf _ _ objs y x Hy Hx).
  remember (put_object (slot p base (i - 1)) (Some (mf x))
              (put_object (slot p base i) (Some x) objs)) as objs1 eqn:Hobjs1.
  assert (objs1 (slot p base i) = Some x) as Htop.
  { rewrite Hobjs1, put_object_other by (apply Hslot; lia). apply put_object_same. }
  assert (objs1 (slot p base (i - 1)) = Some (mf x)) as Hnear.
  { rewrite Hobjs1. apply put_object_same. }
  assert (∀ r, r ≠ slot p base i → r ≠ slot p base (i - 1) → objs1 r = objs r)
    as Hfar.
  { intros r Hr1 Hr2. by rewrite Hobjs1, !put_object_other. }
  destruct (IH (i - 1) i base objs1) as (moved & Hrun & Hin & Hlow & Hout); [lia| |].
  { intros k Hk. destruct (Z.eq_dec k 0) as [->|Hk0].
    - rewrite Z.sub_0_r, Hnear. by eexists.
    - rewrite Hfar by (apply Hslot; lia).
      replace (i - 1 - k) with (i - (k + 1)) by lia. apply Hlive. lia. }
  exists moved. split; [done|]. split; [|split].
  - intros k Hk. destruct (Z.eq_dec k 1) as [->|Hk1].
    + replace (i + 1 - 1) with i by lia. rewrite Hout; [by rewrite Htop|].
      intros k Hk'. apply Hslot. lia.
    + replace (i + 1 - k) with (i - (k - 1)) by lia. rewrite Hin by lia.
      replace (i - 1 - (k - 1)) with (i - k) by lia.
      apply Hfar; apply Hslot; lia.
  - replace (i - Z.of_nat (S count)) with (i - 1 - Z.of_nat count) by lia. done.
  - intros r Hr. rewrite Hout.
    + apply Hfar.
      * specialize (Hr 0 ltac:(lia)). by rewrite Z.sub_0_r in Hr.
      * apply (Hr 1). lia.
    + intros k Hk. replace (i - 1 - k) with (i - (k + 1)) by lia. apply Hr. lia.
Qed.

(** The writes of [Insert] on a vector with room for one more. *)
Lemma insert_objects_holds p mf v m l (i : nat) (value : pointer) (x : T) :
  1 ≤ sizeof_T p →
  holds p v m l →
  (i ≤ length l)%nat →
  objects m value = Some x →
  (∀ k, Z.of_nat i ≤ k ≤ Z.of_nat (length l) → value ≠ slot p (items_ v) k) →
  ∃ objs',
    insert_objects p mf v (Z.of_nat i) value (objects m) = Some objs'
    ∧ ∀ (a : nat) (y : T),
        (take i l ++ x :: drop i l) !! a = Some y →
        objs' (slot p (items_ v) (Z.of_nat a)) = Some y.
Proof.
  intros Hs [Hlen Hobj] Hi Hval Hout_of.
  assert (∀ a b, a ≠ b → slot p (items_ v) a ≠ slot p (items_ v) b) as Hslot.
  { intros c d Hne Heq%(slot_inj p); done. }
  assert (∀ (a : nat) y, (take i l ++ x :: drop i l) !! a = Some y →
            (a ≤ length l)%nat
            ∧ (if decide (a < i)%nat then l !! a
               else if decide (a = i) then Some x else l !! Nat.pred a) = Some y)
    as Hcases.
  { intros a y Ha. pose proof (lookup_lt_Some _ _ _ Ha) as Hlt.
    rewrite length_app, length_take, Nat.min_l in Hlt by lia.
    cbn [length] in Hlt. rewrite length_drop in Hlt.
    rewrite lookup_inserted in Ha by done. split; [lia|done]. }
  unfold insert_objects.
  destruct (Z.eqb_spec (slot p (items_ v) (Z.of_nat i))
                       (slot p (items_ v) (size_ v))) as [Heq|Hne]; cbn [negb].
  - apply (slot_inj p) in Heq; [|done].
    unfold copy_construct. rewrite Hval. eexists. split; [reflexivity|].
    intros a y Ha. destruct (Hcases a y Ha) as [Hlt Ha'].
    destruct (decide (a < i)%nat) as [Hai|Hai].
    + rewrite put_object_other; [by apply Hobj|]. apply Hslot. lia.
    + destruct (decide (a = i)) as [->|]; [|lia].
      rewrite <- Heq, put_object_same. done.
  - assert (Z.of_nat i ≠ size_ v) as Hnl by (intros Heq; by rewrite Heq in Hne).
    destruct (lookup_lt_is_Some_2 l (Nat.pred (length l))) as [z Hz]; [lia|].
    assert (objects m (slot p (items_ v) (size_ v - 1)) = Some z) as Hlast.
    { replace (size_ v - 1) with (Z.of_nat (Nat.pred (length l))) by lia.
      by apply Hobj. }
    unfold move_construct. rewrite Hlast.
    remember (put_object (slot p (items_ v) (size_ v - 1)) (Some (mf z))
                (put_object (slot p (items_ v) (size_ v)) (Some z) (objects m)))
      as built eqn:Hbuiltdef.
    assert (built (slot p (items_ v) (size_ v)) = Some z) as Hend.
    { rewrite Hbuiltdef, put_object_other by (apply Hslot; lia).
      apply put_object_same. }
    assert (built (slot p (items_ v) (size_ v - 1)) = Some (mf z)) as Hvacated.
    { rewrite Hbuiltdef. apply put_object_same. }
    assert (∀ r, r ≠ slot p (items_ v) (size_ v) →
                 r ≠ slot p (items_ v) (size_ v - 1) → built r = objects m r)
      as Hbuilt.
    { intros r Hr1 Hr2. by rewrite Hbuiltdef, !put_object_other. }
    destruct (move_backward_spec p mf (Z.to_nat (size_ v - 1 - Z.of_nat i)) Hs
                (size_ v - 1) (size_ v) (items_ v) built)
      as (moved & Hrun & Hin & Hlow & Hout); [lia| |].
    { intros k Hk. destruct (Z.eq_dec k 0) as [->|Hk0].
      - rewrite Z.sub_0_r, Hvacated. by eexists.
      - rewrite Hbuilt by (apply Hslot; lia).
        destruct (lookup_lt_is_Some_2 l (Z.to_nat (size_ v - 1 - k))) as [u Hu]; [lia|].
        exists u. replace (size_ v - 1 - k)
          with (Z.of_nat (Z.to_nat (size_ v - 1 - k))) by lia.
        by apply Hobj. }
    rewrite Hrun.
    assert (moved value = Some x) as Hread.
    { rewrite Hout by (intros k Hk; apply Hout_of; lia).
      rewrite Hbuilt by (apply Hout_of; lia). done. }
    replace (size_ v - 1 - Z.of_nat (Z.to_nat (size_ v - 1 - Z.of_nat i)))
      with (Z.of_nat i) in Hlow by lia.
    destruct Hlow as [u Hu].
    unfold copy_assign. rewrite Hu, Hread.
    eexists. split; [reflexivity|].
    intros a y Ha. destruct (Hcases a y Ha) as [Hlt Ha'].
    destruct (decide (a < i)%nat) as [Hai|Hai].
    + rewrite put_object_other by (apply Hslot; lia).
      rewrite Hout by (intros k Hk; apply Hslot; lia).
      rewrite Hbuilt by (apply Hslot; lia).
      by apply Hobj.
    + destruct (decide (a = i)) as [->|Hne'].
      * by rewrite put_object_same.
      * rewrite put_object_other by (apply Hslot; lia).
        destruct (decide (a = length l)) as [->|Hmid].
        -- rewrite Hout by (intros k Hk; apply Hslot; lia).
           rewrite <- Hlen, Hend. by rewrite <- Hz, <- Ha'.
        -- replace (Z.of_nat a) with (size_ v - (size_ v - Z.of_nat a)) by lia.
           rewrite Hin by lia.
           rewrite Hbuilt by (apply Hslot; lia).
           replace (size_ v - 1 - (size_ v - Z.of_nat a))
             with (Z.of_nat (Nat.pred a)) by lia.
           by apply Hobj.
Qed.

End InsertFacts.

(** X30: [Insert] at an index up to the size takes its value by
    reference.  Before the end it move-constructs the last element one
    place up, move-assigns the elements from the index on one place up,
    back to front, and then copy-assigns the value to the place at the
    index; at the end it constructs a copy there.  The vector then holds
    the old elements with the value at that index, and the address of the
    new element is returned, provided the reference is to a live object
    that is neither the element at the index nor one behind it, nor the
    place behind the last: those are written before the value is read.
    With room left the storage is kept and the allocator is not called.
    On a full vector the elements first move to storage of
    [next_capacity], and the reference must be to an object outside the
    old elements, destroyed by then, and outside the new storage.  If the
    allocator throws, the vector and its objects stay as they were. *)
Theorem Insert_places_element
    {Heap : Type} `{!SystemAllocator Heap} {T : Type}
    (p : Policy) (moved_from : T → T) (i : nat) (value : pointer) (x : T)
    (v : SimpleVector) (m : Machine Heap T) (l : list T) :
  holds p v m l →
  (i ≤ length l)%nat →
  1 ≤ sizeof_T p →
  size_ v < SIZE_MAX →
  objects m value = Some x →
  (size_ v ≠ capacity_ v →
     (∀ k, Z.of_nat i ≤ k ≤ Z.of_nat (length l) → value ≠ slot p (items_ v) k) →
     ∃ m', Insert p moved_from (Z.of_nat i) value (v, m)
           = Some (Ret (slot p (items_ v) (Z.of_nat i))
                       (mkSimpleVector (items_ v) (size_ v + 1) (capacity_ v)
                                       (allocator_ v),
                        m'))
           ∧ holds p (mkSimpleVector (items_ v) (size_ v + 1) (capacity_ v)
                        (allocator_ v)) m' (take i l ++ x :: drop i l)
           ∧ world m' = world m)
  ∧ (∀ q w', size_ v = capacity_ v →
       allocate p (allocator_ v) (next_capacity v) (world m) = Ret q w' →
       apart p q (items_ v) (length l) →
       (∀ k, 0 ≤ k < Z.of_nat (length l) → value ≠ slot p (items_ v) k) →
       (∀ k, 0 ≤ k ≤ Z.of_nat (length l) → value ≠ slot p q k) →
       ∃ m', Insert p moved_from (Z.of_nat i) value (v, m)
             = Some (Ret (slot p q (Z.of_nat i))
                         (mkSimpleVector q (size_ v + 1) (next_capacity v)
                                         (allocator_ v),
                          m'))
             ∧ holds p (mkSimpleVector q (size_ v + 1) (next_capacity v)
                          (allocator_ v)) m' (take i l ++ x :: drop i l))
  ∧ (∀ e w', size_ v = capacity_ v →
       allocate p (allocator_ v) (next_capacity v) (world m) = Throw e w' →
       Insert p moved_from (Z.of_nat i) value (v, m)
       = Some (Throw e (v, mkMachine w' (objects m)))).
Proof.
  intros Hholds Hi Hs Hsize Hval. pose proof Hholds as [Hlen Hobj].
  assert (length (take i l ++ x :: drop i l) = S (length l)) as Hcount.
  { rewrite length_app, length_take, Nat.min_l by lia. cbn [length].
    rewrite length_drop. lia. }
  unfold Insert. split; [|split].
  - intros Hroom Hout_of.
    destruct (Z.eqb_spec (size_ v) (capacity_ v)) as [|_]; [done|].
    unfold bindB, defined, ret. rewrite wrap_small by lia.
    destruct (insert_objects_holds p moved_from v m l i value x Hs Hholds Hi Hval
                Hout_of) as (objs' & -> & Hplaced).
    eexists. split; [reflexivity|]. split; [|done]. split; [|done].
    cbn [size_]. rewrite Hcount. lia.
  - intros q w' Hfull Halloc Hapart Hold Hnew.
    destruct (Z.eqb_spec (size_ v) (capacity_ v)) as [_|]; [|done].
    destruct (resize_storage_holds p v m l (next_capacity v) q w')
      as (m1 & Hrun & Hholds1 & _ & Hrest & _); [done|lia|done..|].
    unfold next_capacity in Hrun. unfold bindB, defined. rewrite Hrun.
    destruct (insert_objects_holds p moved_from
                (mkSimpleVector q (size_ v) (next_capacity v) (allocator_ v))
                m1 l i value x Hs Hholds1 Hi) as (objs' & Hins & Hplaced).
    { rewrite Hrest; [done|]. intros k Hk. split; [apply Hnew|apply Hold]; lia. }
    { intros k Hk. cbn [items_]. apply Hnew. lia. }
    unfold next_capacity in Hins. rewrite Hins.
    cbn [items_ size_ capacity_ allocator_]. rewrite wrap_small by lia.
    eexists. split; [reflexivity|]. split; [|done].
    cbn [size_]. rewrite Hcount. lia.
  - intros e w' Hfull Halloc.
    destruct (Z.eqb_spec (size_ v) (capacity_ v)) as [_|]; [|done].
    unfold next_capacity in Halloc.
    unfold bindB, defined, resize_storage, bind, vec_allocate. by rewrite Halloc.
Qed.

Lemma Insert_places_element_witness :
  ∃ m', Insert int_policy (λ x, x) 1 8000 (sample_vector, caller_machine)
        = Some (Ret 4100 (mkSimpleVector 4096 3 4 first_allocator, m'))
        ∧ holds int_policy (mkSimpleVector 4096 3 4 first_allocator) m' [7; 9; 8]
        ∧ world m' = world caller_machine.
Proof.
  refine (proj1 (Insert_places_element int_policy (λ x, x) 1 8000 9 sample_vector
                   caller_machine [7; 8] _ _ _ _ _) _ _).
  - split; [reflexivity|]. intros [|[|i]] y Hy; by inversion Hy.
  - cbn. lia.
  - vm_compute. discriminate.
  - vm_compute. reflexivity.
  - reflexivity.
  - vm_compute. discriminate.
  - intros k Hk. cbn in Hk. unfold slot. cbn. lia.
Defined.
